(** * PNG-JS: chunk parser, scanline defilterer and sub-image extractor

    A shallow embedding of class [png] of [src/png_utils.js]: the methods
    [parseChunks], [reverseFiltering] and [subImage], with the properties
    the specification states about them.  (The repository also holds a
    second copy of the class, without the PLTE checks and with another
    [reverseFiltering]; it is not what the specification describes and is
    not modelled.)

    Conventions of the embedding.
    - A JavaScript number that is an array index, a byte or a length is a
      [Z]; [%] is [Z.rem] (sign of the dividend), [Math.floor (_ / 2)] is
      [Z.div].  Byte arrays are lists of [Z], their elements being bytes
      where a statement needs it ([Forall byte]).
    - [subImage] takes whatever a caller passes, so it is modelled twice.
      [Extract] reads it on JavaScript values: [undefined], [null],
      booleans, numbers (NaN, the infinities and finite doubles), strings,
      arrays, typed arrays and objects with data properties.  A sum of two
      doubles is the true sum rounded to the nearest double, ties to even,
      as [+] and [++] compute it; the statements that describe which rows
      and columns are read carry the bounds under which the sums are the
      true ones, and [ExtractSpec.sums_are_rounded] runs the model where
      they are not.  [SubImage] is the same function read on whole numbers
      and rationals in exact arithmetic, used where a tile is cut from a
      decoded image; [ExtractAgrees.whole_reading] shows that the two
      readings agree on whole numbers up to [2^51].
    - [throw] and the exceptions of the runtime are the [Throw] outcome of a
      small error monad.  Loops carry fuel: [None] stands for fuel that ran
      out, and [reverseFiltering_total], [parseChunks_total] (for byte
      arrays), [subImage_total] (for [SubImage]) and [rows_loop_ends] (for
      [Extract]) show that it never does.
    - Part I holds the definitions (the three methods first, then what the
      proofs need to describe the defiltered grid); Part II holds the lemmas
      and, per component, the properties of the specification.
    - Beyond the specification, Part I also models [#concatIDATChunks], the
      loop that joins the pieces of the compression stream, the checks of
      the constructor and the choice of the file in [#readBlob]; the
      properties numbered X1, X2, ... at the end of Part II are read off the
      code of these and of the three methods.  The streams themselves
      ([FileReader], [CompressionStream], [DecompressionStream]) are not
      modelled. *)

From Stdlib Require Import ZArith List Bool Lia QArith Qround Lqa.
From Stdlib Require String.
Import ListNotations.
Open Scope Z_scope.

(** * Part I: definitions *)

(** ** JavaScript runtime fragments *)

Module JS.

(** Exceptions the runtime raises on its own. [UndefinedUse] stands for an
    [undefined] that flows into arithmetic or is left as a hole in an array:
    JavaScript carries on with [NaN]; the model stops there. *)
Inductive fault : Type :=
| RangeError      (* DataView access outside the buffer *)
| TypeError       (* property read on undefined, call of a non-function *)
| UndefinedUse.

(** The [throw new Error(...)] statements of the source, under the names the
    specification gives them. *)
Inductive error : Type :=
| InvalidPalette                        (* "PLTE chunk length must be divisible by 3." *)
| MissingPalette                        (* "Images of colourtype 3 must include a PLTE chunk." *)
| UnsupportedFilterByte                 (* "Unexpected filter byte." *)
| InvalidGridType                       (* "Incorrect type for imageDataBuffer. ..." *)
| InvalidTileSize                       (* "Invalid tileSize: ..." *)
| InvalidMargins                        (* "Invalid margins: ..." *)
| SubImageExtractionError (cause : fault). (* "Error trying to get subimage. ${e.message}" *)

Inductive exn : Type :=
| Err (e : error)
| Fault (f : fault).

Inductive outcome (A : Type) : Type :=
| Ret (a : A)
| Throw (e : exn).
Arguments Ret {A} a.
Arguments Throw {A} e.

Definition bind {A B} (m : outcome A) (k : A -> outcome B) : outcome B :=
  match m with
  | Ret a => k a
  | Throw e => Throw e
  end.

(** [named e]: the exception comes from a [throw] of the source itself. *)
Definition named (e : exn) : bool :=
  match e with
  | Err _ => true
  | Fault _ => false
  end.

(** [l[k]]: [None] is JavaScript's [undefined]. *)
Definition get {A} (l : list A) (k : Z) : option A :=
  if k <? 0 then None else nth_error l (Z.to_nat k).

Definition len {A} (l : list A) : Z := Z.of_nat (length l).

(** [Array.prototype.slice(s, e)] for integer arguments: a negative index
    counts from the end, both ends are clamped to the array. *)
Definition slice {A} (l : list A) (s e : Z) : list A :=
  let k := if s <? 0 then Z.max (len l + s) 0 else Z.min s (len l) in
  let final := if e <? 0 then Z.max (len l + e) 0 else Z.min e (len l) in
  firstn (Z.to_nat (final - k)) (skipn (Z.to_nat k) l).

(** [l[k] = v] for [k] inside the array or at its end; any other write (a
    hole further out, a negative key) is outside the model. *)
Definition store {A} (l : list A) (k : Z) (v : A) : outcome (list A) :=
  if (0 <=? k) && (k <? len l) then
    Ret (firstn (Z.to_nat k) l ++ v :: skipn (S (Z.to_nat k)) l)
  else if k =? len l then Ret (l ++ [v])
  else Throw (Fault UndefinedUse).

(** The elements of a byte array. *)
Definition byte (x : Z) : Prop := 0 <= x <= 255.

End JS.
Import JS.

Notation "x <- m ;; k" := (bind m (fun x => k))
  (at level 61, m at next level, right associativity).
Notation "' p <- m ;; k" := (bind m (fun x => let 'p := x in k))
  (at level 61, p pattern, m at next level, right associativity).

(** ** ScanlineDefilterer: [reverseFiltering] *)

Module Defilter.

(** An entry of a row of [res]: the filter byte in front, pixels after it. *)
Inductive cell : Type :=
| Num (n : Z)
| Px (p : list Z).

Abbreviation row := (list cell).
Abbreviation grid := (list (list cell)).

(** The variables the loop of [reverseFiltering] updates. *)
Record state : Type := mkState {
  res : grid;
  lineNum : Z;
  pixelCount : Z;
  filterByte : option Z
}.

(** [v[idx]] inside a [map] callback, the result used as a number. *)
Definition chan (v : option cell) (idx : Z) : outcome Z :=
  match v with
  | None => Throw (Fault TypeError)
  | Some (Num _) => Throw (Fault UndefinedUse)
  | Some (Px p) =>
      match get p idx with
      | Some c => Ret c
      | None => Throw (Fault UndefinedUse)
      end
  end.

(** [l.map((x, idx) => f x idx)] with a callback that may throw. *)
Fixpoint map_from (f : Z -> Z -> outcome Z) (idx : Z) (l : list Z)
  : outcome (list Z) :=
  match l with
  | [] => Ret []
  | x :: l' =>
      y <- f x idx ;;
      ys <- map_from f (idx + 1) l' ;;
      Ret (y :: ys)
  end.

Definition js_map (f : Z -> Z -> outcome Z) (l : list Z) : outcome (list Z) :=
  map_from f 0 l.

(** [res[lineNum]] where a row is needed. *)
Definition line (r : grid) (k : Z) : outcome row :=
  match get r k with
  | Some l => Ret l
  | None => Throw (Fault TypeError)
  end.

(** [res[lineNum].push(p)]. *)
Definition push (r : grid) (k : Z) (p : list Z) : outcome grid :=
  l <- line r k ;;
  store r k (l ++ [Px p]).

(** The Paeth choice of lines 293-297. *)
Definition paeth (a b c : Z) : Z :=
  let p := a + b - c in
  let pa := Z.abs (p - a) in
  let pb := Z.abs (p - b) in
  let pc := Z.abs (p - c) in
  if (pa <=? pb) && (pa <=? pc) then a else if pb <=? pc then b else c.

(** Lines 252-256: the start of a new line. *)
Definition start_line (array : list Z) (widthBytes i : Z) (s : state)
  : outcome (Z * state) :=
  if Z.rem i widthBytes =? 0 then
    match get array i with
    | Some fb =>
        res' <- store (res s) (lineNum s + 1) [Num fb] ;;
        Ret (i + 1, mkState res' (lineNum s + 1) 0 (Some fb))
    | None => Throw (Fault UndefinedUse)
    end
  else Ret (i, s).

(** Lines 258-304: the pixel written for the group at [i]. *)
Definition new_pixel (array : list Z) (i : Z) (s : state) : outcome (list Z) :=
  let curPixel := slice array i (i + 4) in
  curLine <- line (res s) (lineNum s) ;;
  let prevPixel := get curLine (pixelCount s) in
  prevLinePixel <-
    (if lineNum s >? 0 then
       up <- line (res s) (lineNum s - 1) ;; Ret (get up (pixelCount s + 1))
     else Ret (Some (Px [0; 0; 0; 0]))) ;;
  match filterByte s with
  | Some 0 => Ret curPixel
  | Some 1 =>
      if pixelCount s >? 0 then
        js_map (fun x idx =>
                  a <- chan prevPixel idx ;; Ret (Z.rem (x + a) 256)) curPixel
      else Ret curPixel
  | Some 2 =>
      js_map (fun x idx =>
                b <- chan prevLinePixel idx ;; Ret (Z.rem (x + b) 256)) curPixel
  | Some 3 =>
      js_map (fun x idx =>
                left <- (if pixelCount s >? 0 then chan prevPixel idx else Ret 0) ;;
                up <- (if lineNum s >? 0 then chan prevLinePixel idx else Ret 0) ;;
                Ret (Z.rem (x + (left + up) / 2) 256)) curPixel
  | Some 4 =>
      js_map (fun x idx =>
                a <- (if pixelCount s >? 0 then chan prevPixel idx else Ret 0) ;;
                b <- (if lineNum s >? 0 then chan prevLinePixel idx else Ret 0) ;;
                c <- (if (pixelCount s >? 0) && (lineNum s >? 0) then
                        up <- line (res s) (lineNum s - 1) ;;
                        chan (get up (pixelCount s)) idx
                      else Ret 0) ;;
                Ret (Z.rem (x + paeth a b c) 256)) curPixel
  | _ => Throw (Err UnsupportedFilterByte)
  end.

(** One pass through the body of the [for] loop, lines 251-306. *)
Definition body (array : list Z) (widthBytes i : Z) (s : state)
  : outcome (Z * state) :=
  '(i, s) <- start_line array widthBytes i s ;;
  p <- new_pixel array i s ;;
  res' <- push (res s) (lineNum s) p ;;
  Ret (i, mkState res' (lineNum s) (pixelCount s + 1) (filterByte s)).

(** [for (let i = ...; i < array.length; i += 4)]; [None] when the fuel is
    spent before the loop ends. *)
Fixpoint loop (fuel : nat) (array : list Z) (widthBytes i : Z) (s : state)
  : option (outcome grid) :=
  if i <? len array then
    match fuel with
    | O => None
    | S fuel' =>
        match body array widthBytes i s with
        | Ret (i', s') => loop fuel' array widthBytes (i' + 4) s'
        | Throw e => Some (Throw e)
        end
    end
  else Some (Ret (res s)).

Definition initial : state := mkState [] (-1) 0 None.

(** [reverseFiltering(arrayBuffer)], with [this.data[0].chunkInfo.widthPixels]
    as a parameter. *)
Definition reverseFiltering (arrayBuffer : list Z) (widthPixels : Z)
  : option (outcome grid) :=
  let array := arrayBuffer in
  let widthBytes := widthPixels * 4 + 1 in
  loop (length array) array widthBytes 0 initial.

(** Reading the returned grid: pixel [j] of row [r] is [g[r][j + 1]]; a
    neighbour beyond the first row or column counts as 0. *)
Definition pixel (g : grid) (r j : Z) : option (list Z) :=
  match get g r with
  | Some l => match get l (j + 1) with Some (Px p) => Some p | _ => None end
  | None => None
  end.

Definition channel (g : grid) (r j idx : Z) : option Z :=
  match pixel g r j with
  | Some p => get p idx
  | None => None
  end.

Definition neighbour (g : grid) (r j idx : Z) : option Z :=
  if (r <? 0) || (j <? 0) then Some 0 else channel g r j idx.

End Defilter.

(** ** ChunkParser: [parseChunks] *)

Module Parser.

(** [chunkInfo] of the IHDR chunk. *)
Record HeaderInfo : Type := mkHeaderInfo {
  widthPixels : Z;
  heightPixels : Z;
  bitDepth : Z;
  colourType : Z;
  compressionMethod : Z;
  filterMethod : Z;
  interlaceMethod : Z
}.

(** An element of [chunks]. [fourCC] keeps the four bytes of the tag: the
    source decodes them as UTF-8 and compares the text with "IHDR", "PLTE"
    and "tRNS", which holds exactly for the ASCII codes of these letters.
    The text itself is not kept: for tag bytes above 127 it is not the
    bytes, and no statement below relies on it there. *)
Record Chunk : Type := mkChunk {
  fourCC : list Z;
  size : Z;
  data : list Z;
  offset : Z;
  crc : Z;
  chunkInfo : option HeaderInfo
}.

Definition IHDR : list Z := [73; 72; 68; 82].
Definition PLTE : list Z := [80; 76; 84; 69].
Definition tRNS : list Z := [116; 82; 78; 83].

Definition tag_eqb (a b : list Z) : bool :=
  if list_eq_dec Z.eq_dec a b then true else false.

(** [DataView] reads: outside the buffer they raise a RangeError. *)
Definition getUint8 (bytes : list Z) (p : Z) : outcome Z :=
  match get bytes p with
  | Some b => Ret b
  | None => Throw (Fault RangeError)
  end.

Definition getInt8 (bytes : list Z) (p : Z) : outcome Z :=
  b <- getUint8 bytes p ;;
  Ret (if b <? 128 then b else b - 256).

(** Big-endian, as [getUint32] reads without a [littleEndian] argument. *)
Definition getUint32 (bytes : list Z) (p : Z) : outcome Z :=
  if p + 4 <=? len bytes then
    b0 <- getUint8 bytes p ;;
    b1 <- getUint8 bytes (p + 1) ;;
    b2 <- getUint8 bytes (p + 2) ;;
    b3 <- getUint8 bytes (p + 3) ;;
    Ret (((b0 * 256 + b1) * 256 + b2) * 256 + b3)
  else Throw (Fault RangeError).

(** The array [chunks] and what [console.warn] has printed (the colour type
    of each warning). *)
Record pstate : Type := mkPstate {
  chunks : list Chunk;
  warnings : list Z
}.

Definition push_chunk (st : pstate) (c : Chunk) : pstate :=
  mkPstate (chunks st ++ [c]) (warnings st).

Definition warn (st : pstate) (ct : Z) : pstate :=
  mkPstate (chunks st) (warnings st ++ [ct]).

(** [chunks[0].chunkInfo.colourType]. *)
Definition first_colourType (cs : list Chunk) : outcome Z :=
  match get cs 0 with
  | Some c =>
      match chunkInfo c with
      | Some info => Ret (colourType info)
      | None => Throw (Fault TypeError)
      end
  | None => Throw (Fault TypeError)
  end.

(** Lines 102-110: the header fields, read at fixed offsets of the stream. *)
Definition read_header (bytes : list Z) : outcome HeaderInfo :=
  w <- getUint32 bytes 16 ;;
  h <- getUint32 bytes 20 ;;
  bd <- getUint8 bytes 24 ;;
  ct <- getUint8 bytes 25 ;;
  cm <- getInt8 bytes 26 ;;
  fm <- getUint8 bytes 27 ;;
  im <- getUint8 bytes 28 ;;
  Ret (mkHeaderInfo w h bd ct cm fm im).

(** One pass through the body of the [while] loop, lines 82-149. *)
Definition iteration (bytes : list Z) (pos : Z) (st : pstate)
  : outcome (Z * pstate) :=
  size <- getUint32 bytes pos ;;
  let fourCC := slice bytes (pos + 4) (pos + 8) in
  let offset := pos + 8 in
  let pos := offset + size in
  crc <- getUint32 bytes pos ;;
  let pos := pos + 4 in
  let data := slice bytes offset (offset + size) in
  if tag_eqb fourCC IHDR then
    info <- read_header bytes ;;
    Ret (pos, push_chunk st (mkChunk fourCC size data offset crc (Some info)))
  else if tag_eqb fourCC PLTE then
    if negb (Z.rem size 3 =? 0) then Throw (Err InvalidPalette)
    else
      ct <- first_colourType (chunks st) ;;
      if (ct =? 3) && (size =? 0) then Throw (Err MissingPalette)
      else
        let st := if ((ct =? 0) || (ct =? 4)) && negb (size =? 0)
                  then warn st ct else st in
        Ret (pos, push_chunk st (mkChunk fourCC size data offset crc None))
  else if tag_eqb fourCC tRNS then
    Ret (pos, push_chunk st (mkChunk fourCC size data offset crc None))
  else
    Ret (pos, push_chunk st (mkChunk fourCC size data offset crc None)).

(** [while (pos < arrayBuffer.byteLength)]; [None] when the fuel is spent. *)
Fixpoint parse_loop (fuel : nat) (bytes : list Z) (pos : Z) (st : pstate)
  : option (outcome pstate) :=
  if pos <? len bytes then
    match fuel with
    | O => None
    | S fuel' =>
        match iteration bytes pos st with
        | Ret (pos', st') => parse_loop fuel' bytes pos' st'
        | Throw e => Some (Throw e)
        end
    end
  else Some (Ret st).

Definition start : pstate := mkPstate [] [].

(** [parseChunks(arrayBuffer)]: the chunks, with the warnings printed. *)
Definition parseChunks (arrayBuffer : list Z) : option (outcome pstate) :=
  parse_loop (length arrayBuffer) arrayBuffer 8 start.

(** The loop arrives at [pos] with state [st] after [n] chunks. *)
Inductive reaches (bytes : list Z) : nat -> Z -> pstate -> Prop :=
| reaches_start : reaches bytes 0 8 start
| reaches_next n pos st pos' st' :
    reaches bytes n pos st ->
    pos < len bytes ->
    iteration bytes pos st = Ret (pos', st') ->
    reaches bytes (S n) pos' st'.

(** Building streams for examples. *)
Definition signature : list Z := [137; 80; 78; 71; 13; 10; 26; 10].

Definition u32 (n : Z) : list Z :=
  [n / 16777216 mod 256; n / 65536 mod 256; n / 256 mod 256; n mod 256].

Definition chunk_bytes (tag body : list Z) : list Z :=
  u32 (len body) ++ tag ++ body ++ [0; 0; 0; 0].

Definition ihdr_body (ct : Z) : list Z :=
  u32 2 ++ u32 1 ++ [8; ct; 0; 0; 0].

Definition IEND : list Z := [73; 69; 78; 68].
Definition tEXt : list Z := [116; 69; 88; 116].

(** Header of colour type 0, a palette of one entry, the end chunk. *)
Definition grey_with_palette : list Z :=
  signature ++ chunk_bytes IHDR (ihdr_body 0) ++ chunk_bytes PLTE [1; 2; 3]
            ++ chunk_bytes IEND [].

(** A header, then a data chunk that declares 5 bytes and holds 3. *)
Definition cut_short : list Z :=
  signature ++ chunk_bytes IHDR (ihdr_body 6) ++ [0; 0; 0; 5; 73; 68; 65; 84; 1; 2; 3].

(** No header: a text chunk, then a palette of [body]. *)
Definition headless (body : list Z) : list Z :=
  signature ++ chunk_bytes tEXt [1] ++ chunk_bytes PLTE body
            ++ chunk_bytes IEND [].

(** The state after the first chunk of a stream. *)
Definition after_first (bytes : list Z) : pstate :=
  match iteration bytes 8 start with
  | Ret (_, st) => st
  | Throw _ => start
  end.

End Parser.

(** ** SubImageExtractor: [subImage] on whole numbers and rationals, in
    exact arithmetic

    This reading leaves out [null], NaN and the rounding of doubles; it is
    what the code does when every number is whole and small, as for a tile
    inside a decoded image.  The reading on JavaScript values is [Extract],
    below. *)

Module SubImage.

(** The values a caller can pass: [undefined], numbers (exact rationals) and
    arrays. *)
#[local] Set Warnings "-register-all".
Inductive value : Type :=
| VUndef
| VNum (q : Q)
| VArr (l : list value).

(** [tileSize] and [margins], a missing field being [VUndef]. *)
Record TileSize : Type := mkTileSize { x : value; y : value }.
Record Margins : Type := mkMargins { xMargin : value; yMargin : value }.

Definition int (z : Z) : value := VNum (inject_Z z).

(** [margins = { xMargin: 0, yMargin: 0 }] when the caller gives none. *)
Definition default_margins : Margins := mkMargins (int 0) (int 0).

Definition Qltb (a b : Q) : bool := negb (Qle_bool b a).

(** ToIntegerOrInfinity: the fraction is dropped. *)
Definition truncate (q : Q) : Z :=
  if Qle_bool 0 q then Qfloor q else Qceiling q.

(** [l[i]] for a number [i]: an element only at a whole index inside the
    array. *)
Definition index (l : list value) (i : Q) : value :=
  if Qeq_bool (inject_Z (Qfloor i)) i then
    match get l (Qfloor i) with
    | Some v => v
    | None => VUndef
    end
  else VUndef.

(** Lines 334-336 inside the [try]: what is thrown there is caught at line
    337 and thrown again as "Error trying to get subimage. ...". *)
Fixpoint rows_loop (fuel : nat) (imageDataBuffer : list value)
    (i bound : Q) (from to : Z) (subImage : list value)
  : option (outcome (list value)) :=
  if Qltb i bound then
    match fuel with
    | O => None
    | S fuel' =>
        match index imageDataBuffer i with
        | VArr row =>
            rows_loop fuel' imageDataBuffer (i + 1)%Q bound from to
                      (subImage ++ [VArr (slice row from to)])
        | VUndef | VNum _ =>
            Some (Throw (Err (SubImageExtractionError TypeError)))
        end
    end
  else Some (Ret subImage).

(** [subImage(imageDataBuffer, tileSize, margins)]. *)
Definition subImage (imageDataBuffer : value) (tileSize : TileSize)
    (margins : Margins) : option (outcome value) :=
  match imageDataBuffer with
  | VArr rows =>
      match x tileSize, y tileSize with
      | VNum tileWidth, VNum tileHeight =>
          if Qle_bool tileWidth 0 || Qle_bool tileHeight 0 then
            Some (Throw (Err InvalidTileSize))
          else
            match xMargin margins, yMargin margins with
            | VNum xMargin, VNum yMargin =>
                match rows_loop (Z.to_nat (Qceiling tileHeight)) rows
                        yMargin (tileHeight + yMargin)%Q
                        (truncate (xMargin + 1)%Q)
                        (truncate (xMargin + 1 + tileWidth)%Q)
                        [VNum 0] with
                | Some (Ret out) => Some (Ret (VArr out))
                | Some (Throw e) => Some (Throw e)
                | None => None
                end
            | _, _ => Some (Throw (Err InvalidMargins))
            end
      | _, _ => Some (Throw (Err InvalidTileSize))
      end
  | _ => Some (Throw (Err InvalidGridType))
  end.

(** What lines 323 and 326 accept. *)
Definition valid_tile (ts : TileSize) : Prop :=
  exists tw th, x ts = VNum tw /\ y ts = VNum th /\ (0 < tw)%Q /\ (0 < th)%Q.

Definition valid_margins (m : Margins) : Prop :=
  exists xm ym, xMargin m = VNum xm /\ yMargin m = VNum ym.

(** A grid of [reverseFiltering] as a value. *)
Definition of_cell (c : Defilter.cell) : value :=
  match c with
  | Defilter.Num n => int n
  | Defilter.Px p => VArr (map int p)
  end.

Definition of_grid (g : list (list Defilter.cell)) : value :=
  VArr (map (fun l => VArr (map of_cell l)) g).

End SubImage.

(** ** SubImageExtractor on JavaScript values: [subImage] with the
    arithmetic of doubles *)

Module Extract.
Import String.StringSyntax.
#[local] Delimit Scope string_scope with string.

(** A JavaScript number: NaN, an infinity, or a finite double given by its
    value ([-0] and [0] are not told apart: [subImage] treats them alike). *)
Inductive num : Type :=
| NaN
| Inf (negative : bool)
| Fin (q : Q).

Definition two53 : Z := 9007199254740992.

(** A test that is enough for [q] to be a double: in lowest terms it is
    [n / 2^k] with [|n| <= 2^53] and [k <= 1022]. *)
Definition exact (q : Q) : bool :=
  let r := Qred q in
  (Z.abs (Qnum r) <=? two53)
  && (Z.pos (Qden r) =? 2 ^ Z.log2 (Z.pos (Qden r)))
  && (Z.log2 (Z.pos (Qden r)) <=? 1022).

(** The double nearest to a number that is not 0 and may be no double: the
    last place kept is [2^e], [e] going no lower than -1074 (the subnormal
    numbers); a number half-way between two doubles goes to the one whose
    last digit is even; what reaches [2^1024] is an infinity. *)
Definition nearest (q : Q) : num :=
  let n := Z.abs (Qnum q) in
  let d := Z.pos (Qden q) in
  if n =? 0 then Fin 0 else
  let l := Z.log2 n - Z.log2 d in
  let b := if (if 0 <=? l then d * 2 ^ l <=? n else d <=? n * 2 ^ (- l))
           then l else l - 1 in
  let e := Z.max (b - 52) (-1074) in
  let num := if 0 <=? e then n else n * 2 ^ (- e) in
  let den := if 0 <=? e then d * 2 ^ e else d in
  let m := num / den in
  let r := num mod den in
  let m' := if 2 * r <? den then m
            else if den <? 2 * r then m + 1
            else if Z.even m then m else m + 1 in
  if 971 <? e then Inf (Qnum q <? 0)
  else if (e =? 971) && (two53 <=? m') then Inf (Qnum q <? 0)
  else
    let v := if 0 <=? e then inject_Z (m' * 2 ^ e)
             else m' # Z.to_pos (2 ^ (- e)) in
    Fin (if Qnum q <? 0 then - v else v)%Q.

(** Rounding to a double.  A number that passes [exact] is a double and is
    its own rounding. *)
Definition round (q : Q) : num := if exact q then Fin q else nearest q.

(** [a + b]: the true sum, rounded. *)
Definition add (a b : num) : num :=
  match a, b with
  | NaN, _ | _, NaN => NaN
  | Inf s, Inf s' => if Bool.eqb s s' then Inf s else NaN
  | Inf s, Fin _ | Fin _, Inf s => Inf s
  | Fin x, Fin y => round (x + y)
  end.

(** [a < b] and [a <= b]: false as soon as one side is NaN. *)
Definition lt (a b : num) : bool :=
  match a, b with
  | NaN, _ | _, NaN => false
  | _, Inf true => false
  | Inf true, _ => true
  | Inf false, _ => false
  | Fin _, Inf false => true
  | Fin x, Fin y => negb (Qle_bool y x)
  end.

Definition le (a b : num) : bool :=
  match a, b with
  | NaN, _ | _, NaN => false
  | Inf true, _ => true
  | _, Inf false => true
  | Inf false, _ => false
  | Fin _, Inf true => false
  | Fin x, Fin y => Qle_bool x y
  end.

(** The values a caller can pass: primitives, strings (their code units),
    arrays, typed arrays and objects with data properties.  Functions,
    symbols and objects with methods or getters are outside the model. *)
#[local] Set Warnings "-register-all".
Inductive value : Type :=
| VUndef
| VNull
| VBool (b : bool)
| VNum (n : num)
| VStr (units : list Z)
| VArr (l : list value)
| VTyped (l : list Z)
| VObj (fields : list (String.string * value)).

Definition typeof (v : value) : String.string :=
  match v with
  | VUndef => "undefined"
  | VBool _ => "boolean"
  | VNum _ => "number"
  | VStr _ => "string"
  | VNull | VArr _ | VTyped _ | VObj _ => "object"
  end%string.

Fixpoint lookup (fields : list (String.string * value)) (key : String.string)
  : option value :=
  match fields with
  | [] => None
  | (k, v) :: rest => if String.eqb k key then Some v else lookup rest key
  end.

(** [key in v], for the keys [x] and [y]: a TypeError unless [v] is an
    object; arrays and typed arrays have neither key. *)
Definition has (v : value) (key : String.string) : outcome bool :=
  match v with
  | VObj fields => Ret (match lookup fields key with
                        | Some _ => true
                        | None => false
                        end)
  | VArr _ | VTyped _ => Ret false
  | _ => Throw (Fault TypeError)
  end.

(** [v.key], for the keys [x], [y], [xMargin] and [yMargin]: a TypeError on
    [undefined] and [null]; only an object can have them. *)
Definition prop (v : value) (key : String.string) : outcome value :=
  match v with
  | VUndef | VNull => Throw (Fault TypeError)
  | VObj fields => Ret (match lookup fields key with
                        | Some x => x
                        | None => VUndef
                        end)
  | _ => Ret VUndef
  end.

Definition is_number (v : value) : bool := String.eqb (typeof v) "number"%string.
Definition is_object (v : value) : bool := String.eqb (typeof v) "object"%string.

Definition zero : num := Fin 0.
Definition one : num := Fin 1.

(** [v <= 0], asked of numbers only. *)
Definition le0 (v : value) : bool :=
  match v with
  | VNum n => le n zero
  | _ => false
  end.

(** Line 323: the condition under which "Invalid tileSize" is thrown, its
    operands evaluated from left to right until one is true. *)
Definition tile_rejected (tileSize : value) : outcome bool :=
  if negb (is_object tileSize) then Ret true else
  hx <- has tileSize "x"%string ;;
  if negb hx then Ret true else
  hy <- has tileSize "y"%string ;;
  if negb hy then Ret true else
  x <- prop tileSize "x"%string ;;
  y <- prop tileSize "y"%string ;;
  Ret (negb (is_number x) || negb (is_number y) || le0 x || le0 y).

(** Line 326: the condition under which "Invalid margins" is thrown. *)
Definition margins_rejected (margins : value) : outcome bool :=
  if negb (is_object margins) then Ret true else
  xMargin <- prop margins "xMargin"%string ;;
  if negb (is_number xMargin) then Ret true else
  yMargin <- prop margins "yMargin"%string ;;
  Ret (negb (is_number yMargin)).

(** [margins = { xMargin: 0, yMargin: 0 }], the default of an argument that
    is [undefined]. *)
Definition default_margins : value :=
  VObj [("xMargin"%string, VNum zero); ("yMargin"%string, VNum zero)].

(** [imageDataBuffer[i]]: an element only at a whole index inside the
    array. *)
Definition index (l : list value) (i : num) : value :=
  match i with
  | Fin q =>
      if Qeq_bool (inject_Z (Qfloor q)) q then
        match get l (Qfloor q) with
        | Some v => v
        | None => VUndef
        end
      else VUndef
  | _ => VUndef
  end.

(** ToIntegerOrInfinity of an argument of [slice], for an array of [n]
    entries: the fraction is dropped, NaN is 0, and an infinity is as good
    as [n] places beyond the start or the end. *)
Definition to_integer (n : Z) (a : num) : Z :=
  match a with
  | NaN => 0
  | Inf true => - n
  | Inf false => n
  | Fin q => SubImage.truncate q
  end.

(** Arrays, strings and typed arrays have a [slice] method. *)
Definition sliceable (row : value) : bool :=
  match row with
  | VArr _ | VStr _ | VTyped _ => true
  | _ => false
  end.

(** [row.slice(s, e)] for a row that has the method. *)
Definition slice_row (row : value) (s e : num) : value :=
  match row with
  | VArr l => VArr (slice l (to_integer (len l) s) (to_integer (len l) e))
  | VStr u => VStr (slice u (to_integer (len u) s) (to_integer (len u) e))
  | VTyped l => VTyped (slice l (to_integer (len l) s) (to_integer (len l) e))
  | _ => row
  end.

(** Lines 334-336 inside the [try].  A row without a [slice] method raises
    a TypeError, which line 337 catches and line 338 throws again as "Error
    trying to get subimage. ...".  [None]: the fuel is spent. *)
Fixpoint rows_loop (fuel : nat) (imageDataBuffer : list value)
    (i bound xMargin tileWidth : num) (subImage : list value)
  : option (outcome (list value)) :=
  if lt i bound then
    match fuel with
    | O => None
    | S fuel' =>
        let row := index imageDataBuffer i in
        if sliceable row then
          rows_loop fuel' imageDataBuffer (add i one) bound xMargin tileWidth
                    (subImage
                     ++ [slice_row row (add xMargin one)
                                   (add (add xMargin one) tileWidth)])
        else Some (Throw (Err (SubImageExtractionError TypeError)))
    end
  else Some (Ret subImage).

(** [subImage(imageDataBuffer, tileSize, margins)].  The loop is given one
    pass more than the grid has rows, which is enough as long as the grid
    has no more than [2^53] of them.  The last branch is never taken: past
    the two checks the four properties are numbers. *)
Definition subImage (imageDataBuffer tileSize margins : value)
  : option (outcome value) :=
  let margins := match margins with
                 | VUndef => default_margins
                 | _ => margins
                 end in
  match imageDataBuffer with
  | VArr rows =>
      match tile_rejected tileSize with
      | Throw e => Some (Throw e)
      | Ret true => Some (Throw (Err InvalidTileSize))
      | Ret false =>
          match margins_rejected margins with
          | Throw e => Some (Throw e)
          | Ret true => Some (Throw (Err InvalidMargins))
          | Ret false =>
              match prop margins "xMargin"%string,
                    prop margins "yMargin"%string,
                    prop tileSize "x"%string, prop tileSize "y"%string with
              | Ret (VNum xMargin), Ret (VNum yMargin),
                Ret (VNum tileWidth), Ret (VNum tileHeight) =>
                  match rows_loop (S (length rows)) rows yMargin
                                  (add tileHeight yMargin)
                                  xMargin tileWidth [VNum zero] with
                  | Some (Ret out) => Some (Ret (VArr out))
                  | Some (Throw e) => Some (Throw e)
                  | None => None
                  end
              | _, _, _, _ => None
              end
          end
      end
  | _ => Some (Throw (Err InvalidGridType))
  end.

(** [rows[k]] for a whole [k], [undefined] outside the array. *)
Definition row_at (rows : list value) (k : Z) : value :=
  match get rows k with
  | Some v => v
  | None => VUndef
  end.

(** Whole numbers, and the objects a caller writes. *)
Definition whole (z : Z) : value := VNum (Fin (inject_Z z)).

Definition tile (x y : value) : value :=
  VObj [("x"%string, x); ("y"%string, y)].

Definition margin_pair (xMargin yMargin : value) : value :=
  VObj [("xMargin"%string, xMargin); ("yMargin"%string, yMargin)].

(** Whole numbers small enough for the sums of [subImage] on them to be
    exact. *)
Definition small (z : Z) : Prop := - 2251799813685248 <= z <= 2251799813685248.

(** What line 323 lets through: an object with numbers [x] and [y], neither
    [<= 0] (so NaN is let through). *)
Definition accepted_tile (tileSize : value) (tileWidth tileHeight : num)
  : Prop :=
  exists fields,
    tileSize = VObj fields /\
    lookup fields "x"%string = Some (VNum tileWidth) /\
    lookup fields "y"%string = Some (VNum tileHeight) /\
    le tileWidth zero = false /\ le tileHeight zero = false.

(** What line 326 lets through: an object with numbers [xMargin] and
    [yMargin]. *)
Definition accepted_margins (margins : value) (xMargin yMargin : num)
  : Prop :=
  exists fields,
    margins = VObj fields /\
    lookup fields "xMargin"%string = Some (VNum xMargin) /\
    lookup fields "yMargin"%string = Some (VNum yMargin).

(** The argument [margins] after its default. *)
Definition given_margins (margins : value) : value :=
  match margins with
  | VUndef => default_margins
  | _ => margins
  end.

(** A value of the reading in exact arithmetic ([SubImage]) as a value
    here. *)
Fixpoint lift (v : SubImage.value) : value :=
  match v with
  | SubImage.VUndef => VUndef
  | SubImage.VNum q => VNum (Fin q)
  | SubImage.VArr l => VArr (map lift l)
  end.

End Extract.

(** ** The grid of [reverseFiltering], row by row

    The definitions below are not part of the source: they describe [res] as
    a list of scanlines (filter byte, pixels) and say what each pixel is in
    terms of the payload and of the pixels before it.  The lemmas further
    down show that the loop keeps [res] in that shape. *)

Module GridView.
Import Defilter.

(** A row of [res] seen as its filter byte and its pixels. *)
Abbreviation arow := (Z * list (list Z))%type.

Definition conc (a : arow) : row := Num (fst a) :: map Px (snd a).

(** Pixel [j] of row [r], and one of its channels with 0 for a pixel that
    does not exist (the [[0, 0, 0, 0]] of the first row and column). *)
Definition apx (ag : list arow) (r j : Z) : option (list Z) :=
  match get ag r with
  | Some a => get (snd a) j
  | None => None
  end.

Definition nb (ag : list arow) (r j idx : Z) : Z :=
  match apx ag r j with
  | Some p => match get p idx with Some v => v | None => 0 end
  | None => 0
  end.

(** What the [switch] stores for one channel, given the three neighbours. *)
Definition recon (fb j x a b c : Z) : Z :=
  match fb with
  | 0 => x
  | 1 => if j >? 0 then Z.rem (x + a) 256 else x
  | 2 => Z.rem (x + b) 256
  | 3 => Z.rem (x + (a + b) / 2) 256
  | 4 => Z.rem (x + paeth a b c) 256
  | _ => x
  end.

Fixpoint pmap_from (g : Z -> Z -> Z) (idx : Z) (l : list Z) : list Z :=
  match l with
  | [] => []
  | x :: l' => g x idx :: pmap_from g (idx + 1) l'
  end.

Definition recon_px (ag : list arow) (r j fb : Z) (cur : list Z) : list Z :=
  pmap_from (fun x idx =>
               recon fb j x (nb ag r (j - 1) idx) (nb ag (r - 1) j idx)
                     (nb ag (r - 1) (j - 1) idx)) 0 cur.

(** [ag'] has the pixels of [ag] that come before pixel [j] of row [r]. *)
Definition agrees (ag ag' : list arow) (r j : Z) : Prop :=
  forall r' j', r' < r \/ (r' = r /\ j' < j) -> apx ag' r' j' = apx ag r' j'.

Section Payload.
Variable array : list Z.
Variable w : Z.
Local Abbreviation wb := (w * 4 + 1).

(** Offset in [array] of pixel [j] of row [r]. *)
Definition pos (r j : Z) : Z := r * wb + 1 + 4 * j.

Record ag_ok (ag : list arow) : Prop := {
  ok_fb : forall r a, get ag r = Some a -> get array (r * wb) = Some (fst a);
  ok_valid : forall r a, get ag r = Some a -> snd a <> [] -> 0 <= fst a <= 4;
  ok_val : forall r a j p, get ag r = Some a -> get (snd a) j = Some p ->
      p = recon_px ag r j (fst a) (slice array (pos r j) (pos r j + 4));
  ok_bytes : Forall byte array ->
      forall r j p, apx ag r j = Some p -> Forall byte p
}.

Definition full (a : arow) : Prop := len (snd a) = w.

(** The state when the pixel after [ps] of the row after [front] is next. *)
Definition at_pixel (i : Z) (s : state) (front : list arow) (fb : Z)
    (ps : list (list Z)) : Prop :=
  res s = map conc (front ++ [(fb, ps)]) /\
  lineNum s = len front /\
  pixelCount s = len ps /\
  filterByte s = Some fb /\
  i = pos (len front) (len ps) /\
  Forall full front /\
  ag_ok (front ++ [(fb, ps)]).

(** The state at the head of the loop. *)
Definition top (i : Z) (s : state) : Prop :=
  (i = 0 /\ s = initial) \/
  exists front fb ps, at_pixel i s front fb ps /\ 1 <= len ps <= w.

(** Some scanline starts with a byte outside 0..4. *)
Definition invalid_scanline : Prop :=
  exists r fb, 0 <= r /\ get array (r * wb) = Some fb /\ ~ 0 <= fb <= 4.

(** The grid when the loop is left. *)
Definition exit_state (ag : list arow) : Prop :=
  ag_ok ag /\
  ((ag = [] /\ len array = 0) \/
   exists front fb ps,
     ag = front ++ [(fb, ps)] /\ Forall full front /\
     1 <= len ps <= w /\ len array <= pos (len front) (len ps)).

End Payload.

End GridView.

(** ** ChunkParser: where the chunks lie in the stream *)

Module ChunkLayout.
Import Parser.

(** [c] is what lines 82-91 read for a chunk that starts at [offset c - 8]
    and lies inside the stream. *)
Definition framed (bytes : list Z) (c : Chunk) : Prop :=
  getUint32 bytes (offset c - 8) = Ret (size c) /\
  fourCC c = slice bytes (offset c - 4) (offset c) /\
  data c = slice bytes (offset c) (offset c + size c) /\
  getUint32 bytes (offset c + size c) = Ret (crc c) /\
  0 <= size c /\
  offset c + size c + 4 <= len bytes.

(** The chunks follow each other from [pos] to [final]: 8 bytes of length
    and tag, the data, 4 bytes of CRC, then the next chunk. *)
Fixpoint laid_out (pos : Z) (cs : list Chunk) (final : Z) : Prop :=
  match cs with
  | [] => final = pos
  | c :: cs' => offset c = pos + 8 /\ laid_out (offset c + size c + 4) cs' final
  end.

(** A stream written chunk by chunk: tag, data and the four CRC bytes as
    they come, the length field computed. *)
Definition chunk_stream (c : list Z * list Z * list Z) : list Z :=
  let '(tag, body, crc) := c in u32 (len body) ++ tag ++ body ++ crc.

Definition be32 (b : list Z) : Z :=
  match b with
  | [b0; b1; b2; b3] => ((b0 * 256 + b1) * 256 + b2) * 256 + b3
  | _ => 0
  end.

(** The chunks [parseChunks] is expected to give back for them, the first
    one starting at [pos]. *)
Fixpoint chunks_at (pos : Z) (cs : list (list Z * list Z * list Z))
  : list Chunk :=
  match cs with
  | [] => []
  | (tag, body, crc) :: cs' =>
      mkChunk tag (len body) body (pos + 8) (be32 crc) None
      :: chunks_at (pos + 12 + len body) cs'
  end.

(** A chunk that can be written and is neither a header nor a palette.  Its
    tag is four ASCII bytes: for these the text that line 84 decodes and
    stores is the tag itself, character for byte. *)
Definition plain_chunk (c : list Z * list Z * list Z) : Prop :=
  let '(tag, body, crc) := c in
  len tag = 4 /\ tag <> IHDR /\ tag <> PLTE /\
  len crc = 4 /\ len body < 4294967296 /\
  Forall (fun b => 0 <= b < 128) tag /\ Forall byte body /\ Forall byte crc.

End ChunkLayout.

(** ** The compressed payload: [#concatIDATChunks] and the joining loops *)

Module Idat.
Import Parser.

Definition IDAT : list Z := [73; 68; 65; 84].

(** [new Uint8Array(array)]: every number is stored modulo 256. *)
Definition Uint8Array_from (array : list Z) : list Z :=
  map (fun x => x mod 256) array.

(** [#concatIDATChunks()], lines 160-168; [this_data] is [this.data], the
    chunks of [parseChunks]. *)
Definition concatIDATChunks (this_data : list Chunk) : list Z :=
  Uint8Array_from
    (fold_left (fun idatData chunk =>
                  if tag_eqb (fourCC chunk) IDAT
                  then idatData ++ data chunk
                  else idatData)
               this_data []).

(** [new Uint8Array(n)]: [n] zeros. *)
Definition zeros (n : Z) : list Z := repeat 0 (Z.to_nat n).

(** [dataBuffer.set(chunk, offset)]: a RangeError when [chunk] does not fit
    at [offset]. *)
Definition set (dataBuffer chunk : list Z) (offset : Z) : outcome (list Z) :=
  if (offset <? 0) || (len dataBuffer <? offset + len chunk) then
    Throw (Fault RangeError)
  else
    Ret (firstn (Z.to_nat offset) dataBuffer ++ chunk
         ++ skipn (Z.to_nat (offset + len chunk)) dataBuffer).

(** Lines 195-198 and 226-229: [for (const chunk of chunks)]. *)
Fixpoint set_all (chunks : list (list Z)) (dataBuffer : list Z) (offset : Z)
  : outcome (list Z) :=
  match chunks with
  | [] => Ret dataBuffer
  | chunk :: rest =>
      dataBuffer <- set dataBuffer chunk offset ;;
      set_all rest dataBuffer (offset + len chunk)
  end.

(** Lines 193-198 of [decompressIDATData] and 224-229 of
    [compressIDATData]: the pieces read from the stream are copied into one
    buffer of their total length. *)
Definition join (chunks : list (list Z)) : outcome (list Z) :=
  set_all chunks
          (zeros (fold_left (fun acc val => acc + len val) chunks 0)) 0.

(** Lines 242-243 of [reverseFiltering]: the width is taken from the header
    of the first chunk of [this.data]. *)
Definition reverseFiltering_of (this_data : list Chunk) (arrayBuffer : list Z)
  : option (outcome Defilter.grid) :=
  match get this_data 0 with
  | Some c =>
      match chunkInfo c with
      | Some info => Defilter.reverseFiltering arrayBuffer (widthPixels info)
      | None => Some (Throw (Fault TypeError))
      end
  | None => Some (Throw (Fault TypeError))
  end.

End Idat.

(** ** The constructor and the choice of the file in [#readBlob] *)

Module Construct.
Import String.
#[local] Open Scope string_scope.

(** The values an [event] can be or hold: primitives and objects with named
    properties (a [FileList] has the property [0]).  Numbers are whole;
    functions and symbols are outside the model. *)
#[local] Set Warnings "-register-all".
Inductive jsval : Type :=
| Undefined
| Null
| Bool (b : bool)
| Number (z : Z)
| Str (s : string)
| Obj (fields : list (string * jsval)).

(** What is thrown: [new Error(message)], or an error of the runtime. *)
Inductive thrown : Type :=
| Error (message : string)
| Native (f : fault).

Inductive res (A : Type) : Type :=
| Ok (a : A)
| Raise (t : thrown).
Arguments Ok {A} a.
Arguments Raise {A} t.

Definition and_then {A B} (m : res A) (k : A -> res B) : res B :=
  match m with
  | Ok a => k a
  | Raise t => Raise t
  end.

Definition typeof (v : jsval) : string :=
  match v with
  | Undefined => "undefined"
  | Null => "object"
  | Bool _ => "boolean"
  | Number _ => "number"
  | Str _ => "string"
  | Obj _ => "object"
  end.

(** ToBoolean, as [!] and [if] apply it. *)
Definition truthy (v : jsval) : bool :=
  match v with
  | Undefined | Null => false
  | Bool b => b
  | Number z => negb (z =? 0)%Z
  | Str EmptyString => false
  | Str (String _ _) => true
  | Obj _ => true
  end.

(** [v === literal] for a string literal: only the same string is equal. *)
Definition is_string (v : jsval) (literal : string) : bool :=
  match v with
  | Str s => (s =? literal)
  | _ => false
  end.

Fixpoint lookup (fields : list (string * jsval)) (key : string) : jsval :=
  match fields with
  | [] => Undefined
  | (k, v) :: rest => if (k =? key) then v else lookup rest key
  end.

(** [v.key] and [v[0]] for the keys the constructor reads ([target],
    [files], [0], [type]): a TypeError on [undefined] and [null]; a string
    has its first character at [0]; no other primitive has any of them. *)
Definition prop (v : jsval) (key : string) : res jsval :=
  match v with
  | Undefined | Null => Raise (Native TypeError)
  | Bool _ | Number _ => Ok Undefined
  | Str s =>
      match s with
      | String c _ => if (key =? "0") then Ok (Str (String c EmptyString))
                      else Ok Undefined
      | EmptyString => Ok Undefined
      end
  | Obj fields => Ok (lookup fields key)
  end.

(** Lines 12-17: the two checks of the constructor.  [!typeof event ===
    "object"] is [(!typeof event) === "object"]. *)
Definition checks (event : jsval) : res unit :=
  if is_string (Bool (negb (truthy (Str (typeof event))))) "object"
     || is_string event "null"
  then Raise (Error "Invalid target.")
  else
    and_then (prop event "target") (fun target =>
    and_then (prop target "files") (fun files =>
    and_then (prop files "0") (fun file =>
    and_then (prop file "type") (fun type =>
    if negb (is_string type "image/png")
    then Raise (Error "Supplied files have to be of type image/png.")
    else Ok tt)))).

(** Lines 45-49 of [#readBlob]: the file that is going to be read. *)
Definition file_to_read (event : jsval) : res jsval :=
  and_then (prop event "target") (fun target =>
  if truthy target then
    and_then (prop target "files") (fun files => prop files "0")
  else Ok event).

(** The constructor up to the read: the checks, then (through
    [#initialize]) the choice of the file. *)
Definition constructor (event : jsval) : res jsval :=
  and_then (checks event) (fun _ => file_to_read event).

End Construct.

(** * Part II: lemmas and properties *)

(** ** Lemmas on the runtime fragments *)

Section ListFacts.
Context {A : Type}.
Implicit Types (l : list A) (k : Z).

Lemma len_app l l' : len (l ++ l') = len l + len l'.
Proof. unfold len. rewrite length_app. lia. Qed.

Lemma len_nonneg l : 0 <= len l.
Proof. unfold len. lia. Qed.

Lemma get_range l k x : get l k = Some x -> 0 <= k < len l.
Proof.
  unfold get, len. destruct (k <? 0) eqn:E; [discriminate|].
  intros H. apply Z.ltb_ge in E.
  assert (Z.to_nat k < length l)%nat by (apply nth_error_Some; congruence).
  lia.
Qed.

Lemma get_defined l k : 0 <= k < len l -> exists x, get l k = Some x.
Proof.
  unfold get, len. intros H.
  destruct (k <? 0) eqn:E; [apply Z.ltb_lt in E; lia|].
  destruct (nth_error l (Z.to_nat k)) eqn:N; [eauto|].
  apply nth_error_None in N. lia.
Qed.

Lemma get_none l k : len l <= k -> get l k = None.
Proof.
  unfold get, len. intros H. destruct (k <? 0); [reflexivity|].
  apply nth_error_None. lia.
Qed.

Lemma get_app_l l l' k x : get l k = Some x -> get (l ++ l') k = Some x.
Proof.
  intros H. pose proof (get_range _ _ _ H) as R. revert H.
  unfold get, len in *. destruct (k <? 0); [discriminate|].
  intros H. rewrite nth_error_app1; [assumption|lia].
Qed.

Lemma get_app_r l l' k : 0 <= k -> get (l ++ l') (len l + k) = get l' k.
Proof.
  intros H. unfold get, len.
  destruct (Z.of_nat (length l) + k <? 0) eqn:E; [apply Z.ltb_lt in E; lia|].
  destruct (k <? 0) eqn:E'; [apply Z.ltb_lt in E'; lia|].
  rewrite nth_error_app2 by lia. f_equal. lia.
Qed.

Lemma get_last l x : get (l ++ [x]) (len l) = Some x.
Proof.
  replace (len l) with (len l + 0) by lia.
  rewrite get_app_r by lia. reflexivity.
Qed.

Lemma get_head l x : get (x :: l) 0 = Some x.
Proof. reflexivity. Qed.

Lemma get_tail l x k : 0 <= k -> get (x :: l) (k + 1) = get l k.
Proof.
  intros H. change (x :: l) with ([x] ++ l).
  replace (k + 1) with (len [x] + k) by (change (len [x]) with 1; lia).
  now apply get_app_r.
Qed.

Lemma get_map {B} (f : A -> B) l k : get (map f l) k = option_map f (get l k).
Proof.
  unfold get. destruct (k <? 0); [reflexivity|]. apply nth_error_map.
Qed.

Lemma len_map {B} (f : A -> B) l : len (map f l) = len l.
Proof. unfold len. now rewrite length_map. Qed.

Lemma store_end l v : store l (len l) v = Ret (l ++ [v]).
Proof.
  unfold store. rewrite Z.ltb_irrefl, andb_false_r, Z.eqb_refl. reflexivity.
Qed.

Lemma store_last l x v : store (l ++ [x]) (len l) v = Ret (l ++ [v]).
Proof.
  unfold store. rewrite len_app.
  assert ((0 <=? len l) = true) as -> by (apply Z.leb_le, len_nonneg).
  assert ((len l <? len l + len [x]) = true) as ->
      by (apply Z.ltb_lt; change (len [x]) with 1; lia).
  cbn [andb]. unfold len. rewrite Nat2Z.id.
  rewrite firstn_app, firstn_all, Nat.sub_diag. cbn [firstn].
  rewrite app_nil_r, skipn_all2 by (rewrite length_app; simpl; lia).
  reflexivity.
Qed.

Lemma slice_length l i : 0 <= i -> (length (slice l i (i + 4)) <= 4)%nat.
Proof.
  intros H. unfold slice.
  destruct (i <? 0) eqn:E; [apply Z.ltb_lt in E; lia|].
  destruct (i + 4 <? 0) eqn:E'; [apply Z.ltb_lt in E'; lia|].
  rewrite length_firstn. lia.
Qed.

Lemma slice_full l i :
  0 <= i -> i + 4 <= len l -> length (slice l i (i + 4)) = 4%nat.
Proof.
  intros H H'. unfold slice.
  destruct (i <? 0) eqn:E; [apply Z.ltb_lt in E; lia|].
  destruct (i + 4 <? 0) eqn:E'; [apply Z.ltb_lt in E'; lia|].
  rewrite length_firstn, length_skipn. unfold len in *. lia.
Qed.

Lemma get_slice l i k x :
  0 <= i -> get (slice l i (i + 4)) k = Some x -> get l (i + k) = Some x.
Proof.
  intros H G. pose proof (get_range _ _ _ G) as R. revert G.
  unfold slice, get, len in *.
  destruct (i <? 0) eqn:E; [apply Z.ltb_lt in E; lia|].
  destruct (i + 4 <? 0) eqn:E'; [apply Z.ltb_lt in E'; lia|].
  destruct (k <? 0) eqn:E1; [discriminate|].
  destruct (i + k <? 0) eqn:E2; [apply Z.ltb_lt in E2; lia|].
  apply Z.ltb_ge in E1.
  rewrite length_firstn, length_skipn in R.
  rewrite nth_error_firstn.
  destruct (Nat.ltb_spec (Z.to_nat k)
              (Z.to_nat (Z.min (i + 4) (Z.of_nat (length l))
                         - Z.min i (Z.of_nat (length l))))); [|discriminate].
  rewrite nth_error_skipn. intros <-. f_equal. lia.
Qed.

End ListFacts.

Lemma get_slice_inv {A} (l : list A) i k x :
  0 <= i -> 0 <= k < 4 -> get l (i + k) = Some x ->
  get (slice l i (i + 4)) k = Some x.
Proof.
  intros Hi Hk G. pose proof (get_range _ _ _ G) as R. revert G.
  unfold slice, get, len in *.
  destruct (i <? 0) eqn:E; [apply Z.ltb_lt in E; lia|].
  destruct (i + 4 <? 0) eqn:E'; [apply Z.ltb_lt in E'; lia|].
  destruct (k <? 0) eqn:E1; [apply Z.ltb_lt in E1; lia|].
  destruct (i + k <? 0) eqn:E2; [apply Z.ltb_lt in E2; lia|].
  rewrite nth_error_firstn.
  destruct (Nat.ltb_spec (Z.to_nat k)
              (Z.to_nat (Z.min (i + 4) (Z.of_nat (length l))
                         - Z.min i (Z.of_nat (length l))))); [|lia].
  rewrite nth_error_skipn. intros <-. f_equal. lia.
Qed.

Lemma get_In {A} (l : list A) k x : get l k = Some x -> In x l.
Proof.
  unfold get. destruct (k <? 0); [discriminate|]. apply nth_error_In.
Qed.

Lemma In_get {A} (l : list A) x : In x l -> exists k, get l k = Some x.
Proof.
  intros H. apply In_nth_error in H as [n H]. exists (Z.of_nat n).
  unfold get. destruct (Z.of_nat n <? 0) eqn:E; [apply Z.ltb_lt in E; lia|].
  now rewrite Nat2Z.id.
Qed.

Lemma slice_Forall (P : Z -> Prop) l i :
  0 <= i -> Forall P l -> Forall P (slice l i (i + 4)).
Proof.
  intros Hi H. apply Forall_forall. intros x Hx.
  apply In_get in Hx as [k Hk]. apply get_slice in Hk; [|assumption].
  apply get_In in Hk. revert x Hk. now apply Forall_forall.
Qed.

Lemma get_snoc_inv {A} (l : list A) x k y :
  get (l ++ [x]) k = Some y -> get l k = Some y \/ (k = len l /\ y = x).
Proof.
  intros H. pose proof (get_range _ _ _ H) as R. rewrite len_app in R.
  change (len [x]) with 1 in R.
  destruct (Z.eq_dec k (len l)) as [->|N].
  - rewrite get_last in H. right. split; congruence.
  - left. destruct (get_defined l k) as [z Hz]; [lia|].
    rewrite (get_app_l _ _ _ _ Hz) in H. congruence.
Qed.

Lemma get_snoc_old {A} (l : list A) x k : k < len l -> get (l ++ [x]) k = get l k.
Proof.
  intros H. destruct (Z.ltb_spec k 0) as [N|N].
  - unfold get. apply Z.ltb_lt in N. now rewrite N.
  - destruct (get_defined l k) as [z Hz]; [lia|].
    rewrite Hz. now apply get_app_l.
Qed.

Lemma get_neg {A} (l : list A) k : k < 0 -> get l k = None.
Proof. intros H. unfold get. apply Z.ltb_lt in H. now rewrite H. Qed.


(** ** The defilterer: invariant of the loop *)

Module DefilterInv.
Import Defilter GridView.

Lemma map_from_pure f g l : forall idx0,
  (forall x idx, idx0 <= idx < idx0 + len l -> f x idx = Ret (g x idx)) ->
  map_from f idx0 l = Ret (pmap_from g idx0 l).
Proof.
  induction l as [|x l IH]; intros idx0 H; [reflexivity|].
  cbn [map_from pmap_from].
  assert (len (x :: l) = len l + 1) as E by (unfold len; simpl length; lia).
  pose proof (len_nonneg l).
  rewrite H by lia. cbn [bind].
  rewrite IH; [reflexivity|]. intros; apply H; lia.
Qed.

Lemma pmap_from_ext g g' l : forall idx0,
  (forall x idx, idx0 <= idx < idx0 + len l -> g x idx = g' x idx) ->
  pmap_from g idx0 l = pmap_from g' idx0 l.
Proof.
  induction l as [|x l IH]; intros idx0 H; [reflexivity|].
  cbn [pmap_from].
  assert (len (x :: l) = len l + 1) as E by (unfold len; simpl length; lia).
  pose proof (len_nonneg l).
  rewrite H by lia. f_equal. apply IH. intros; apply H; lia.
Qed.

Lemma pmap_from_length g l : forall idx0, length (pmap_from g idx0 l) = length l.
Proof. induction l; intros; simpl; auto. Qed.

Lemma get_pmap_from g l : forall idx0 k,
  get (pmap_from g idx0 l) k = option_map (fun x => g x (idx0 + k)) (get l k).
Proof.
  induction l as [|x l IH]; intros idx0 k.
  - unfold get. destruct (k <? 0); [reflexivity|].
    now destruct (Z.to_nat k).
  - cbn [pmap_from].
    destruct (Z.ltb_spec k 0) as [N|N].
    + unfold get. apply Z.ltb_lt in N. now rewrite N.
    + destruct (Z.eq_dec k 0) as [->|NZ].
      * rewrite !get_head. simpl. now rewrite Z.add_0_r.
      * assert (exists k', k = k' + 1 /\ 0 <= k') as (k' & -> & K)
            by (exists (k - 1); lia).
        rewrite !get_tail by assumption. rewrite IH.
        replace (idx0 + 1 + k') with (idx0 + (k' + 1)) by lia. reflexivity.
Qed.


Lemma conc_get a j : 0 <= j -> get (conc a) (j + 1) = option_map Px (get (snd a) j).
Proof. intros H. unfold conc. rewrite get_tail by assumption. apply get_map. Qed.

Lemma paeth_cases a b c : paeth a b c = a \/ paeth a b c = b \/ paeth a b c = c.
Proof.
  unfold paeth.
  destruct ((Z.abs (a + b - c - a) <=? Z.abs (a + b - c - b))
            && (Z.abs (a + b - c - a) <=? Z.abs (a + b - c - c))); auto.
  destruct (Z.abs (a + b - c - b) <=? Z.abs (a + b - c - c)); auto.
Qed.

Lemma rem_byte x : 0 <= x -> byte (Z.rem x 256).
Proof.
  intros H. unfold byte. rewrite Z.rem_mod_nonneg by lia.
  pose proof (Z.mod_pos_bound x 256). lia.
Qed.

Lemma recon_byte fb j x a b c :
  0 <= fb <= 4 -> byte x -> byte a -> byte b -> byte c ->
  byte (recon fb j x a b c).
Proof.
  intros Hfb Hx Ha Hb Hc. unfold byte in *.
  assert (fb = 0 \/ fb = 1 \/ fb = 2 \/ fb = 3 \/ fb = 4) as D by lia.
  destruct D as [->|[->|[->|[->| ->]]]]; cbn [recon].
  - assumption.
  - destruct (j >? 0); [apply rem_byte; lia|assumption].
  - apply rem_byte; lia.
  - apply rem_byte. assert (0 <= (a + b) / 2) by (apply Z.div_pos; lia). lia.
  - apply rem_byte. destruct (paeth_cases a b c) as [->|[->| ->]]; lia.
Qed.

Lemma pmap_from_id l : forall idx0, pmap_from (fun x _ => x) idx0 l = l.
Proof. induction l; intros; simpl; [reflexivity|now rewrite IHl]. Qed.

Lemma pmap_from_Forall (P : Z -> Prop) g l : forall idx0,
  (forall x idx, In x l -> P (g x idx)) -> Forall P (pmap_from g idx0 l).
Proof.
  induction l as [|x l IH]; intros idx0 H; simpl; constructor.
  - apply H; now left.
  - apply IH. intros; apply H; now right.
Qed.






(** *** The fuel is enough, whatever the width *)

Lemma start_line_index array widthBytes i s i1 s1 :
  start_line array widthBytes i s = Ret (i1, s1) -> i <= i1.
Proof.
  unfold start_line. destruct (Z.rem i widthBytes =? 0).
  - destruct (get array i); [|discriminate].
    destruct (store (res s) (lineNum s + 1) [Num z]); cbn [bind];
      [|discriminate].
    intros H. injection H as <- _. lia.
  - intros H. injection H as <- _. lia.
Qed.

Lemma body_index array widthBytes i s i1 s1 :
  body array widthBytes i s = Ret (i1, s1) -> i <= i1.
Proof.
  unfold body.
  destruct (start_line array widthBytes i s) as [[i' s']|] eqn:E; cbn [bind];
    [|discriminate].
  apply start_line_index in E.
  destruct (new_pixel array i' s'); cbn [bind]; [|discriminate].
  destruct (push (res s') (lineNum s') a); cbn [bind]; [|discriminate].
  intros H. injection H as <- _. exact E.
Qed.

Lemma loop_total array widthBytes fuel : forall i s,
  len array - i <= 4 * Z.of_nat fuel -> loop fuel array widthBytes i s <> None.
Proof.
  induction fuel as [|fuel IH]; intros i s H; cbn [loop];
    destruct (Z.ltb_spec i (len array)) as [L|L]; try discriminate; [lia|].
  destruct (body array widthBytes i s) as [[i1 s1]|] eqn:E; [|discriminate].
  apply body_index in E. apply IH. lia.
Qed.

Lemma reverseFiltering_total arrayBuffer widthPixels :
  reverseFiltering arrayBuffer widthPixels <> None.
Proof. unfold reverseFiltering. apply loop_total. unfold len. lia. Qed.

(** *** The invariant *)

Section Loop.
Variable array : list Z.
Variable w : Z.
Hypothesis w_pos : 0 < w.
Local Abbreviation wb := (w * 4 + 1).
Local Abbreviation pos := (GridView.pos w).
Local Abbreviation ag_ok := (GridView.ag_ok array w).
Local Abbreviation ok_fb := (GridView.ok_fb array w).
Local Abbreviation ok_valid := (GridView.ok_valid array w).
Local Abbreviation ok_val := (GridView.ok_val array w).
Local Abbreviation ok_bytes := (GridView.ok_bytes array w).
Local Abbreviation full := (GridView.full w).
Local Abbreviation at_pixel := (GridView.at_pixel array w).
Local Abbreviation top := (GridView.top array w).
Local Abbreviation invalid_scanline := (GridView.invalid_scanline array w).
Local Abbreviation exit_state := (GridView.exit_state array w).

Lemma recon_px_agrees ag ag' r j fb cur :
  agrees ag ag' r j -> recon_px ag' r j fb cur = recon_px ag r j fb cur.
Proof.
  intros H. unfold recon_px. apply pmap_from_ext. intros x idx _.
  unfold nb. rewrite !H by lia. reflexivity.
Qed.

Lemma apx_snoc_old ag x r j : r < len ag -> apx (ag ++ [x]) r j = apx ag r j.
Proof. intros H. unfold apx. now rewrite get_snoc_old. Qed.

Lemma apx_push_old front fb ps p r j :
  r < len front \/ (r = len front /\ j < len ps) ->
  apx (front ++ [(fb, ps ++ [p])]) r j = apx (front ++ [(fb, ps)]) r j.
Proof.
  intros [H|[-> H]]; unfold apx.
  - now rewrite !get_snoc_old.
  - rewrite !get_last. cbn [snd]. now apply get_snoc_old.
Qed.

Lemma ag_ok_nil : ag_ok [].
Proof.
  split; unfold apx; intros; try match goal with
    | H : get [] _ = Some _ |- _ => apply get_range in H; change (len []) with 0 in H; lia
    end.
  destruct (get [] r) eqn:E; [|discriminate].
  apply get_range in E. change (@len arow []) with 0 in E. lia.
Qed.

Lemma ag_ok_new_row ag fb :
  ag_ok ag -> get array (len ag * wb) = Some fb -> ag_ok (ag ++ [(fb, [])]).
Proof.
  intros [Hfb Hvalid Hval Hbytes] G. split.
  - intros r a H. apply get_snoc_inv in H as [H|[-> ->]]; [eauto|exact G].
  - intros r a H. apply get_snoc_inv in H as [H|[-> ->]]; [eauto|].
    intros N. now elim N.
  - intros r a j p H Hp. apply get_snoc_inv in H as [H|[-> ->]].
    + rewrite (Hval _ _ _ _ H Hp) at 1. symmetry. apply recon_px_agrees.
      intros r' j' C. apply apx_snoc_old. apply get_range in H. lia.
    + cbn [snd] in Hp. apply get_range in Hp. change (@len (list Z) []) with 0 in Hp. lia.
  - intros B r j p H. unfold apx in H.
    destruct (get (ag ++ [(fb, [])]) r) as [a|] eqn:E; [|discriminate].
    apply get_snoc_inv in E as [E|[-> ->]].
    + apply (Hbytes B r j). unfold apx. now rewrite E.
    + cbn [snd] in H. apply get_range in H. change (@len (list Z) []) with 0 in H. lia.
Qed.

Lemma ag_ok_push front fb ps p :
  ag_ok (front ++ [(fb, ps)]) ->
  0 <= fb <= 4 ->
  p = recon_px (front ++ [(fb, ps)]) (len front) (len ps) fb
        (slice array (pos (len front) (len ps)) (pos (len front) (len ps) + 4)) ->
  (Forall byte array -> Forall byte p) ->
  ag_ok (front ++ [(fb, ps ++ [p])]).
Proof.
  intros [Hfb Hvalid Hval Hbytes] V Hp Bp.
  pose proof (get_last front (fb, ps)) as L.
  split.
  - intros r a H. apply get_snoc_inv in H as [H|[-> ->]].
    + apply Hfb. now apply get_app_l.
    + apply (Hfb _ _ L).
  - intros r a H. apply get_snoc_inv in H as [H|[-> ->]].
    + apply (Hvalid r). now apply get_app_l.
    + intros _. exact V.
  - intros r a j q H Hq. apply get_snoc_inv in H as [H|[-> ->]].
    + rewrite (Hval r a j q (get_app_l _ _ _ _ H) Hq) at 1.
      symmetry. apply recon_px_agrees. intros r' j' C.
      apply apx_push_old. apply get_range in H. lia.
    + cbn [snd fst] in *. apply get_snoc_inv in Hq as [Hq|[-> ->]].
      * rewrite (Hval _ _ j q L Hq) at 1. cbn [fst].
        symmetry. apply recon_px_agrees. intros r' j' C.
        apply apx_push_old. apply get_range in Hq. lia.
      * rewrite Hp at 1.
        symmetry. apply recon_px_agrees. intros r' j' C.
        apply apx_push_old. lia.
  - intros B r j q H. unfold apx in H.
    destruct (get (front ++ [(fb, ps ++ [p])]) r) as [a|] eqn:E; [|discriminate].
    apply get_snoc_inv in E as [E|[-> ->]].
    + apply (Hbytes B r j). unfold apx. now rewrite (get_app_l _ _ _ _ E).
    + cbn [snd] in H. apply get_snoc_inv in H as [H|[-> ->]].
      * apply (Hbytes B (len front) j). unfold apx. now rewrite L.
      * now apply Bp.
Qed.

Lemma pos_nonneg r j : 0 <= r -> 0 <= j -> 0 <= pos r j.
Proof.
  intros Hr Hj. unfold GridView.pos.
  assert (0 <= r * wb) by (apply Z.mul_nonneg_nonneg; lia). lia.
Qed.

Lemma apx_inv ag r j p :
  apx ag r j = Some p ->
  exists a, get ag r = Some a /\ get (snd a) j = Some p /\ 0 <= r /\ 0 <= j.
Proof.
  unfold apx. destruct (get ag r) as [a|] eqn:E; [|discriminate].
  intros H. exists a. apply get_range in E. pose proof (get_range _ _ _ H).
  repeat split; auto; lia.
Qed.


Lemma px_len4 ag r j p :
  ag_ok ag -> apx ag r j = Some p -> pos r j + 4 <= len array -> len p = 4.
Proof.
  intros Hok H Hle. apply apx_inv in H as (a & Ha & Hp & Hr & Hj).
  rewrite (ok_val _ Hok _ _ _ _ Ha Hp). unfold len, recon_px.
  rewrite pmap_from_length, slice_full; auto using pos_nonneg.
Qed.

Lemma chan_nb ag r j p idx :
  apx ag r j = Some p -> 0 <= idx < len p ->
  chan (Some (Px p)) idx = Ret (nb ag r j idx).
Proof.
  intros H Hidx. unfold chan, nb. rewrite H.
  destruct (get_defined p idx Hidx) as [v ->]. reflexivity.
Qed.

Lemma nb_none ag r j idx : apx ag r j = None -> nb ag r j idx = 0.
Proof. intros H. unfold nb. now rewrite H. Qed.

Lemma nb_byte ag r j idx : ag_ok ag -> Forall byte array -> byte (nb ag r j idx).
Proof.
  intros Hok B. unfold nb. destruct (apx ag r j) as [p|] eqn:E; [|unfold byte; lia].
  destruct (get p idx) as [v|] eqn:G; [|unfold byte; lia].
  pose proof (ok_bytes _ Hok B _ _ _ E) as F.
  apply get_In in G. revert v G. now apply Forall_forall.
Qed.

Lemma push_ok front fb ps p :
  push (map conc (front ++ [(fb, ps)])) (len front) p
  = Ret (map conc (front ++ [(fb, ps ++ [p])])).
Proof.
  unfold push, line. rewrite get_map, get_last. cbn [option_map bind].
  rewrite !map_app. cbn [map]. rewrite <- (len_map conc front).
  rewrite store_last. unfold conc. cbn [fst snd].
  now rewrite map_app.
Qed.

(** Reading the three neighbours in the state [at_pixel]. *)

Lemma cur_line i s front fb ps :
  at_pixel i s front fb ps -> line (res s) (lineNum s) = Ret (conc (fb, ps)).
Proof.
  intros (Hres & Hl & _). unfold line.
  rewrite Hres, Hl, get_map, get_last. reflexivity.
Qed.

Lemma left_read i s front fb ps idx :
  at_pixel i s front fb ps -> i <= len array -> 0 <= idx < 4 ->
  (if pixelCount s >? 0 then chan (get (conc (fb, ps)) (pixelCount s)) idx
   else Ret 0) = Ret (nb (front ++ [(fb, ps)]) (len front) (len ps - 1) idx).
Proof.
  intros (Hres & Hl & Hpc & Hf & Hpos & Hfull & Hok) Hi Hidx.
  rewrite Hpc. pose proof (len_nonneg front). pose proof (len_nonneg ps).
  destruct (Z.gtb_spec (len ps) 0) as [G|G].
  - replace (len ps) with (len ps - 1 + 1) at 1 by lia.
    rewrite conc_get by lia. cbn [snd].
    destruct (get_defined ps (len ps - 1)) as [pl Hpl]; [lia|].
    rewrite Hpl. cbn [option_map].
    assert (apx (front ++ [(fb, ps)]) (len front) (len ps - 1) = Some pl) as Ha
        by (unfold apx; rewrite get_last; exact Hpl).
    apply chan_nb; [exact Ha|].
    rewrite (px_len4 _ _ _ _ Hok Ha); [lia|]. unfold GridView.pos in *. lia.
  - rewrite nb_none; [reflexivity|].
    unfold apx. rewrite get_last. cbn [snd]. apply get_neg. lia.
Qed.

Lemma up_row i s front fb ps :
  at_pixel i s front fb ps -> 0 < len front ->
  exists a, get front (len front - 1) = Some a /\
            get (front ++ [(fb, ps)]) (len front - 1) = Some a /\
            len (snd a) = w /\ line (res s) (lineNum s - 1) = Ret (conc a).
Proof.
  intros (Hres & Hl & Hpc & Hf & Hpos & Hfull & Hok) HK.
  destruct (get_defined front (len front - 1)) as [a Ha]; [lia|].
  exists a. repeat split; auto.
  - now apply get_app_l.
  - apply get_In in Ha. revert a Ha. now apply Forall_forall.
  - unfold line. rewrite Hres, Hl, get_map, (get_app_l _ _ _ _ Ha). reflexivity.
Qed.

Lemma up_read i s front fb ps :
  at_pixel i s front fb ps -> len ps < w -> i <= len array ->
  exists plp,
    (if lineNum s >? 0 then
       up <- line (res s) (lineNum s - 1) ;; Ret (get up (pixelCount s + 1))
     else Ret (Some (Px [0; 0; 0; 0]))) = Ret plp /\
    forall idx, 0 <= idx < 4 ->
      chan plp idx = Ret (nb (front ++ [(fb, ps)]) (len front - 1) (len ps) idx) /\
      (if lineNum s >? 0 then chan plp idx else Ret 0)
      = Ret (nb (front ++ [(fb, ps)]) (len front - 1) (len ps) idx).
Proof.
  intros At Hj Hi.
  pose proof At as (Hres & Hl & Hpc & Hf & Hpos & Hfull & Hok).
  pose proof (len_nonneg front). pose proof (len_nonneg ps).
  destruct (Z.gtb_spec (lineNum s) 0) as [G|G]; rewrite Hl in G.
  - destruct (up_row _ _ _ _ _ At ltac:(lia)) as (a & Ha & Hag & Hw & Hline).
    rewrite Hline, Hpc. cbn [bind]. rewrite conc_get by lia.
    destruct (get_defined (snd a) (len ps)) as [pu Hpu]; [lia|].
    rewrite Hpu. cbn [option_map]. eexists; split; [reflexivity|].
    intros idx Hidx.
    assert (apx (front ++ [(fb, ps)]) (len front - 1) (len ps) = Some pu) as Hu
        by (unfold apx; rewrite Hag; exact Hpu).
    assert (chan (Some (Px pu)) idx
            = Ret (nb (front ++ [(fb, ps)]) (len front - 1) (len ps) idx)) as E.
    { apply chan_nb; [exact Hu|].
      rewrite (px_len4 _ _ _ _ Hok Hu); [lia|]. unfold GridView.pos in *. lia. }
    split; assumption.
  - eexists; split; [reflexivity|]. intros idx Hidx.
    rewrite nb_none by (unfold apx; rewrite get_neg by lia; reflexivity).
    split; [|reflexivity].
    unfold chan. destruct (get_defined [0; 0; 0; 0] idx) as [v Hv];
      [change (@len Z [0; 0; 0; 0]) with 4; lia|].
    rewrite Hv. apply get_In in Hv.
    simpl in Hv. now repeat destruct Hv as [<-|Hv].
Qed.

Lemma upleft_read i s front fb ps idx :
  at_pixel i s front fb ps -> len ps < w -> i <= len array -> 0 <= idx < 4 ->
  (if (pixelCount s >? 0) && (lineNum s >? 0) then
     up <- line (res s) (lineNum s - 1) ;; chan (get up (pixelCount s)) idx
   else Ret 0)
  = Ret (nb (front ++ [(fb, ps)]) (len front - 1) (len ps - 1) idx).
Proof.
  intros At Hj Hi Hidx.
  pose proof At as (Hres & Hl & Hpc & Hf & Hpos & Hfull & Hok).
  pose proof (len_nonneg front). pose proof (len_nonneg ps).
  rewrite Hpc.
  destruct (Z.gtb_spec (len ps) 0) as [G|G]; cbn [andb].
  - destruct (Z.gtb_spec (lineNum s) 0) as [G'|G']; rewrite Hl in G'.
    + destruct (up_row _ _ _ _ _ At ltac:(lia)) as (a & Ha & Hag & Hw & Hline).
      rewrite Hline. cbn [bind].
      replace (len ps) with (len ps - 1 + 1) at 1 by lia. rewrite conc_get by lia.
      destruct (get_defined (snd a) (len ps - 1)) as [pc Hpc']; [lia|].
      rewrite Hpc'. cbn [option_map].
      assert (apx (front ++ [(fb, ps)]) (len front - 1) (len ps - 1) = Some pc)
        as Hu by (unfold apx; rewrite Hag; exact Hpc').
      apply chan_nb; [exact Hu|].
      rewrite (px_len4 _ _ _ _ Hok Hu); [lia|]. unfold GridView.pos in *. lia.
    + rewrite nb_none; [reflexivity|].
      unfold apx. rewrite get_neg by lia. reflexivity.
  - rewrite nb_none; [reflexivity|].
    unfold apx. destruct (get (front ++ [(fb, ps)]) (len front - 1)); [|reflexivity].
    apply get_neg. lia.
Qed.

Lemma new_pixel_ok i s front fb ps :
  at_pixel i s front fb ps -> len ps < w -> i <= len array ->
  0 <= fb <= 4 ->
  new_pixel array i s
  = Ret (recon_px (front ++ [(fb, ps)]) (len front) (len ps) fb
           (slice array i (i + 4))).
Proof.
  intros At Hj Hi V.
  pose proof At as (Hres & Hl & Hpc & Hf & Hpos & Hfull & Hok).
  pose proof (len_nonneg front). pose proof (len_nonneg ps).
  assert (0 <= i) as Hi0 by (rewrite Hpos; now apply pos_nonneg).
  assert (len (slice array i (i + 4)) <= 4) as Hcur
      by (pose proof (slice_length array i Hi0); unfold len; lia).
  unfold new_pixel. rewrite (cur_line _ _ _ _ _ At). cbn [bind].
  destruct (up_read _ _ _ _ _ At Hj Hi) as (plp & -> & Hplp). cbn [bind].
  rewrite Hf.
  pose proof (fun idx H => left_read _ _ _ _ _ idx At Hi H) as HL.
  pose proof (fun idx H => upleft_read _ _ _ _ _ idx At Hj Hi H) as HC.
  unfold recon_px.
  remember (nb (front ++ [(fb, ps)]) (len front) (len ps - 1)) as na.
  remember (nb (front ++ [(fb, ps)]) (len front - 1) (len ps)) as nb_.
  remember (nb (front ++ [(fb, ps)]) (len front - 1) (len ps - 1)) as nc.
  remember (get (conc (fb, ps)) (pixelCount s)) as prevPixel.
  clear - V Hcur Hplp HL HC Hpc.
  assert (fb = 0 \/ fb = 1 \/ fb = 2 \/ fb = 3 \/ fb = 4) as D by lia.
  destruct D as [->|[->|[->|[->| ->]]]]; cbn [recon].
  - now rewrite pmap_from_id.
  - destruct (pixelCount s >? 0) eqn:E.
    + rewrite <- Hpc, E. apply map_from_pure. intros x idx Hidx.
      rewrite (HL idx ltac:(lia)). reflexivity.
    + rewrite <- Hpc, E. now rewrite pmap_from_id.
  - apply map_from_pure. intros x idx Hidx.
    destruct (Hplp idx ltac:(lia)) as [-> _]. reflexivity.
  - apply map_from_pure. intros x idx Hidx.
    rewrite (HL idx ltac:(lia)).
    destruct (Hplp idx ltac:(lia)) as [_ ->]. reflexivity.
  - apply map_from_pure. intros x idx Hidx.
    rewrite (HL idx ltac:(lia)).
    destruct (Hplp idx ltac:(lia)) as [_ ->].
    rewrite (HC idx ltac:(lia)). reflexivity.
Qed.

Lemma new_pixel_bad i s front fb ps :
  at_pixel i s front fb ps -> len ps < w -> i <= len array ->
  ~ 0 <= fb <= 4 ->
  new_pixel array i s = Throw (Err UnsupportedFilterByte).
Proof.
  intros At Hj Hi V.
  pose proof At as (Hres & Hl & Hpc & Hf & Hpos & Hfull & Hok).
  unfold new_pixel. rewrite (cur_line _ _ _ _ _ At). cbn [bind].
  destruct (up_read _ _ _ _ _ At Hj Hi) as (plp & -> & _). cbn [bind].
  rewrite Hf. clear - V.
  destruct fb as [|q|q]; [lia| |reflexivity].
  destruct q as [[q|q|]|[q|[q|q|]|]|]; try reflexivity; lia.
Qed.

(** The state after the pixel has been pushed. *)
Lemma pushed i s front fb ps p :
  at_pixel i s front fb ps ->
  0 <= fb <= 4 ->
  p = recon_px (front ++ [(fb, ps)]) (len front) (len ps) fb
        (slice array i (i + 4)) ->
  exists res',
    push (res s) (lineNum s) p = Ret res' /\
    at_pixel (i + 4) (mkState res' (lineNum s) (pixelCount s + 1) (filterByte s))
             front fb (ps ++ [p]).
Proof.
  intros At V Hp.
  pose proof At as (Hres & Hl & Hpc & Hf & Hpos & Hfull & Hok).
  pose proof (len_nonneg front). pose proof (len_nonneg ps).
  eexists. split; [rewrite Hres, Hl; apply push_ok|].
  unfold GridView.at_pixel. cbn [res lineNum pixelCount filterByte].
  rewrite len_app. change (len [p]) with 1.
  refine (conj eq_refl (conj Hl (conj _ (conj Hf (conj _ (conj Hfull _)))))).
  - congruence.
  - unfold GridView.pos in *. lia.
  - apply ag_ok_push; auto.
    + now rewrite <- Hpos.
    + intros B. rewrite Hp. apply pmap_from_Forall. intros x idx Hx.
      apply recon_byte; auto using nb_byte.
      assert (Forall byte (slice array i (i + 4))) as F.
      { apply slice_Forall; [|assumption]. rewrite Hpos. now apply pos_nonneg. }
      revert x Hx. now apply Forall_forall.
Qed.

(** *** One iteration *)

Lemma new_row ag i s :
  ag_ok ag -> Forall full ag ->
  res s = map conc ag -> lineNum s = len ag - 1 ->
  i = len ag * wb -> i < len array ->
  exists fb s1,
    start_line array wb i s = Ret (i + 1, s1) /\ at_pixel (i + 1) s1 ag fb [].
Proof.
  intros Hok Hfull Hres Hl Hi Hlt. pose proof (len_nonneg ag).
  assert (0 <= i) as Hi0 by (rewrite Hi; apply Z.mul_nonneg_nonneg; lia).
  destruct (get_defined array i) as [fb Hfb]; [lia|].
  assert (Z.rem i wb = 0) as R by (rewrite Hi; apply Z.rem_mul; lia).
  unfold start_line. rewrite R. cbn [Z.eqb]. rewrite Hfb, Hres.
  replace (lineNum s + 1) with (len (map conc ag)) by (rewrite len_map; lia).
  rewrite store_end. cbn [bind]. do 2 eexists. split; [reflexivity|].
  unfold GridView.at_pixel. cbn [res lineNum pixelCount filterByte].
  refine (conj _ (conj (len_map _ _) (conj eq_refl (conj eq_refl
           (conj _ (conj Hfull _)))))).
  - now rewrite map_app.
  - unfold GridView.pos. change (@len (list Z) []) with 0. lia.
  - apply ag_ok_new_row; [assumption|]. now rewrite <- Hi.
Qed.

Lemma mid_row_rem k j : 0 <= k -> 1 <= j < w -> Z.rem (pos k j) wb <> 0.
Proof.
  intros Hk Hj. unfold GridView.pos.
  assert (0 <= k * wb) by (apply Z.mul_nonneg_nonneg; lia).
  rewrite Z.rem_mod_nonneg by lia.
  replace (k * wb + 1 + 4 * j) with (1 + 4 * j + k * wb) by lia.
  rewrite Z_mod_plus_full, Z.mod_small; lia.
Qed.

Lemma top_step i s :
  top i s -> i < len array ->
  exists i1 s1 front fb ps,
    start_line array wb i s = Ret (i1, s1) /\
    at_pixel i1 s1 front fb ps /\ len ps < w /\ i <= i1 <= len array.
Proof.
  intros [[-> ->]|(front & fb & ps & At & Hps)] Hlt.
  - destruct (new_row [] 0 initial) as (fb & s1 & E & At);
      auto using ag_ok_nil.
    exists 1, s1, [], fb, []. change (@len (list Z) []) with 0.
    split; [exact E|]. split; [exact At|]. lia.
  - pose proof At as (Hres & Hl & Hpc & Hf & Hpos & Hfull & Hok).
    pose proof (len_nonneg front).
    destruct (Z.eq_dec (len ps) w) as [E|N].
    + destruct (new_row (front ++ [(fb, ps)]) i s) as (fb' & s1 & E' & At'); auto.
      * apply Forall_app. split; [assumption|]. now repeat constructor.
      * rewrite len_app. change (len [(fb, ps)]) with 1. lia.
      * rewrite len_app. change (len [(fb, ps)]) with 1.
        unfold GridView.pos in Hpos. lia.
      * exists (i + 1), s1, (front ++ [(fb, ps)]), fb', [].
        change (@len (list Z) []) with 0.
        split; [exact E'|]. split; [exact At'|]. lia.
    + exists i, s, front, fb, ps.
      split; [|split; [exact At|lia]].
      unfold start_line.
      destruct (Z.eqb_spec (Z.rem i wb) 0) as [Z|_]; [|reflexivity].
      exfalso. rewrite Hpos in Z. revert Z. apply mid_row_rem; lia.
Qed.

Lemma body_step i s :
  top i s -> i < len array ->
  (exists i1 s', body array wb i s = Ret (i1, s') /\ i <= i1 /\ top (i1 + 4) s')
  \/ (body array wb i s = Throw (Err UnsupportedFilterByte) /\ invalid_scanline).
Proof.
  intros T Hlt.
  destruct (top_step i s T Hlt) as (i1 & s1 & front & fb & ps & E & At & Hps & Hi).
  unfold body. rewrite E. cbn [bind].
  pose proof (len_nonneg ps).
  assert (0 <= fb <= 4 \/ ~ 0 <= fb <= 4) as [V|V] by lia.
  - left. rewrite (new_pixel_ok _ _ _ _ _ At) by (auto; lia). cbn [bind].
    destruct (pushed _ _ _ _ _ _ At V eq_refl) as (res' & -> & At').
    cbn [bind]. do 2 eexists. split; [reflexivity|]. split; [lia|].
    right. do 3 eexists. split; [exact At'|].
    rewrite len_app. change (len [recon_px (front ++ [(fb, ps)]) (len front)
      (len ps) fb (slice array i1 (i1 + 4))]) with 1. lia.
  - right. rewrite (new_pixel_bad _ _ _ _ _ At) by (auto; lia).
    split; [reflexivity|].
    destruct At as (_ & _ & _ & _ & _ & _ & Hok).
    exists (len front), fb. split; [apply len_nonneg|]. split; [|assumption].
    apply (ok_fb _ Hok _ _ (get_last front (fb, ps))).
Qed.

(** *** The whole loop *)

Lemma top_exit i s :
  top i s -> len array <= i -> exists ag, res s = map conc ag /\ exit_state ag.
Proof.
  intros [[-> ->]|(front & fb & ps & At & Hps)] Hle.
  - exists []. split; [reflexivity|]. split; [apply ag_ok_nil|].
    left. pose proof (len_nonneg array). split; [reflexivity|lia].
  - destruct At as (Hres & Hl & Hpc & Hf & Hpos & Hfull & Hok).
    exists (front ++ [(fb, ps)]). split; [assumption|]. split; [assumption|].
    right. exists front, fb, ps.
    split; [reflexivity|]. split; [assumption|]. lia.
Qed.

Lemma loop_run fuel : forall i s,
  top i s -> len array - i <= 4 * Z.of_nat fuel ->
  (exists ag, loop fuel array wb i s = Some (Ret (map conc ag)) /\ exit_state ag)
  \/ (loop fuel array wb i s = Some (Throw (Err UnsupportedFilterByte))
      /\ invalid_scanline).
Proof.
  induction fuel as [|fuel IH]; intros i s T Hfuel.
  - left. cbn [loop]. destruct (Z.ltb_spec i (len array)) as [L|L]; [lia|].
    destruct (top_exit i s T L) as (ag & -> & Hex). eauto.
  - cbn [loop]. destruct (Z.ltb_spec i (len array)) as [L|L].
    + destruct (body_step i s T L) as [(i1 & s' & -> & Hi & T')|[-> Hbad]].
      * apply IH; [assumption|lia].
      * now right.
    + left. destruct (top_exit i s T L) as (ag & -> & Hex). eauto.
Qed.

Lemma reverseFiltering_run :
  (exists ag, reverseFiltering array w = Some (Ret (map conc ag)) /\ exit_state ag)
  \/ (reverseFiltering array w = Some (Throw (Err UnsupportedFilterByte))
      /\ invalid_scanline).
Proof.
  unfold reverseFiltering. apply loop_run.
  - left. split; reflexivity.
  - unfold len. lia.
Qed.

(** *** What the final grid holds *)

Lemma row_le r k : 0 < wb -> r * wb < (k + 1) * wb -> r <= k.
Proof.
  intros Hwb H. apply Z.mul_lt_mono_pos_r in H; lia.
Qed.

Lemma exit_row ag r :
  exit_state ag -> 0 <= r -> r * wb < len array ->
  exists a, get ag r = Some a.
Proof.
  intros [Hok [[-> E]|(front & fb & ps & -> & Hfull & Hps & Hle)]] Hr Hlt.
  - assert (0 <= r * wb) by (apply Z.mul_nonneg_nonneg; lia). lia.
  - apply get_defined. rewrite len_app. change (len [(fb, ps)]) with 1.
    split; [assumption|].
    assert (r <= len front); [|lia].
    apply row_le; [lia|]. unfold GridView.pos in Hle. lia.
Qed.

Lemma exit_row_len ag r a :
  exit_state ag -> get ag r = Some a ->
  1 <= len (snd a) <= w /\ (r < len ag - 1 -> len (snd a) = w).
Proof.
  intros [Hok [[-> E]|(front & fb & ps & -> & Hfull & Hps & Hle)]] H.
  - apply get_range in H. change (@len arow []) with 0 in H. lia.
  - rewrite len_app. change (len [(fb, ps)]) with 1.
    apply get_snoc_inv in H as [H|[-> ->]].
    + assert (full a) as F
          by (apply get_In in H; revert a H; now apply Forall_forall).
      unfold GridView.full in F. lia.
    + cbn [snd]. lia.
Qed.

Lemma exit_pixel ag r j idx :
  exit_state ag -> 0 <= r -> 0 <= j < w -> 0 <= idx ->
  pos r j + idx < len array ->
  exists a p, get ag r = Some a /\ get (snd a) j = Some p.
Proof.
  intros Hex Hr Hj Hidx Hlt.
  assert (0 <= r * wb) by (apply Z.mul_nonneg_nonneg; lia).
  destruct (exit_row ag r Hex Hr) as [a Ha]; [unfold GridView.pos in Hlt; lia|].
  exists a. destruct (exit_row_len ag r a Hex Ha) as [L1 L2].
  destruct (get_defined (snd a) j) as [p Hp]; [|eauto].
  split; [lia|].
  destruct Hex as [Hok [[-> E]|(front & fb & ps & -> & Hfull & Hps & Hle)]].
  - unfold GridView.pos in Hlt. lia.
  - rewrite len_app in L2. change (len [(fb, ps)]) with 1 in L2.
    pose proof (get_range _ _ _ Ha) as R. rewrite len_app in R.
    change (len [(fb, ps)]) with 1 in R.
    destruct (Z.eq_dec r (len front)) as [->|N]; [|lia].
    rewrite get_last in Ha. injection Ha as <-. cbn [snd].
    unfold GridView.pos in *. lia.
Qed.

(** Channel [idx] of pixel [j] of row [r] in the final grid. *)
Lemma exit_channel ag r j idx x :
  exit_state ag -> 0 <= r -> 0 <= j < w -> 0 <= idx < 4 ->
  get array (pos r j + idx) = Some x ->
  exists a p,
    get ag r = Some a /\ get (snd a) j = Some p /\
    get array (r * wb) = Some (fst a) /\
    get p idx = Some (recon (fst a) j x (nb ag r (j - 1) idx)
                        (nb ag (r - 1) j idx) (nb ag (r - 1) (j - 1) idx)).
Proof.
  intros Hex Hr Hj Hidx Hx. pose proof (get_range _ _ _ Hx) as R.
  destruct (exit_pixel ag r j idx Hex) as (a & p & Ha & Hp); try lia.
  exists a, p. destruct Hex as [Hok _].
  repeat split; auto.
  - apply (ok_fb _ Hok _ _ Ha).
  - rewrite (ok_val _ Hok _ _ _ _ Ha Hp) at 1. unfold recon_px.
    rewrite get_pmap_from, (get_slice_inv array (pos r j) idx x);
      auto; apply pos_nonneg; lia.
Qed.

Lemma exit_nb ag r j idx :
  exit_state ag -> 0 <= r -> 0 <= j < w -> 0 <= idx < 4 ->
  pos r j + idx < len array ->
  exists p, apx ag r j = Some p /\ get p idx = Some (nb ag r j idx).
Proof.
  intros Hex Hr Hj Hidx Hlt.
  assert (0 <= pos r j) by (apply pos_nonneg; lia).
  destruct (get_defined array (pos r j + idx)) as [x Hx]; [lia|].
  destruct (exit_channel ag r j idx x Hex) as (a & p & Ha & Hp & _ & Hv); auto.
  exists p. unfold nb, apx. rewrite Ha, Hp, Hv. auto.
Qed.

Lemma exit_valid ag r fb :
  exit_state ag -> 0 <= r -> get array (r * wb) = Some fb -> 0 <= fb <= 4.
Proof.
  intros Hex Hr Hfb. pose proof (get_range _ _ _ Hfb) as R.
  destruct (exit_row ag r Hex Hr) as [a Ha]; [lia|].
  destruct (exit_row_len ag r a Hex Ha) as [L _].
  destruct Hex as [Hok _].
  pose proof (ok_fb _ Hok _ _ Ha) as E. rewrite Hfb in E. injection E as ->.
  apply (ok_valid _ Hok _ _ Ha). intros N. rewrite N in L.
  change (@len (list Z) []) with 0 in L. lia.
Qed.

Lemma pixel_conc ag r j : 0 <= j -> pixel (map conc ag) r j = apx ag r j.
Proof.
  intros Hj. unfold pixel, apx. rewrite get_map.
  destruct (get ag r) as [a|]; [|reflexivity]. cbn [option_map].
  rewrite conc_get by assumption. now destruct (get (snd a) j).
Qed.

Lemma neighbour_exit ag r j idx :
  exit_state ag ->
  r < 0 \/ j < 0 \/ (j < w /\ 0 <= idx < 4 /\ pos r j + idx < len array) ->
  neighbour (map conc ag) r j idx = Some (nb ag r j idx).
Proof.
  intros Hex C. unfold neighbour.
  destruct (Z.ltb_spec r 0) as [Hr|Hr]; cbn [orb].
  - rewrite nb_none; [reflexivity|]. unfold apx. now rewrite get_neg.
  - destruct (Z.ltb_spec j 0) as [Hj|Hj].
    + rewrite nb_none; [reflexivity|]. unfold apx.
      destruct (get ag r); [now apply get_neg|reflexivity].
    + destruct C as [C|[C|(Hw & Hidx & Hlt)]]; try lia.
      unfold channel. rewrite pixel_conc by assumption.
      destruct (exit_nb ag r j idx Hex) as (p & -> & Hp); auto; lia.
Qed.

Lemma channel_exit ag r j idx x :
  exit_state ag -> 0 <= r -> 0 <= j < w -> 0 <= idx < 4 ->
  get array (pos r j + idx) = Some x ->
  exists fb,
    get array (r * wb) = Some fb /\
    channel (map conc ag) r j idx
    = Some (recon fb j x (nb ag r (j - 1) idx) (nb ag (r - 1) j idx)
              (nb ag (r - 1) (j - 1) idx)).
Proof.
  intros Hex Hr Hj Hidx Hx.
  destruct (exit_channel ag r j idx x Hex) as (a & p & Ha & Hp & Hfb & Hv); auto.
  exists (fst a). split; [assumption|].
  unfold channel. rewrite pixel_conc by lia. unfold apx. now rewrite Ha, Hp.
Qed.

(** With a whole number of scanlines, the grid has that many full rows. *)
Lemma exit_framed ag h :
  exit_state ag -> 0 < h -> len array = h * wb ->
  len ag = h /\ Forall full ag.
Proof.
  intros [Hok [[-> E]|(front & fb & ps & -> & Hfull & Hps & Hle)]] Hh Hlen.
  - assert (0 < h * wb) by (apply Z.mul_pos_pos; lia). lia.
  - pose proof (ok_fb _ Hok _ _ (get_last front (fb, ps))) as G.
    apply get_range in G. rewrite Hlen in G, Hle.
    pose proof (len_nonneg front).
    assert (len front < h) by (apply (Z.mul_lt_mono_pos_r wb); lia).
    assert (h <= len front + 1).
    { apply (Z.mul_le_mono_pos_r _ _ wb); [lia|]. unfold GridView.pos in Hle. lia. }
    assert (len front = h - 1) as EK by lia.
    assert (len ps = w) as EJ.
    { unfold GridView.pos in Hle. rewrite EK in Hle. lia. }
    rewrite len_app. change (len [(fb, ps)]) with 1. split; [lia|].
    apply Forall_app. split; [assumption|]. now repeat constructor.
Qed.

End Loop.

End DefilterInv.

(** ** ScanlineDefilterer: the properties of the specification *)

Module DefilterSpec.
Import Defilter GridView DefilterInv.

(** The five filters on a payload of three scanlines of two pixels. *)
Example defilter_all_filters :
  reverseFiltering
    [1; 10; 20; 30; 255; 40; 50; 60; 255;
     3; 1; 2; 3; 4; 5; 6; 7; 8;
     4; 9; 9; 9; 9; 200; 200; 200; 200] 2
  = Some (Ret [[Num 1; Px [10; 20; 30; 255]; Px [50; 70; 90; 254]];
               [Num 3; Px [6; 12; 18; 131]; Px [33; 47; 61; 200]];
               [Num 4; Px [15; 21; 27; 140]; Px [233; 247; 5; 144]]]).
Proof. reflexivity. Qed.

(** A payload that stops inside a scanline still gives a grid: the last
    pixel group is short. *)
Example defilter_short_payload :
  reverseFiltering [0; 1; 2; 3; 4; 5; 6] 2
  = Some (Ret [[Num 0; Px [1; 2; 3; 4]; Px [5; 6]]]).
Proof. reflexivity. Qed.

(** C4. A scanline whose first byte is outside 0..4 makes [reverseFiltering]
    throw "Unexpected filter byte." and return no grid at all; when every
    scanline's first byte is in 0..4 it returns a grid. *)
Theorem unsupported_filter_byte (array : list Z) (w : Z) :
  0 < w ->
  ((exists r fb, 0 <= r /\ get array (r * (w * 4 + 1)) = Some fb /\ ~ 0 <= fb <= 4) ->
   reverseFiltering array w = Some (Throw (Err UnsupportedFilterByte)))
  /\
  ((forall r fb, 0 <= r -> get array (r * (w * 4 + 1)) = Some fb -> 0 <= fb <= 4) ->
   exists g, reverseFiltering array w = Some (Ret g)).
Proof.
  intros Hw. split.
  - intros (r & fb & Hr & Hfb & Hbad).
    destruct (reverseFiltering_run array w Hw) as [(ag & _ & Hex)|[E _]];
      [|exact E].
    elim Hbad. exact (exit_valid array w Hw ag r fb Hex Hr Hfb).
  - intros Hall.
    destruct (reverseFiltering_run array w Hw)
      as [(ag & E & _)|[_ (r & fb & Hr & Hfb & Hbad)]]; [eauto|].
    elim Hbad. exact (Hall r fb Hr Hfb).
Qed.

(** On a payload of two scanlines of one pixel, the second starting with 9. *)
Lemma unsupported_filter_byte_witness :
  reverseFiltering [0; 1; 2; 3; 4; 9; 5; 6; 7; 8] 1
  = Some (Throw (Err UnsupportedFilterByte)).
Proof.
  apply (proj1 (unsupported_filter_byte [0; 1; 2; 3; 4; 9; 5; 6; 7; 8] 1 ltac:(lia))).
  exists 1, 9. split; [lia|]. split; [reflexivity|lia].
Defined.

(** C3. For a payload of [h] whole scanlines of [1 + 4 * w] bytes whose
    filter bytes are all in 0..4, the grid has [h] rows, every row has
    [1 + w] entries (the filter byte, then the pixel groups) and every
    channel value lies in 0..255. *)
Theorem grid_shape (array : list Z) (w h : Z) :
  0 < w -> 0 < h ->
  len array = h * (w * 4 + 1) ->
  Forall byte array ->
  (forall r, 0 <= r < h ->
     exists fb, get array (r * (w * 4 + 1)) = Some fb /\ 0 <= fb <= 4) ->
  exists g,
    reverseFiltering array w = Some (Ret g) /\
    len g = h /\
    forall l, In l g ->
      len l = 1 + w /\
      exists fb ps,
        l = Num fb :: map Px ps /\
        forall p c, In p ps -> In c p -> 0 <= c <= 255.
Proof.
  intros Hw Hh Hlen Hbytes Hfbs.
  destruct (reverseFiltering_run array w Hw)
    as [(ag & E & Hex)|[_ (r & fb & Hr & Hfb & Hbad)]].
  - exists (map conc ag). split; [exact E|].
    destruct (exit_framed array w Hw ag h Hex Hh Hlen) as [Hrows Hfull].
    rewrite len_map. split; [exact Hrows|].
    intros l Hl. apply in_map_iff in Hl as (a & <- & Ha).
    assert (full w a) as Fa by (revert a Ha; now apply Forall_forall).
    split.
    + unfold conc, len. cbn [length]. rewrite length_map.
      unfold full, len in Fa. lia.
    + exists (fst a), (snd a). split; [reflexivity|].
      intros p c Hp Hc. destruct Hex as [Hok _].
      apply In_get in Ha as [r Hr]. apply In_get in Hp as [j Hj].
      assert (apx ag r j = Some p) as Hapx by (unfold apx; now rewrite Hr).
      pose proof (ok_bytes _ _ _ Hok Hbytes _ _ _ Hapx) as F.
      revert c Hc. now apply Forall_forall.
  - exfalso. apply Hbad. pose proof (get_range _ _ _ Hfb) as R.
    rewrite Hlen in R.
    assert (r < h) by (apply (Z.mul_lt_mono_pos_r (w * 4 + 1)); lia).
    destruct (Hfbs r ltac:(lia)) as (fb' & Hfb' & V). congruence.
Qed.

(** On a payload of two scanlines of one pixel. *)
Lemma grid_shape_witness :
  exists g,
    reverseFiltering [4; 10; 20; 30; 255; 2; 7; 8; 9; 250] 1 = Some (Ret g) /\
    len g = 2 /\
    forall l, In l g ->
      len l = 1 + 1 /\
      exists fb ps,
        l = Num fb :: map Px ps /\
        forall p c, In p ps -> In c p -> 0 <= c <= 255.
Proof.
  apply (grid_shape [4; 10; 20; 30; 255; 2; 7; 8; 9; 250] 1 2);
    [lia | lia | reflexivity | | ].
  - repeat constructor; unfold byte; lia.
  - intros r Hr. assert (r = 0 \/ r = 1) as [-> | ->] by lia.
    + exists 4. split; [reflexivity|lia].
    + exists 2. split; [reflexivity|lia].
Defined.

(** C2. When every scanline's filter byte is 0, defiltering leaves the pixel
    bytes as they are: every row of the grid is the byte 0 followed by the
    4-byte groups of its scanline, and each byte of the payload is found
    unchanged at its place in the grid.  The one-row payload of the
    specification is the example. *)
Theorem filter_none_identity :
  (forall (array : list Z) (w : Z),
     0 < w ->
     (forall r fb, 0 <= r -> get array (r * (w * 4 + 1)) = Some fb -> fb = 0) ->
     exists g,
       reverseFiltering array w = Some (Ret g) /\
       (forall r, 0 <= r -> r * (w * 4 + 1) < len array ->
          exists l, get g r = Some l) /\
       (forall r l, get g r = Some l ->
          exists ps,
            l = Num 0 :: map Px ps /\
            forall j p, get ps j = Some p ->
              p = slice array (r * (w * 4 + 1) + 1 + 4 * j)
                              (r * (w * 4 + 1) + 1 + 4 * j + 4)) /\
       (forall r j idx x,
          0 <= r -> 0 <= j < w -> 0 <= idx < 4 ->
          get array (r * (w * 4 + 1) + 1 + 4 * j + idx) = Some x ->
          channel g r j idx = Some x))
  /\
  reverseFiltering [0; 10; 20; 30; 255; 40; 50; 60; 255] 2
  = Some (Ret [[Num 0; Px [10; 20; 30; 255]; Px [40; 50; 60; 255]]]).
Proof.
  split; [|reflexivity].
  intros array w Hw Hzero.
  destruct (reverseFiltering_run array w Hw)
    as [(ag & E & Hex)|[_ (r & fb & Hr & Hfb & Hbad)]].
  - exists (map conc ag). split; [exact E|]. split; [|split].
    + intros r Hr Hlt. destruct (exit_row array w Hw ag r Hex Hr Hlt) as [a Ha].
      exists (conc a). now rewrite get_map, Ha.
    + intros r l Hl. rewrite get_map in Hl.
      destruct (get ag r) as [a|] eqn:Ha; [|discriminate].
      injection Hl as <-. pose proof (get_range _ _ _ Ha) as R.
      destruct Hex as [Hok _].
      pose proof (ok_fb _ _ _ Hok _ _ Ha) as Hfb.
      apply Hzero in Hfb; [|lia].
      exists (snd a). unfold conc. rewrite Hfb. split; [reflexivity|].
      intros j p Hp. rewrite (ok_val _ _ _ Hok _ _ _ _ Ha Hp) at 1.
      rewrite Hfb. unfold recon_px. cbn [recon]. apply pmap_from_id.
    + intros r j idx x Hr Hj Hidx Hx.
      destruct (channel_exit array w Hw ag r j idx x Hex Hr Hj Hidx Hx)
        as (fb & Hfb & ->).
      now rewrite (Hzero r fb Hr Hfb).
  - elim Hbad. rewrite (Hzero r fb Hr Hfb). lia.
Qed.

(** On a payload of two scanlines of one pixel, both with filter byte 0. *)
Lemma filter_none_identity_witness :
  exists g,
    reverseFiltering [0; 1; 2; 3; 4; 0; 5; 6; 7; 8] 1 = Some (Ret g) /\
    channel g 1 0 2 = Some 7.
Proof.
  destruct (proj1 filter_none_identity [0; 1; 2; 3; 4; 0; 5; 6; 7; 8] 1)
    as (g & E & _ & _ & H).
  - lia.
  - intros r fb Hr G. pose proof (get_range _ _ _ G) as R.
    change (len [0; 1; 2; 3; 4; 0; 5; 6; 7; 8]) with 10 in R.
    assert (r = 0 \/ r = 1) as [-> | ->] by lia; cbv in G; congruence.
  - exists g. split; [exact E|]. apply H; try lia. reflexivity.
Defined.

(** C1. In a row whose filter byte is 4 (Paeth), every output channel is
    [(x + pr) mod 256], where [pr] is chosen among the left neighbour [a],
    the neighbour above [b] and the one above-left [c] (0 beyond the first
    row or column): with [p = a + b - c], [pa = |p - a|], [pb = |p - b|],
    [pc = |p - c|], it is [a] if [pa <= pb] and [pa <= pc], else [b] if
    [pb <= pc], else [c].  When [pa = pb = pc] it is [a]. *)
Theorem paeth_reconstruction (array : list Z) (w : Z) :
  0 < w ->
  Forall byte array ->
  (forall r fb, 0 <= r -> get array (r * (w * 4 + 1)) = Some fb -> 0 <= fb <= 4) ->
  exists g,
    reverseFiltering array w = Some (Ret g) /\
    forall r j idx x,
      0 <= r -> 0 <= j < w -> 0 <= idx < 4 ->
      get array (r * (w * 4 + 1)) = Some 4 ->
      get array (r * (w * 4 + 1) + 1 + 4 * j + idx) = Some x ->
      exists a b c,
        neighbour g r (j - 1) idx = Some a /\
        neighbour g (r - 1) j idx = Some b /\
        neighbour g (r - 1) (j - 1) idx = Some c /\
        let p := a + b - c in
        let pa := Z.abs (p - a) in
        let pb := Z.abs (p - b) in
        let pc := Z.abs (p - c) in
        let pr := if (pa <=? pb) && (pa <=? pc) then a
                  else if pb <=? pc then b else c in
        channel g r j idx = Some ((x + pr) mod 256) /\
        (pa = pb -> pb = pc -> channel g r j idx = Some ((x + a) mod 256)).
Proof.
  intros Hw Hbytes Hvalid.
  destruct (reverseFiltering_run array w Hw)
    as [(ag & E & Hex)|[_ (r & fb & Hr & Hfb & Hbad)]];
    [|elim Hbad; exact (Hvalid r fb Hr Hfb)].
  exists (map conc ag). split; [exact E|].
  intros r j idx x Hr Hj Hidx Hfb Hx.
  pose proof (get_range _ _ _ Hx) as R.
  exists (nb ag r (j - 1) idx), (nb ag (r - 1) j idx),
         (nb ag (r - 1) (j - 1) idx).
  assert (0 <= r * (w * 4 + 1)) by (apply Z.mul_nonneg_nonneg; lia).
  repeat split.
  - apply (neighbour_exit array w Hw); [assumption|].
    destruct (Z.eq_dec j 0); [lia|]. right; right. unfold pos. lia.
  - apply (neighbour_exit array w Hw); [assumption|].
    destruct (Z.eq_dec r 0); [lia|]. right; right. unfold pos. lia.
  - apply (neighbour_exit array w Hw); [assumption|].
    destruct (Z.eq_dec r 0); [lia|]. destruct (Z.eq_dec j 0); [lia|].
    right; right. unfold pos. lia.
  - destruct (channel_exit array w Hw ag r j idx x Hex Hr Hj Hidx Hx)
      as (fb & Hfb' & ->).
    rewrite Hfb in Hfb'. injection Hfb' as <-. cbn [recon].
    destruct Hex as [Hok _].
    pose proof (nb_byte array w ag r (j - 1) idx Hok Hbytes) as Ba.
    pose proof (nb_byte array w ag (r - 1) j idx Hok Hbytes) as Bb.
    pose proof (nb_byte array w ag (r - 1) (j - 1) idx Hok Hbytes) as Bc.
    assert (byte x) as Bx
        by (apply get_In in Hx; revert x Hx; now apply Forall_forall).
    unfold byte in *. rewrite Z.rem_mod_nonneg; [reflexivity| |lia].
    destruct (paeth_cases (nb ag r (j - 1) idx)
                (nb ag (r - 1) j idx)
                (nb ag (r - 1) (j - 1) idx)) as [->|[->| ->]]; lia.
  - intros Eab Ebc.
    destruct (channel_exit array w Hw ag r j idx x Hex Hr Hj Hidx Hx)
      as (fb & Hfb' & ->).
    rewrite Hfb in Hfb'. injection Hfb' as <-. cbn [recon].
    destruct Hex as [Hok _].
    pose proof (nb_byte array w ag r (j - 1) idx Hok Hbytes) as Ba.
    assert (byte x) as Bx
        by (apply get_In in Hx; revert x Hx; now apply Forall_forall).
    unfold paeth. rewrite <- Ebc, <- Eab, Z.leb_refl. cbn [andb].
    unfold byte in *. rewrite Z.rem_mod_nonneg; [reflexivity|lia|lia].
Qed.

(** On two Paeth scanlines of one pixel: the last channel adds the pixel above. *)
Lemma paeth_reconstruction_witness :
  exists g,
    reverseFiltering [4; 10; 20; 30; 255; 4; 1; 2; 3; 4] 1 = Some (Ret g) /\
    channel g 1 0 3 = Some ((4 + 255) mod 256).
Proof.
  destruct (paeth_reconstruction [4; 10; 20; 30; 255; 4; 1; 2; 3; 4] 1)
    as (g & E & H).
  - lia.
  - repeat constructor; unfold byte; lia.
  - intros r fb Hr G. pose proof (get_range _ _ _ G) as R.
    change (len [4; 10; 20; 30; 255; 4; 1; 2; 3; 4]) with 10 in R.
    assert (r = 0 \/ r = 1) as [-> | ->] by lia;
      cbv in G; injection G as <-; lia.
  - exists g. split; [exact E|].
    destruct (H 1 0 3 4) as (a & b & c & Ha & Hb & Hc & Hv & _);
      try lia; try reflexivity.
    clear H. vm_compute in E. injection E as <-. cbv in Ha, Hb, Hc.
    injection Ha as <-. injection Hb as <-. injection Hc as <-.
    exact Hv.
Defined.

End DefilterSpec.

(** ** The sub-image extractor: facts on the row loop *)

Module SubImageFacts.
Import SubImage.

Lemma Qltb_int i z bound b :
  (i == inject_Z z)%Q -> (bound == inject_Z b)%Q -> Qltb i bound = (z <? b).
Proof.
  intros Hi Hb. unfold Qltb.
  destruct (Z.ltb_spec z b) as [L|L].
  - apply negb_true_iff. destruct (Qle_bool bound i) eqn:E; [|reflexivity].
    apply Qle_bool_iff in E. rewrite Hi, Hb, <- Zle_Qle in E. lia.
  - apply negb_false_iff. apply Qle_bool_iff. rewrite Hi, Hb, <- Zle_Qle. lia.
Qed.

Lemma index_int l i z :
  (i == inject_Z z)%Q ->
  index l i = match get l z with Some v => v | None => VUndef end.
Proof.
  intros Hi. unfold index.
  assert (Qfloor i = z) as -> by (rewrite Hi; apply Qfloor_Z).
  assert (Qeq_bool (inject_Z z) i = true) as ->
      by (apply Qeq_bool_iff; now symmetry).
  reflexivity.
Qed.

Lemma succ_int i z : (i == inject_Z z)%Q -> (i + 1 == inject_Z (z + 1))%Q.
Proof. intros ->. rewrite inject_Z_plus. reflexivity. Qed.

Lemma truncate_int z : truncate (inject_Z z) = z.
Proof.
  unfold truncate. destruct (Qle_bool 0 (inject_Z z));
    [apply Qfloor_Z|apply Qceiling_Z].
Qed.

Lemma truncate_comp q z : (q == inject_Z z)%Q -> truncate q = z.
Proof.
  intros H. unfold truncate.
  assert (Qle_bool 0 q = Qle_bool 0 (inject_Z z)) as ->.
  { destruct (Qle_bool 0 (inject_Z z)) eqn:E.
    - apply Qle_bool_iff. apply Qle_bool_iff in E. now rewrite H.
    - destruct (Qle_bool 0 q) eqn:E'; [|reflexivity].
      apply Qle_bool_iff in E'. rewrite H in E'.
      apply Qle_bool_iff in E'. congruence. }
  destruct (Qle_bool 0 (inject_Z z)).
  - rewrite (Qfloor_comp _ _ H). apply Qfloor_Z.
  - rewrite (Qceiling_comp _ _ H). apply Qceiling_Z.
Qed.

(** The loop throws nothing but the wrapped error of line 338. *)
Lemma rows_loop_throw fuel : forall rows i bound from to acc e,
  rows_loop fuel rows i bound from to acc = Some (Throw e) ->
  e = Err (SubImageExtractionError TypeError).
Proof.
  induction fuel as [|fuel IH]; intros rows i bound from to acc e; cbn [rows_loop].
  - destruct (Qltb i bound); discriminate.
  - destruct (Qltb i bound); [|discriminate].
    destruct (index rows i); try (intros H; injection H as <-; reflexivity).
    apply IH.
Qed.

(** A row outside the grid ends the loop with that error. *)
Lemma rows_loop_out rows b bound from to :
  (bound == inject_Z b)%Q ->
  forall fuel z i acc,
    (i == inject_Z z)%Q -> z < b -> b - z <= Z.of_nat fuel ->
    z < 0 \/ len rows < b ->
    rows_loop fuel rows i bound from to acc
    = Some (Throw (Err (SubImageExtractionError TypeError))).
Proof.
  intros Hb. induction fuel as [|fuel IH]; intros z i acc Hi Hlt Hfuel Hout;
    [lia|].
  cbn [rows_loop]. rewrite (Qltb_int i z bound b Hi Hb).
  apply Z.ltb_lt in Hlt as E. rewrite E. rewrite (index_int rows i z Hi).
  destruct (get rows z) as [v|] eqn:G; [|reflexivity].
  destruct v as [|q|row]; try reflexivity.
  apply get_range in G.
  apply (IH (z + 1)); [now apply succ_int|lia|lia|lia].
Qed.

(** Rows inside the grid that are arrays are sliced one after the other. *)
Lemma rows_loop_in rows b bound from to :
  (bound == inject_Z b)%Q ->
  forall fuel z i acc,
    (i == inject_Z z)%Q -> z <= b -> b - z <= Z.of_nat fuel ->
    (forall k, z <= k < b -> exists row, get rows k = Some (VArr row)) ->
    exists out,
      rows_loop fuel rows i bound from to acc = Some (Ret (acc ++ out)) /\
      len out = b - z /\
      forall k, 0 <= k < b - z ->
        exists row, get rows (z + k) = Some (VArr row) /\
                    get out k = Some (VArr (slice row from to)).
Proof.
  intros Hb. induction fuel as [|fuel IH]; intros z i acc Hi Hle Hfuel Hrows.
  - exists []. cbn [rows_loop]. rewrite (Qltb_int i z bound b Hi Hb).
    assert (z = b) as -> by lia. rewrite Z.ltb_irrefl, app_nil_r.
    split; [reflexivity|]. split; [change (@len value []) with 0; lia|]. lia.
  - cbn [rows_loop]. rewrite (Qltb_int i z bound b Hi Hb).
    destruct (Z.ltb_spec z b) as [L|L].
    + rewrite (index_int rows i z Hi).
      destruct (Hrows z ltac:(lia)) as [row Hrow]. rewrite Hrow.
      destruct (IH (z + 1) (i + 1)%Q (acc ++ [VArr (slice row from to)]))
        as (out & E & Hlen & Hout);
        [now apply succ_int|lia|lia|intros; apply Hrows; lia|].
      exists (VArr (slice row from to) :: out).
      rewrite E, <- app_assoc. split; [reflexivity|].
      split; [unfold len in *; cbn [length]; lia|].
      intros k Hk. destruct (Z.eq_dec k 0) as [->|N].
      * exists row. rewrite Z.add_0_r. split; [assumption|reflexivity].
      * destruct (Hout (k - 1) ltac:(lia)) as (row' & G & G').
        exists row'. replace (z + k) with (z + 1 + (k - 1)) by lia.
        split; [assumption|].
        replace k with (k - 1 + 1) by lia. rewrite get_tail by lia. exact G'.
    + exists []. assert (z = b) as -> by lia. rewrite app_nil_r.
      split; [reflexivity|]. split; [change (@len value []) with 0; lia|]. lia.
Qed.

(** The fuel is enough for any tile height. *)
Lemma rows_loop_total rows bound from to fuel : forall i acc,
  (bound - i <= inject_Z (Z.of_nat fuel))%Q ->
  rows_loop fuel rows i bound from to acc <> None.
Proof.
  induction fuel as [|fuel IH]; intros i acc H; cbn [rows_loop].
  - destruct (Qltb i bound) eqn:E; [|discriminate].
    unfold Qltb in E. apply negb_true_iff in E.
    change (inject_Z (Z.of_nat 0)) with 0%Q in H.
    assert (bound <= i)%Q as L by lra.
    apply Qle_bool_iff in L. congruence.
  - destruct (Qltb i bound); [|discriminate].
    destruct (index rows i); try discriminate.
    apply IH. rewrite Nat2Z.inj_succ, <- Z.add_1_r, inject_Z_plus in H.
    change (inject_Z 1) with 1%Q in H. lra.
Qed.

Lemma subImage_total g ts m : subImage g ts m <> None.
Proof.
  unfold subImage. destruct g as [| |rows]; try discriminate.
  destruct (x ts) as [|tw|]; try discriminate.
  destruct (y ts) as [|th|]; try discriminate.
  destruct (Qle_bool tw 0 || Qle_bool th 0); [discriminate|].
  destruct (xMargin m) as [|xm|]; try discriminate.
  destruct (yMargin m) as [|ym|]; try discriminate.
  match goal with
  | |- match ?L with _ => _ end <> None =>
      assert (L <> None) as T; [|destruct L as [[out|e]|]; congruence]
  end.
  apply rows_loop_total.
  pose proof (Qle_ceiling th) as C.
  assert (inject_Z (Qceiling th) <= inject_Z (Z.of_nat (Z.to_nat (Qceiling th))))%Q
    as C' by (rewrite <- Zle_Qle; lia).
  lra.
Qed.

Lemma positive_int z : 0 < z -> Qle_bool (inject_Z z) 0 = false.
Proof.
  intros H. destruct (Qle_bool (inject_Z z) 0) eqn:E; [|reflexivity].
  apply Qle_bool_iff in E. change 0%Q with (inject_Z 0) in E.
  rewrite <- Zle_Qle in E. lia.
Qed.

(** [subImage] on whole numbers: the checks pass and the loop runs. *)
Lemma subImage_int rows tw th xM yM :
  0 < tw -> 0 < th ->
  subImage (VArr rows) (mkTileSize (int tw) (int th)) (mkMargins (int xM) (int yM))
  = match rows_loop (Z.to_nat th) rows (inject_Z yM)
            (inject_Z th + inject_Z yM)%Q (xM + 1) (xM + 1 + tw) [VNum 0] with
    | Some (Ret out) => Some (Ret (VArr out))
    | Some (Throw e) => Some (Throw e)
    | None => None
    end.
Proof.
  intros Hw Hh. unfold subImage, int. cbn [x y xMargin yMargin].
  rewrite (positive_int tw Hw), (positive_int th Hh). cbn [orb].
  rewrite Qceiling_Z.
  rewrite (truncate_comp (inject_Z xM + 1)%Q (xM + 1))
    by (rewrite inject_Z_plus; reflexivity).
  rewrite (truncate_comp (inject_Z xM + 1 + inject_Z tw)%Q (xM + 1 + tw))
    by (rewrite !inject_Z_plus; reflexivity).
  reflexivity.
Qed.

End SubImageFacts.

(** ** SubImageExtractor: two calls in exact arithmetic *)

Module SubImageSpec.
Import SubImage SubImageFacts.

(** The tile of the specification: 2 by 2 at margins (1, 1) of a grid of 4
    by 4 pixels (one channel per pixel here). *)
Example tile_2_by_2 :
  subImage
    (of_grid [[Defilter.Num 0; Defilter.Px [1]; Defilter.Px [2];
               Defilter.Px [3]; Defilter.Px [4]];
              [Defilter.Num 0; Defilter.Px [5]; Defilter.Px [6];
               Defilter.Px [7]; Defilter.Px [8]];
              [Defilter.Num 0; Defilter.Px [9]; Defilter.Px [10];
               Defilter.Px [11]; Defilter.Px [12]];
              [Defilter.Num 0; Defilter.Px [13]; Defilter.Px [14];
               Defilter.Px [15]; Defilter.Px [16]]])
    (mkTileSize (int 2) (int 2)) (mkMargins (int 1) (int 1))
  = Some (Ret (VArr [int 0;
                     VArr [VArr [int 6]; VArr [int 7]];
                     VArr [VArr [int 10]; VArr [int 11]]])).
Proof. reflexivity. Qed.

(** A grid that is no array is refused before anything else. *)
Example grid_not_an_array :
  subImage (int 3) (mkTileSize (int 2) (int 2)) default_margins
  = Some (Throw (Err InvalidGridType)).
Proof. reflexivity. Qed.

End SubImageSpec.

(** ** The chunk parser: facts on the loop *)

Module ParserFacts.
Import Parser.

Lemma getUint8_throw bytes p e :
  getUint8 bytes p = Throw e -> e = Fault RangeError.
Proof.
  unfold getUint8. destruct (get bytes p); [discriminate|congruence].
Qed.

Lemma getUint8_ret bytes p v :
  getUint8 bytes p = Ret v -> get bytes p = Some v.
Proof.
  unfold getUint8. destruct (get bytes p); [congruence|discriminate].
Qed.

Lemma getUint32_throw bytes p e :
  getUint32 bytes p = Throw e -> e = Fault RangeError.
Proof.
  unfold getUint32. destruct (p + 4 <=? len bytes); [|congruence].
  destruct (getUint8 bytes p) eqn:E0; cbn [bind];
    [|intros H; injection H as <-; eapply getUint8_throw; eauto].
  destruct (getUint8 bytes (p + 1)) eqn:E1; cbn [bind];
    [|intros H; injection H as <-; eapply getUint8_throw; eauto].
  destruct (getUint8 bytes (p + 2)) eqn:E2; cbn [bind];
    [|intros H; injection H as <-; eapply getUint8_throw; eauto].
  destruct (getUint8 bytes (p + 3)) eqn:E3; cbn [bind];
    [discriminate|intros H; injection H as <-; eapply getUint8_throw; eauto].
Qed.

Lemma getUint32_outside bytes p :
  len bytes < p + 4 -> getUint32 bytes p = Throw (Fault RangeError).
Proof.
  intros H. unfold getUint32.
  destruct (Z.leb_spec (p + 4) (len bytes)); [lia|reflexivity].
Qed.

Lemma getUint32_ret bytes p v :
  Forall byte bytes -> getUint32 bytes p = Ret v ->
  0 <= p /\ p + 4 <= len bytes /\ 0 <= v.
Proof.
  intros B. unfold getUint32.
  destruct (Z.leb_spec (p + 4) (len bytes)) as [L|L]; [|discriminate].
  destruct (getUint8 bytes p) as [b0|] eqn:E0; cbn [bind]; [|discriminate].
  destruct (getUint8 bytes (p + 1)) as [b1|] eqn:E1; cbn [bind]; [|discriminate].
  destruct (getUint8 bytes (p + 2)) as [b2|] eqn:E2; cbn [bind]; [|discriminate].
  destruct (getUint8 bytes (p + 3)) as [b3|] eqn:E3; cbn [bind]; [|discriminate].
  intros H. injection H as <-.
  apply getUint8_ret in E0, E1, E2, E3.
  pose proof (get_range _ _ _ E0).
  assert (forall k b, get bytes k = Some b -> 0 <= b <= 255) as Hb.
  { intros k b G. apply get_In in G. revert b G. now apply Forall_forall. }
  apply Hb in E0, E1, E2, E3. lia.
Qed.

(** An iteration that returns has read a whole chunk and moved on. *)
Lemma iteration_advance bytes pos st pos' st' :
  Forall byte bytes -> iteration bytes pos st = Ret (pos', st') ->
  0 <= pos /\ pos + 12 <= pos' <= len bytes.
Proof.
  intros B. unfold iteration.
  destruct (getUint32 bytes pos) as [sz|] eqn:E; cbn [bind]; [|discriminate].
  destruct (getUint32 bytes (pos + 8 + sz)) as [c|] eqn:E'; cbn [bind];
    [|discriminate].
  apply (getUint32_ret _ _ _ B) in E, E'.
  assert (pos + 8 + sz + 4 = pos' -> 0 <= pos /\ pos + 12 <= pos' <= len bytes)
    as K by lia.
  destruct (tag_eqb _ IHDR).
  - destruct (read_header bytes); cbn [bind]; [|discriminate].
    intros H. injection H as H _. auto.
  - destruct (tag_eqb _ PLTE).
    + destruct (negb (Z.rem sz 3 =? 0)); [discriminate|].
      destruct (first_colourType (chunks st)) as [ct|]; cbn [bind];
        [|discriminate].
      destruct ((ct =? 3) && (sz =? 0)); [discriminate|].
      intros H. injection H as H _. auto.
    + destruct (tag_eqb _ tRNS); intros H; injection H as H _; auto.
Qed.

Lemma reaches_pos bytes n pos st :
  Forall byte bytes -> reaches bytes n pos st -> 8 + 12 * Z.of_nat n <= pos.
Proof.
  intros B R. induction R as [|n pos st pos' st' R IH L E]; [lia|].
  apply (iteration_advance _ _ _ _ _ B) in E. lia.
Qed.

Lemma reaches_loop bytes n pos st :
  reaches bytes n pos st ->
  forall fuel, parse_loop (n + fuel) bytes 8 start = parse_loop fuel bytes pos st.
Proof.
  intros R. induction R as [|n pos st pos' st' R IH L E]; intros fuel;
    [reflexivity|].
  replace (S n + fuel)%nat with (n + S fuel)%nat by lia.
  rewrite IH. cbn [parse_loop]. apply Z.ltb_lt in L. now rewrite L, E.
Qed.

(** From a chunk the loop has reached, [parseChunks] does what one more
    iteration and the rest of the loop do. *)
Lemma parseChunks_from bytes n pos st :
  Forall byte bytes -> reaches bytes n pos st -> pos < len bytes ->
  exists fuel,
    parseChunks bytes
    = match iteration bytes pos st with
      | Ret (pos', st') => parse_loop fuel bytes pos' st'
      | Throw e => Some (Throw e)
      end.
Proof.
  intros B R L. pose proof (reaches_pos _ _ _ _ B R) as P.
  unfold len in L. exists (length bytes - S n)%nat. unfold parseChunks.
  replace (length bytes) with (n + S (length bytes - S n))%nat at 1 by lia.
  rewrite (reaches_loop _ _ _ _ R). cbn [parse_loop].
  assert ((pos <? len bytes) = true) as -> by (apply Z.ltb_lt; exact L).
  reflexivity.
Qed.

Lemma parse_loop_total bytes fuel : forall pos st,
  Forall byte bytes -> len bytes - pos <= Z.of_nat fuel ->
  parse_loop fuel bytes pos st <> None.
Proof.
  induction fuel as [|fuel IH]; intros pos st B H; cbn [parse_loop];
    destruct (Z.ltb_spec pos (len bytes)) as [L|L]; try discriminate; [lia|].
  destruct (iteration bytes pos st) as [[pos' st']|] eqn:E; [|discriminate].
  apply (iteration_advance _ _ _ _ _ B) in E. apply IH; [assumption|lia].
Qed.

Lemma parseChunks_total bytes : Forall byte bytes -> parseChunks bytes <> None.
Proof.
  intros B. unfold parseChunks. apply parse_loop_total; [assumption|].
  unfold len. lia.
Qed.

Lemma tag_eqb_eq a b : tag_eqb a b = true <-> a = b.
Proof.
  unfold tag_eqb. destruct (list_eq_dec Z.eq_dec a b); split; congruence.
Qed.

(** Only a chunk tagged IHDR carries [chunkInfo]. *)
Lemma iteration_info bytes pos st pos' st' :
  iteration bytes pos st = Ret (pos', st') ->
  exists c, chunks st' = chunks st ++ [c] /\
            (fourCC c = IHDR <-> chunkInfo c <> None).
Proof.
  unfold iteration.
  destruct (getUint32 bytes pos) as [sz|]; cbn [bind]; [|discriminate].
  destruct (getUint32 bytes (pos + 8 + sz)) as [c|]; cbn [bind]; [|discriminate].
  destruct (tag_eqb _ IHDR) eqn:T.
  - destruct (read_header bytes); cbn [bind]; [|discriminate].
    intros H. injection H as _ <-. eexists. split; [reflexivity|].
    cbn [fourCC chunkInfo]. apply tag_eqb_eq in T. split; congruence.
  - assert (slice bytes (pos + 4) (pos + 8) <> IHDR) as N
        by (intros N; apply tag_eqb_eq in N; congruence).
    destruct (tag_eqb _ PLTE).
    + destruct (negb (Z.rem sz 3 =? 0)); [discriminate|].
      destruct (first_colourType (chunks st)) as [ct|]; cbn [bind];
        [|discriminate].
      destruct ((ct =? 3) && (sz =? 0)); [discriminate|].
      intros H. injection H as _ <-. eexists.
      split; [destruct (((ct =? 0) || (ct =? 4)) && negb (sz =? 0)); reflexivity|].
      cbn [fourCC chunkInfo]. split; [contradiction|congruence].
    + destruct (tag_eqb _ tRNS); intros H; injection H as _ <-;
        (eexists; split; [reflexivity|]);
        cbn [fourCC chunkInfo]; (split; [contradiction|congruence]).
Qed.

Lemma reaches_info bytes n pos st :
  reaches bytes n pos st ->
  forall c, In c (chunks st) -> (fourCC c = IHDR <-> chunkInfo c <> None).
Proof.
  intros R. induction R as [|n pos st pos' st' R IH L E]; intros c Hc.
  - destruct Hc.
  - apply iteration_info in E as (c' & Ec & Hc'). rewrite Ec in Hc.
    apply in_app_or in Hc as [Hc|[<-|[]]]; auto.
Qed.

(** An iteration only appends: one chunk, and at most a warning. *)
Lemma iteration_extends bytes pos st pos' st' :
  iteration bytes pos st = Ret (pos', st') ->
  exists c more, chunks st' = chunks st ++ [c] /\
                 warnings st' = warnings st ++ more.
Proof.
  unfold iteration.
  destruct (getUint32 bytes pos) as [sz|]; cbn [bind]; [|discriminate].
  destruct (getUint32 bytes (pos + 8 + sz)) as [c|]; cbn [bind]; [|discriminate].
  destruct (tag_eqb _ IHDR).
  - destruct (read_header bytes); cbn [bind]; [|discriminate].
    intros H. injection H as _ <-. eexists _, []. rewrite app_nil_r.
    split; reflexivity.
  - destruct (tag_eqb _ PLTE).
    + destruct (negb (Z.rem sz 3 =? 0)); [discriminate|].
      destruct (first_colourType (chunks st)) as [ct|]; cbn [bind];
        [|discriminate].
      destruct ((ct =? 3) && (sz =? 0)); [discriminate|].
      intros H. injection H as _ <-.
      destruct (((ct =? 0) || (ct =? 4)) && negb (sz =? 0)).
      * eexists _, [ct]. split; reflexivity.
      * eexists _, []. rewrite app_nil_r. split; reflexivity.
    + destruct (tag_eqb _ tRNS); intros H; injection H as _ <-;
        eexists _, []; rewrite app_nil_r; split; reflexivity.
Qed.

(** So the chunks and warnings of a state stay in every later state. *)
Lemma parse_loop_extends bytes fuel : forall pos st stf,
  parse_loop fuel bytes pos st = Some (Ret stf) ->
  exists more_chunks more_warnings,
    chunks stf = chunks st ++ more_chunks /\
    warnings stf = warnings st ++ more_warnings.
Proof.
  induction fuel as [|fuel IH]; intros pos st stf; cbn [parse_loop];
    destruct (pos <? len bytes); try discriminate;
    try (intros H; injection H as <-; exists [], [];
         now rewrite !app_nil_r).
  destruct (iteration bytes pos st) as [[pos1 st1]|] eqn:E; [|discriminate].
  intros H. apply IH in H as (mc & mw & Hc & Hw).
  apply iteration_extends in E as (c & more & Ec & Ew).
  exists ([c] ++ mc), (more ++ mw).
  rewrite Hc, Hw, Ec, Ew, <- !app_assoc. split; reflexivity.
Qed.

(** What the loop throws is thrown by a pass that starts at or behind the
    place where the loop is. *)
Lemma parse_loop_throws_from bytes fuel : forall pos st e,
  Forall byte bytes ->
  parse_loop fuel bytes pos st = Some (Throw e) ->
  exists pos1 st1, pos <= pos1 /\ iteration bytes pos1 st1 = Throw e.
Proof.
  induction fuel as [|fuel IH]; intros pos st e B; cbn [parse_loop];
    destruct (pos <? len bytes); try discriminate.
  destruct (iteration bytes pos st) as [[pos1 st1]|e'] eqn:E.
  - intros H. apply IH in H as (p & s' & Hp & H); [|assumption].
    apply (iteration_advance _ _ _ _ _ B) in E.
    exists p, s'. split; [lia|assumption].
  - intros H. injection H as <-. exists pos, st. split; [lia|assumption].
Qed.

End ParserFacts.

(** ** ChunkParser: the properties of the specification *)

Module ParserSpec.
Import Parser ParserFacts.

(** A header of colour type 3 followed by an empty palette. *)
Example empty_palette_colour_type_3 :
  parseChunks (signature ++ chunk_bytes IHDR (ihdr_body 3)
                         ++ chunk_bytes PLTE [] ++ chunk_bytes IEND [])
  = Some (Throw (Err MissingPalette)).
Proof. reflexivity. Qed.

(** The header fields come from offsets 16 to 28 of the stream. *)
Example header_fields :
  option_map (fun o => match o with
                       | Ret st => map chunkInfo (chunks st)
                       | Throw _ => []
                       end)
             (parseChunks (signature ++ chunk_bytes IHDR (ihdr_body 6)
                                     ++ chunk_bytes IEND []))
  = Some [Some (mkHeaderInfo 2 1 8 6 0 0 0); None].
Proof. reflexivity. Qed.

(** A literal stream holds bytes. *)
Ltac literal_bytes :=
  match goal with
  | |- Forall byte ?l =>
      let l' := eval vm_compute in l in
      change (Forall byte l'); repeat constructor; unfold byte; lia
  end.

(** C5, as the code has it. When the loop reaches a chunk whose length field,
    data or CRC lie beyond the end of the buffer, [parseChunks] returns
    nothing: the [DataView] read raises a RangeError, which the function
    neither catches nor replaces by an error of its own. *)
Theorem truncated_stream (bytes : list Z) (n : nat) (pos : Z) (st : pstate) :
  Forall byte bytes ->
  reaches bytes n pos st ->
  pos < len bytes ->
  (forall size, getUint32 bytes pos = Ret size ->
                len bytes < pos + 8 + size + 4) ->
  parseChunks bytes = Some (Throw (Fault RangeError)).
Proof.
  intros B R L Hcut.
  destruct (parseChunks_from bytes n pos st B R L) as [fuel ->].
  unfold iteration.
  destruct (getUint32 bytes pos) as [sz|e] eqn:E; cbn [bind].
  - rewrite (getUint32_outside bytes (pos + 8 + sz))
      by (pose proof (Hcut sz eq_refl); lia).
    reflexivity.
  - now rewrite (getUint32_throw _ _ _ E).
Qed.

(** On a stream cut inside its second chunk. *)
Lemma truncated_stream_witness :
  parseChunks cut_short = Some (Throw (Fault RangeError)).
Proof.
  apply (truncated_stream cut_short 1 33 (after_first cut_short)).
  - literal_bytes.
  - apply (reaches_next cut_short 0 8 start); [constructor|reflexivity|reflexivity].
  - reflexivity.
  - intros size H. vm_compute in H. injection H as <-. vm_compute. reflexivity.
Defined.

(** C5 as stated fails: for a stream cut inside a chunk, what is thrown is
    the RangeError of the runtime, not an error the parser names. *)
Lemma truncated_stream_unnamed :
  exists e, parseChunks cut_short = Some (Throw e) /\ named e = false.
Proof. exists (Fault RangeError). split; reflexivity. Qed.

(** The PLTE case of the [switch], for a chunk that lies in the buffer. *)
Lemma plte_iteration bytes pos st size crc :
  getUint32 bytes pos = Ret size ->
  slice bytes (pos + 4) (pos + 8) = PLTE ->
  getUint32 bytes (pos + 8 + size) = Ret crc ->
  iteration bytes pos st
  = if negb (Z.rem size 3 =? 0) then Throw (Err InvalidPalette)
    else
      ct <- first_colourType (chunks st) ;;
      if (ct =? 3) && (size =? 0) then Throw (Err MissingPalette)
      else
        Ret (pos + 8 + size + 4,
             push_chunk
               (if ((ct =? 0) || (ct =? 4)) && negb (size =? 0)
                then warn st ct else st)
               (mkChunk PLTE size (slice bytes (pos + 8) (pos + 8 + size))
                        (pos + 8) crc None)).
Proof.
  intros Hs Ht Hc. unfold iteration. rewrite Hs. cbn [bind].
  rewrite Hc, Ht. cbn [bind]. reflexivity.
Qed.

(** C6. After a first chunk that is an IHDR chunk, a PLTE chunk makes
    [parseChunks] fail with "PLTE chunk length must be divisible by 3." when
    its length is no multiple of 3, and with "Images of colourtype 3 must
    include a PLTE chunk." when the length is a multiple of 3, the header's
    colour type is 3 and the length is 0; the pass of the loop over this
    chunk throws these errors in exactly these cases.  In every other case
    the parse goes on behind the chunk: the chunk is appended, for colour
    type 0 or 4 and a length other than 0 one warning is logged, and both
    are still there in whatever [parseChunks] returns in the end. *)
Theorem plte_checks (bytes : list Z) (n : nat) (pos : Z) (st : pstate)
    (first : Chunk) (rest : list Chunk) (size crc : Z) :
  Forall byte bytes ->
  reaches bytes n pos st ->
  chunks st = first :: rest ->
  fourCC first = IHDR ->
  getUint32 bytes pos = Ret size ->
  slice bytes (pos + 4) (pos + 8) = PLTE ->
  getUint32 bytes (pos + 8 + size) = Ret crc ->
  exists info,
    chunkInfo first = Some info /\
    let ct := colourType info in
    let chunk := mkChunk PLTE size (slice bytes (pos + 8) (pos + 8 + size))
                         (pos + 8) crc None in
    let goes_on st' :=
      iteration bytes pos st = Ret (pos + 8 + size + 4, st') /\
      reaches bytes (S n) (pos + 8 + size + 4) st' /\
      (exists fuel,
         parseChunks bytes = parse_loop fuel bytes (pos + 8 + size + 4) st') /\
      (forall e, parseChunks bytes = Some (Throw e) ->
         exists pos1 st1, pos + 8 + size + 4 <= pos1 /\
                          iteration bytes pos1 st1 = Throw e) /\
      (forall stf, parseChunks bytes = Some (Ret stf) ->
         exists more_chunks more_warnings,
           chunks stf = chunks st' ++ more_chunks /\
           warnings stf = warnings st' ++ more_warnings) in
    (Z.rem size 3 <> 0 ->
     parseChunks bytes = Some (Throw (Err InvalidPalette))) /\
    (Z.rem size 3 = 0 -> ct = 3 -> size = 0 ->
     parseChunks bytes = Some (Throw (Err MissingPalette))) /\
    (iteration bytes pos st = Throw (Err InvalidPalette)
     <-> Z.rem size 3 <> 0) /\
    (iteration bytes pos st = Throw (Err MissingPalette)
     <-> Z.rem size 3 = 0 /\ ct = 3 /\ size = 0) /\
    (Z.rem size 3 = 0 -> (ct = 0 \/ ct = 4) -> size <> 0 ->
     goes_on (mkPstate (chunks st ++ [chunk]) (warnings st ++ [ct]))) /\
    (Z.rem size 3 = 0 -> ~ ((ct = 0 \/ ct = 4) /\ size <> 0) ->
     ~ (ct = 3 /\ size = 0) ->
     goes_on (mkPstate (chunks st ++ [chunk]) (warnings st))).
Proof.
  intros B R Hchunks Htag Hs Ht Hc.
  destruct (chunkInfo first) as [info|] eqn:Hinfo.
  2:{ exfalso.
      apply (proj1 (reaches_info _ _ _ _ R first
                      ltac:(rewrite Hchunks; now left)) Htag Hinfo). }
  exists info. split; [reflexivity|]. cbv zeta.
  pose proof (plte_iteration bytes pos st size crc Hs Ht Hc) as Hit.
  unfold first_colourType in Hit.
  rewrite Hchunks, get_head, Hinfo in Hit. cbn [bind] in Hit.
  remember (colourType info) as ct eqn:Ect.
  remember (mkChunk PLTE size (slice bytes (pos + 8) (pos + 8 + size))
                    (pos + 8) crc None) as chunk eqn:Echunk.
  unfold push_chunk, warn in Hit.
  assert (pos < len bytes) as L
      by (apply (getUint32_ret _ _ _ B) in Hs; lia).
  destruct (parseChunks_from bytes n pos st B R L) as [fuel Hparse].
  assert (forall e, iteration bytes pos st = Throw e ->
                    parseChunks bytes = Some (Throw e)) as Hfail
      by (intros e He; now rewrite Hparse, He).
  assert (forall st',
            iteration bytes pos st = Ret (pos + 8 + size + 4, st') ->
            iteration bytes pos st = Ret (pos + 8 + size + 4, st') /\
            reaches bytes (S n) (pos + 8 + size + 4) st' /\
            (exists fuel',
               parseChunks bytes
               = parse_loop fuel' bytes (pos + 8 + size + 4) st') /\
            (forall e, parseChunks bytes = Some (Throw e) ->
               exists pos1 st1, pos + 8 + size + 4 <= pos1 /\
                                iteration bytes pos1 st1 = Throw e) /\
            (forall stf, parseChunks bytes = Some (Ret stf) ->
               exists more_chunks more_warnings,
                 chunks stf = chunks st' ++ more_chunks /\
                 warnings stf = warnings st' ++ more_warnings)) as Hgo.
  { intros st' He. split; [exact He|]. split; [|split; [|split]].
    - now apply (reaches_next bytes n pos st).
    - exists fuel. now rewrite Hparse, He.
    - intros e E. rewrite Hparse, He in E.
      now apply (parse_loop_throws_from bytes fuel) in E.
    - intros stf E. rewrite Hparse, He in E.
      now apply parse_loop_extends in E. }
  destruct (Z.eqb_spec (Z.rem size 3) 0) as [E3|E3]; cbn [negb] in Hit.
  - destruct (Z.eqb_spec ct 3) as [C3|C3];
      destruct (Z.eqb_spec size 0) as [S0|S0]; cbn [andb negb] in Hit;
      rewrite ?andb_false_r in Hit;
      destruct (Z.eqb_spec ct 0) as [C0|C0];
      destruct (Z.eqb_spec ct 4) as [C4|C4];
      cbn [orb andb chunks warnings] in Hit;
      (split; [intros; lia|]);
      (split; [intros; first [lia|now apply Hfail]|]);
      (split; [rewrite Hit; split; intros;
               first [discriminate|lia|reflexivity]|]);
      (split; [rewrite Hit; split; intros;
               first [discriminate|lia|reflexivity]|]);
      (split; [intros ? ? ?; first [lia|now apply Hgo]
              |intros ? ? ?; first [lia|tauto|now apply Hgo]]).
  - split; [intros _; now apply Hfail|].
    split; [intros; lia|].
    split; [rewrite Hit; split; intros; first [assumption|reflexivity]|].
    split; [rewrite Hit; split; [discriminate|intros; lia]|].
    split; intros; lia.
Qed.

(** On a greyscale stream with a palette: the parse ends, and what it
    returns begins with the header and the palette and holds the warning. *)
Lemma plte_checks_witness :
  exists st more_chunks more_warnings,
    parseChunks grey_with_palette = Some (Ret st) /\
    map fourCC (chunks st) = [IHDR; PLTE] ++ map fourCC more_chunks /\
    warnings st = [0] ++ more_warnings.
Proof.
  assert (reaches grey_with_palette 1 33 (after_first grey_with_palette)) as R
      by (apply (reaches_next grey_with_palette 0 8 start);
          [constructor|reflexivity|reflexivity]).
  destruct (plte_checks grey_with_palette 1 33 (after_first grey_with_palette)
              (mkChunk IHDR 13 (ihdr_body 0) 16 0
                       (Some (mkHeaderInfo 2 1 8 0 0 0 0)))
              [] 3 0 ltac:(literal_bytes) R
              eq_refl eq_refl eq_refl eq_refl eq_refl)
    as (info & Hinfo & _ & _ & _ & _ & H & _).
  injection Hinfo as <-. cbv zeta in H.
  assert (3 <> 0) as N by discriminate.
  destruct (H eq_refl (or_introl eq_refl) N) as (_ & _ & _ & _ & Hend).
  destruct (parseChunks grey_with_palette) as [[st|e]|] eqn:E;
    [|vm_compute in E; discriminate..].
  destruct (Hend st eq_refl) as (mc & mw & Hc & Hw).
  exists st, mc, mw. split; [reflexivity|].
  rewrite Hc, Hw, map_app. split; reflexivity.
Defined.

(** C10, as the code has it. When the loop reaches a PLTE chunk and the
    first chunk parsed is not an IHDR chunk (or there is none yet), the
    length check still comes first: a length that is no multiple of 3 throws
    "PLTE chunk length must be divisible by 3."; only for a multiple of 3 is
    [chunks[0].chunkInfo.colourType] read, and that read raises a
    TypeError. *)
Theorem plte_without_header (bytes : list Z) (n : nat) (pos : Z) (st : pstate)
    (size crc : Z) :
  Forall byte bytes ->
  reaches bytes n pos st ->
  pos < len bytes ->
  (forall first rest, chunks st = first :: rest -> fourCC first <> IHDR) ->
  getUint32 bytes pos = Ret size ->
  slice bytes (pos + 4) (pos + 8) = PLTE ->
  getUint32 bytes (pos + 8 + size) = Ret crc ->
  (Z.rem size 3 = 0 -> parseChunks bytes = Some (Throw (Fault TypeError))) /\
  (Z.rem size 3 <> 0 -> parseChunks bytes = Some (Throw (Err InvalidPalette))).
Proof.
  intros B R L Hfirst Hs Ht Hc.
  destruct (parseChunks_from bytes n pos st B R L) as [fuel ->].
  rewrite (plte_iteration bytes pos st size crc Hs Ht Hc).
  assert (first_colourType (chunks st) = Throw (Fault TypeError)) as ->.
  { unfold first_colourType. destruct (chunks st) as [|first rest] eqn:E;
      [reflexivity|].
    rewrite get_head. destruct (chunkInfo first) eqn:Hinfo; [|reflexivity].
    exfalso. apply (Hfirst first rest eq_refl).
    apply (reaches_info _ _ _ _ R first); [rewrite E; now left|congruence]. }
  cbn [bind]. split; intros H.
  - rewrite H. reflexivity.
  - destruct (Z.eqb_spec (Z.rem size 3) 0); [contradiction|reflexivity].
Qed.

(** On a stream with a text chunk in front and a palette of three bytes. *)
Lemma plte_without_header_witness :
  parseChunks (headless [1; 2; 3]) = Some (Throw (Fault TypeError)).
Proof.
  apply (proj1 (plte_without_header (headless [1; 2; 3]) 1 21
                  (after_first (headless [1; 2; 3])) 3 0
                  ltac:(literal_bytes)
                  (reaches_next (headless [1; 2; 3]) 0 8 start 21 _
                     (reaches_start _) eq_refl eq_refl)
                  eq_refl
                  ltac:(intros first rest E; injection E as <- _; discriminate)
                  eq_refl eq_refl eq_refl)).
  reflexivity.
Defined.

(** C10 as stated fails: with a text chunk in front and a palette of two
    bytes, what is thrown is the named error of the length check. *)
Lemma headless_palette_named :
  parseChunks (headless [1; 2]) = Some (Throw (Err InvalidPalette)) /\
  named (Err InvalidPalette) = true.
Proof. split; reflexivity. Qed.

End ParserSpec.

(** ** ScanlineDefilterer: further properties read off the code *)

Module DefilterMore.
Import Defilter GridView DefilterInv.

(** *** Width 0 *)

Lemma start_line_width_0 array i s :
  Z.rem i 5 = 0 -> start_line array 1 i s = start_line array 5 i s.
Proof.
  intros H. unfold start_line. now rewrite Z.rem_1_r, H.
Qed.

Lemma body_width_0 array i s :
  Z.rem i 5 = 0 -> body array 1 i s = body array 5 i s.
Proof. intros H. unfold body. now rewrite start_line_width_0. Qed.

Lemma body_at_line_start array i s i1 s1 :
  Z.rem i 5 = 0 -> body array 5 i s = Ret (i1, s1) -> i1 = i + 1.
Proof.
  intros H. unfold body, start_line. rewrite H. cbn [Z.eqb].
  destruct (get array i) as [fb|]; [|discriminate].
  destruct (store (res s) (lineNum s + 1) [Num fb]); cbn [bind]; [|discriminate].
  match goal with
  | |- context [new_pixel ?a ?b ?c] => destruct (new_pixel a b c)
  end; cbn [bind]; [|discriminate].
  match goal with
  | |- context [push ?a ?b ?c] => destruct (push a b c)
  end; cbn [bind]; [|discriminate].
  intros E. now injection E as <- _.
Qed.

Lemma loop_width_0 array fuel : forall i s,
  0 <= i -> Z.rem i 5 = 0 -> loop fuel array 1 i s = loop fuel array 5 i s.
Proof.
  induction fuel as [|fuel IH]; intros i s Hi H; [reflexivity|].
  cbn [loop]. destruct (i <? len array); [|reflexivity].
  rewrite body_width_0 by assumption.
  destruct (body array 5 i s) as [[i1 s1]|] eqn:E; [|reflexivity].
  apply body_at_line_start in E; [|assumption]. subst i1.
  apply IH; [lia|].
  rewrite Z.rem_mod_nonneg in * by lia.
  replace (i + 1 + 4) with (i + 1 * 5) by lia.
  now rewrite Z_mod_plus_full.
Qed.

(** X1. A width of 0 is not refused: [widthBytes] is then 1, every pass of
    the loop starts a new line, and the grid is the one [reverseFiltering]
    builds for width 1 (rows of one pixel, five bytes each). *)
Theorem width_zero_as_width_one (array : list Z) :
  reverseFiltering array 0 = reverseFiltering array 1.
Proof.
  unfold reverseFiltering. cbn [Z.mul Z.add Pos.add Pos.mul].
  apply loop_width_0; [lia|reflexivity].
Qed.

(** X2. Whatever the payload, and for every width that is not negative (one
    read by [getUint32] never is), [reverseFiltering] ends in one of two
    ways: it returns a grid, or it throws "Unexpected filter byte.".  No
    lookup in [res] ever meets [undefined]. *)
Theorem defilter_outcomes (array : list Z) (w : Z) :
  0 <= w ->
  (exists g, reverseFiltering array w = Some (Ret g)) \/
  reverseFiltering array w = Some (Throw (Err UnsupportedFilterByte)).
Proof.
  intros Hw.
  assert (forall w', 0 < w' ->
            (exists g, reverseFiltering array w' = Some (Ret g)) \/
            reverseFiltering array w' = Some (Throw (Err UnsupportedFilterByte)))
    as H.
  { intros w' Hw'.
    destruct (reverseFiltering_run array w' Hw') as [(ag & E & _)|[E _]];
      [left; eauto|now right]. }
  destruct (Z.eq_dec w 0) as [->|N].
  - replace (reverseFiltering array 0) with (reverseFiltering array 1);
      [apply H; lia|].
    unfold reverseFiltering. cbn [Z.mul Z.add Pos.add Pos.mul].
    symmetry. apply loop_width_0; [lia|reflexivity].
  - apply H. lia.
Qed.

(** On a payload whose second scanline starts with 7. *)
Lemma defilter_outcomes_witness :
  (exists g, reverseFiltering [0; 1; 2; 3; 4; 7; 1; 1; 1; 1] 0 = Some (Ret g)) \/
  reverseFiltering [0; 1; 2; 3; 4; 7; 1; 1; 1; 1] 0
  = Some (Throw (Err UnsupportedFilterByte)).
Proof. apply (defilter_outcomes [0; 1; 2; 3; 4; 7; 1; 1; 1; 1] 0). lia. Defined.

(** *** The filters Sub, Up and Average; the filter byte in front *)

(** X3. In a row whose filter byte is 1, 2 or 3, every output channel is
    [(x + a) mod 256], [(x + b) mod 256] or [(x + (a + b) / 2) mod 256]
    (division rounding down), [a] being the channel of the pixel to the
    left and [b] that of the pixel above, 0 in the first column and row. *)
Theorem sub_up_average (array : list Z) (w : Z) :
  0 < w ->
  Forall byte array ->
  (forall r fb, 0 <= r -> get array (r * (w * 4 + 1)) = Some fb -> 0 <= fb <= 4) ->
  exists g,
    reverseFiltering array w = Some (Ret g) /\
    forall r j idx x fb,
      0 <= r -> 0 <= j < w -> 0 <= idx < 4 ->
      get array (r * (w * 4 + 1)) = Some fb ->
      get array (r * (w * 4 + 1) + 1 + 4 * j + idx) = Some x ->
      exists a b,
        neighbour g r (j - 1) idx = Some a /\
        neighbour g (r - 1) j idx = Some b /\
        (fb = 1 -> channel g r j idx = Some ((x + a) mod 256)) /\
        (fb = 2 -> channel g r j idx = Some ((x + b) mod 256)) /\
        (fb = 3 -> channel g r j idx = Some ((x + (a + b) / 2) mod 256)).
Proof.
  intros Hw Hbytes Hvalid.
  destruct (reverseFiltering_run array w Hw)
    as [(ag & E & Hex)|[_ (r & fb & Hr & Hfb & Hbad)]];
    [|elim Hbad; exact (Hvalid r fb Hr Hfb)].
  exists (map conc ag). split; [exact E|].
  intros r j idx x fb Hr Hj Hidx Hfb Hx.
  pose proof (get_range _ _ _ Hx) as R.
  assert (0 <= r * (w * 4 + 1)) by (apply Z.mul_nonneg_nonneg; lia).
  exists (nb ag r (j - 1) idx), (nb ag (r - 1) j idx).
  destruct (channel_exit array w Hw ag r j idx x Hex Hr Hj Hidx Hx)
    as (fb' & Hfb' & Hch).
  rewrite Hfb in Hfb'. injection Hfb' as <-.
  pose proof Hex as [Hok _].
  pose proof (nb_byte array w ag r (j - 1) idx Hok Hbytes) as Ba.
  pose proof (nb_byte array w ag (r - 1) j idx Hok Hbytes) as Bb.
  assert (byte x) as Bx
      by (apply (proj1 (Forall_forall _ _) Hbytes), (get_In _ _ _ Hx)).
  unfold byte in *.
  split; [|split; [|split; [|split]]].
  - apply (neighbour_exit array w Hw); [assumption|].
    destruct (Z.eq_dec j 0); [lia|]. right; right. unfold pos. lia.
  - apply (neighbour_exit array w Hw); [assumption|].
    destruct (Z.eq_dec r 0); [lia|]. right; right. unfold pos. lia.
  - intros ->. rewrite Hch. cbn [recon].
    destruct (Z.gtb_spec j 0) as [G|G].
    + now rewrite Z.rem_mod_nonneg by lia.
    + assert (nb ag r (j - 1) idx = 0) as ->
          by (apply nb_none; unfold apx; destruct (get ag r);
              [apply get_neg; lia|reflexivity]).
      rewrite Z.add_0_r, Z.mod_small; [reflexivity|lia].
  - intros ->. rewrite Hch. cbn [recon]. now rewrite Z.rem_mod_nonneg by lia.
  - intros ->. rewrite Hch. cbn [recon].
    assert (0 <= (nb ag r (j - 1) idx + nb ag (r - 1) j idx) / 2)
      by (apply Z.div_pos; lia).
    now rewrite Z.rem_mod_nonneg by lia.
Qed.

(** On an Average scanline under a Sub scanline, one pixel each. *)
Lemma sub_up_average_witness :
  exists g,
    reverseFiltering [1; 10; 20; 30; 40; 3; 1; 2; 3; 4] 1 = Some (Ret g) /\
    channel g 1 0 1 = Some ((2 + (0 + 20) / 2) mod 256).
Proof.
  destruct (sub_up_average [1; 10; 20; 30; 40; 3; 1; 2; 3; 4] 1)
    as (g & E & H).
  - lia.
  - repeat constructor; unfold byte; lia.
  - intros r fb Hr G. pose proof (get_range _ _ _ G) as R.
    change (len [1; 10; 20; 30; 40; 3; 1; 2; 3; 4]) with 10 in R.
    assert (r = 0 \/ r = 1) as [-> | ->] by lia;
      cbv in G; injection G as <-; lia.
  - exists g. split; [exact E|].
    destruct (H 1 0 1 2 3) as (a & b & Ha & Hb & _ & _ & Hv);
      try lia; try reflexivity.
    clear H. vm_compute in E. injection E as <-. cbv in Ha, Hb.
    injection Ha as <-. injection Hb as <-. now apply Hv.
Defined.

(** X4. The grid has one row for every scanline that starts inside the
    payload, whole or not, and each row begins with the filter byte of its
    scanline, kept as it was read. *)
Theorem rows_and_filter_bytes (array : list Z) (w : Z) :
  0 < w ->
  (forall r fb, 0 <= r -> get array (r * (w * 4 + 1)) = Some fb -> 0 <= fb <= 4) ->
  exists g,
    reverseFiltering array w = Some (Ret g) /\
    (forall r, 0 <= r ->
       ((exists l, get g r = Some l) <-> r * (w * 4 + 1) < len array)) /\
    (forall r l, get g r = Some l ->
       exists fb, get array (r * (w * 4 + 1)) = Some fb /\
                  get l 0 = Some (Num fb)).
Proof.
  intros Hw Hvalid.
  destruct (reverseFiltering_run array w Hw)
    as [(ag & E & Hex)|[_ (r & fb & Hr & Hfb & Hbad)]];
    [|elim Hbad; exact (Hvalid r fb Hr Hfb)].
  exists (map conc ag). split; [exact E|].
  assert (forall r l, get (map conc ag) r = Some l ->
            exists a, get ag r = Some a /\ l = conc a /\
                      get array (r * (w * 4 + 1)) = Some (fst a)) as Hrow.
  { intros r l Hl. rewrite get_map in Hl.
    destruct (get ag r) as [a|] eqn:Ha; [|discriminate].
    injection Hl as <-. exists a. destruct Hex as [Hok _].
    repeat split. apply (ok_fb _ _ _ Hok _ _ Ha). }
  split.
  - intros r Hr. split.
    + intros [l Hl]. destruct (Hrow r l Hl) as (a & _ & _ & G).
      apply get_range in G. lia.
    + intros Hlt. destruct (exit_row array w Hw ag r Hex Hr Hlt) as [a Ha].
      exists (conc a). now rewrite get_map, Ha.
  - intros r l Hl. destruct (Hrow r l Hl) as (a & _ & -> & G).
    exists (fst a). split; [exact G|reflexivity].
Qed.

(** On a payload of one scanline and the first three bytes of the next. *)
Lemma rows_and_filter_bytes_witness :
  exists g,
    reverseFiltering [2; 1; 2; 3; 4; 1; 5; 6] 1 = Some (Ret g) /\
    (exists l, get g 1 = Some l).
Proof.
  destruct (rows_and_filter_bytes [2; 1; 2; 3; 4; 1; 5; 6] 1)
    as (g & E & H & _).
  - lia.
  - intros r fb Hr G. pose proof (get_range _ _ _ G) as R.
    change (len [2; 1; 2; 3; 4; 1; 5; 6]) with 8 in R.
    assert (r = 0 \/ r = 1) as [-> | ->] by lia;
      cbv in G; injection G as <-; lia.
  - exists g. split; [exact E|]. apply H; [lia|reflexivity].
Defined.

(** *** Decoding loses nothing *)

Lemma get_ext {A} (l1 l2 : list A) :
  (forall k, 0 <= k -> get l1 k = get l2 k) -> l1 = l2.
Proof.
  intros H. apply nth_error_ext. intros n.
  specialize (H (Z.of_nat n) ltac:(lia)). unfold get in H.
  destruct (Z.of_nat n <? 0) eqn:E; [apply Z.ltb_lt in E; lia|].
  now rewrite Nat2Z.id in H.
Qed.

Lemma map_Px_inj (l1 : list (list Z)) : forall l2,
  map Px l1 = map Px l2 -> l1 = l2.
Proof.
  induction l1 as [|p l1 IH]; intros [|q l2] H; try discriminate; auto.
  cbn [map] in H. injection H as -> H. f_equal. now apply IH.
Qed.

Lemma map_conc_inj (ag1 : list arow) : forall ag2,
  map conc ag1 = map conc ag2 -> ag1 = ag2.
Proof.
  induction ag1 as [|[fb ps] ag1 IH]; intros [|[fb' ps'] ag2] H;
    try discriminate; auto.
  cbn [map] in H. unfold conc at 1 2 in H. cbn [fst snd] in H.
  injection H as -> Hps H. apply map_Px_inj in Hps as ->.
  f_equal. now apply IH.
Qed.

Lemma rem_256_inj x1 x2 p :
  byte x1 -> byte x2 -> 0 <= p ->
  Z.rem (x1 + p) 256 = Z.rem (x2 + p) 256 -> x1 = x2.
Proof.
  unfold byte. intros H1 H2 Hp. rewrite !Z.rem_mod_nonneg by lia.
  intros E.
  pose proof (Z.div_mod (x1 + p) 256 ltac:(lia)).
  pose proof (Z.div_mod (x2 + p) 256 ltac:(lia)).
  pose proof (Z.mod_pos_bound (x1 + p) 256 ltac:(lia)).
  lia.
Qed.

Lemma recon_inj fb j x1 x2 a b c :
  0 <= fb <= 4 -> byte x1 -> byte x2 -> byte a -> byte b -> byte c ->
  recon fb j x1 a b c = recon fb j x2 a b c -> x1 = x2.
Proof.
  intros Hfb H1 H2 Ha Hb Hc.
  assert (fb = 0 \/ fb = 1 \/ fb = 2 \/ fb = 3 \/ fb = 4) as D by lia.
  unfold byte in Ha, Hb, Hc.
  destruct D as [->|[->|[->|[->| ->]]]]; cbn [recon].
  - auto.
  - destruct (j >? 0); [apply rem_256_inj; auto; lia|auto].
  - apply rem_256_inj; auto; lia.
  - apply rem_256_inj; auto. apply Z.div_pos; lia.
  - apply rem_256_inj; auto.
    destruct (paeth_cases a b c) as [->|[->| ->]]; lia.
Qed.

(** Every offset of the payload is a filter byte or a channel of a pixel. *)
Lemma offset_cases w k :
  0 < w -> 0 <= k ->
  exists r, 0 <= r /\
    (k = r * (w * 4 + 1) \/
     exists j idx, 0 <= j < w /\ 0 <= idx < 4 /\
                   k = r * (w * 4 + 1) + 1 + 4 * j + idx).
Proof.
  intros Hw Hk. exists (k / (w * 4 + 1)).
  pose proof (Z.div_mod k (w * 4 + 1) ltac:(lia)) as D.
  pose proof (Z.mod_pos_bound k (w * 4 + 1) ltac:(lia)) as B.
  split; [apply Z.div_pos; lia|].
  set (r := k / (w * 4 + 1)) in *. set (m := k mod (w * 4 + 1)) in *.
  destruct (Z.eq_dec m 0) as [E|N]; [left; lia|right].
  exists ((m - 1) / 4), ((m - 1) mod 4).
  pose proof (Z.div_mod (m - 1) 4 ltac:(lia)).
  pose proof (Z.mod_pos_bound (m - 1) 4 ltac:(lia)).
  assert (0 <= (m - 1) / 4) by (apply Z.div_pos; lia).
  repeat split; lia.
Qed.

(** X5. Two byte payloads of the same length that [reverseFiltering] turns
    into the same grid, for the same width, are the same payload: the
    filtered bytes can be recovered from the grid. *)
Theorem defilter_injective (a1 a2 : list Z) (w : Z) (g : grid) :
  0 < w -> Forall byte a1 -> Forall byte a2 -> len a1 = len a2 ->
  reverseFiltering a1 w = Some (Ret g) ->
  reverseFiltering a2 w = Some (Ret g) ->
  a1 = a2.
Proof.
  intros Hw B1 B2 Hlen E1 E2.
  destruct (reverseFiltering_run a1 w Hw) as [(ag & E & X1)|[E _]];
    [|congruence].
  rewrite E1 in E. injection E as ->.
  destruct (reverseFiltering_run a2 w Hw) as [(ag2 & E & X2)|[E _]];
    [|congruence].
  rewrite E2 in E. injection E as E. apply map_conc_inj in E as <-.
  apply get_ext. intros k Hk.
  destruct (Z.lt_ge_cases k (len a1)) as [Lt|Ge];
    [|rewrite !get_none by lia; reflexivity].
  destruct (offset_cases w k Hw Hk) as (r & Hr & [->|(j & idx & Hj & Hidx & ->)]).
  - destruct (exit_row a1 w Hw ag r X1 Hr Lt) as [a Ha].
    destruct X1 as [O1 _], X2 as [O2 _].
    now rewrite (ok_fb _ _ _ O1 _ _ Ha), (ok_fb _ _ _ O2 _ _ Ha).
  - assert (0 <= r * (w * 4 + 1)) by (apply Z.mul_nonneg_nonneg; lia).
    destruct (get_defined a1 (r * (w * 4 + 1) + 1 + 4 * j + idx)) as [x1 G1];
      [lia|].
    destruct (get_defined a2 (r * (w * 4 + 1) + 1 + 4 * j + idx)) as [x2 G2];
      [lia|].
    rewrite G1, G2. f_equal.
    destruct (exit_channel a1 w Hw ag r j idx x1 X1 Hr Hj Hidx G1)
      as (a & p & Ha & Hp & Hfb & Hv).
    destruct (exit_channel a2 w Hw ag r j idx x2 X2 Hr Hj Hidx G2)
      as (a' & p' & Ha' & Hp' & _ & Hv').
    rewrite Ha in Ha'. injection Ha' as <-.
    rewrite Hp in Hp'. injection Hp' as <-.
    rewrite Hv in Hv'. injection Hv' as Hv'.
    pose proof (exit_valid a1 w Hw ag r (fst a) X1 Hr Hfb).
    destruct X1 as [O1 _].
    apply (recon_inj (fst a) j x1 x2 (nb ag r (j - 1) idx)
             (nb ag (r - 1) j idx) (nb ag (r - 1) (j - 1) idx));
      try (apply (nb_byte a1 w ag); assumption); try assumption.
    + apply (proj1 (Forall_forall _ _) B1), (get_In _ _ _ G1).
    + apply (proj1 (Forall_forall _ _) B2), (get_In _ _ _ G2).
Qed.

(** A payload compared with itself. *)
Lemma defilter_injective_witness :
  [4; 9; 8; 7; 6; 2; 1; 1; 1; 1] = [4; 9; 8; 7; 6; 2; 1; 1; 1; 1].
Proof.
  apply (defilter_injective _ _ 1 [[Num 4; Px [9; 8; 7; 6]];
                                    [Num 2; Px [10; 9; 8; 7]]]);
    try reflexivity; try lia; repeat constructor; unfold byte; lia.
Defined.


End DefilterMore.

(** ** SubImageExtractor: more facts on slices, rounding and the row loop *)

Module SubImageMore.
Import SubImage SubImageFacts.

(** [slice] with a start that is not negative. *)
Lemma slice_len_from {A} (l : list A) s e :
  0 <= s <= e -> len (slice l s e) = Z.min e (len l) - Z.min s (len l).
Proof.
  intros H. unfold slice.
  destruct (s <? 0) eqn:E; [apply Z.ltb_lt in E; lia|].
  destruct (e <? 0) eqn:E'; [apply Z.ltb_lt in E'; lia|].
  unfold len. rewrite length_firstn, length_skipn. lia.
Qed.

Lemma slice_get_from {A} (l : list A) s e c :
  0 <= s <= e -> 0 <= c < e - s -> get (slice l s e) c = get l (s + c).
Proof.
  intros H Hc. unfold slice, get.
  destruct (s <? 0) eqn:E; [apply Z.ltb_lt in E; lia|].
  destruct (e <? 0) eqn:E'; [apply Z.ltb_lt in E'; lia|].
  destruct (c <? 0) eqn:E1; [apply Z.ltb_lt in E1; lia|].
  destruct (s + c <? 0) eqn:E2; [apply Z.ltb_lt in E2; lia|].
  rewrite nth_error_firstn.
  destruct (Nat.ltb_spec (Z.to_nat c)
              (Z.to_nat (Z.min e (len l) - Z.min s (len l)))) as [L|L].
  - rewrite nth_error_skipn. f_equal. lia.
  - symmetry. apply nth_error_None. unfold len in *. lia.
Qed.

Lemma Qfloor_eq q z :
  (inject_Z z <= q)%Q -> (q < inject_Z (z + 1))%Q -> Qfloor q = z.
Proof.
  intros L U.
  pose proof (Qfloor_resp_le _ _ L) as A. rewrite Qfloor_Z in A.
  pose proof (Qfloor_le q) as B.
  assert (inject_Z (Qfloor q) < inject_Z (z + 1))%Q as C by lra.
  rewrite <- Zlt_Qlt in C. lia.
Qed.

Lemma Qfloor_shift z q : Qfloor (inject_Z z + q) = z + Qfloor q.
Proof.
  pose proof (Qfloor_le q). pose proof (Qlt_floor q).
  apply Qfloor_eq; rewrite ?inject_Z_plus in *; lra.
Qed.

Lemma Qceiling_shift q z : Qceiling (q + inject_Z z) = Qceiling q + z.
Proof.
  unfold Qceiling.
  rewrite (Qfloor_comp (- (q + inject_Z z)) (inject_Z (- z) + - q))
    by (rewrite inject_Z_opp; ring).
  rewrite Qfloor_shift. lia.
Qed.

Lemma Qceiling_pos q : (0 < q)%Q -> 0 < Qceiling q.
Proof.
  intros H. pose proof (Qle_ceiling q) as C.
  assert (inject_Z 0 < inject_Z (Qceiling q))%Q as L
      by (change (inject_Z 0) with 0%Q; lra).
  now rewrite <- Zlt_Qlt in L.
Qed.

(** The loop test [i < bound] at a whole [i]. *)
Lemma Qltb_ceiling i z bound :
  (i == inject_Z z)%Q -> Qltb i bound = (z <? Qceiling bound).
Proof.
  intros Hi. unfold Qltb.
  pose proof (Qle_ceiling bound) as U. pose proof (Qceiling_lt bound) as L.
  destruct (Z.ltb_spec z (Qceiling bound)) as [C|C].
  - apply negb_true_iff. destruct (Qle_bool bound i) eqn:E; [|reflexivity].
    apply Qle_bool_iff in E. rewrite Hi in E.
    assert (inject_Z z <= inject_Z (Qceiling bound - 1))%Q
      by (rewrite <- Zle_Qle; lia).
    lra.
  - apply negb_false_iff. apply Qle_bool_iff. rewrite Hi.
    assert (inject_Z (Qceiling bound) <= inject_Z z)%Q
      by (rewrite <- Zle_Qle; lia).
    lra.
Qed.

(** A requested row that is no array ends the loop with the wrapped error. *)
Lemma rows_loop_missing rows b bound from to :
  (bound == inject_Z b)%Q ->
  forall fuel z i acc,
    (i == inject_Z z)%Q -> b - z <= Z.of_nat fuel ->
    (exists k, z <= k < b /\ forall row, get rows k <> Some (VArr row)) ->
    rows_loop fuel rows i bound from to acc
    = Some (Throw (Err (SubImageExtractionError TypeError))).
Proof.
  intros Hb. induction fuel as [|fuel IH];
    intros z i acc Hi Hfuel (k & Hk & Hno); [lia|].
  cbn [rows_loop]. rewrite (Qltb_int i z bound b Hi Hb).
  assert ((z <? b) = true) as -> by (apply Z.ltb_lt; lia).
  rewrite (index_int rows i z Hi).
  destruct (get rows z) as [[| |row]|] eqn:G; try reflexivity.
  apply (IH (z + 1)); [now apply succ_int|lia|].
  exists k. split; [|assumption].
  destruct (Z.eq_dec k z) as [->|]; [elim (Hno row G)|lia].
Qed.

End SubImageMore.

(** ** SubImageExtractor on JavaScript values: facts on the checks and on
    the row loop *)

Module ExtractFacts.
Import Extract SubImageFacts SubImageMore.
Import String.StringSyntax.
#[local] Delimit Scope string_scope with string.

(** *** Sums that are exact *)

Lemma Qred_whole z : Qred (inject_Z z) = inject_Z z.
Proof.
  unfold Qred, inject_Z.
  pose proof (Z.ggcd_correct_divisors z 1) as D.
  pose proof (Z.ggcd_gcd z 1) as G.
  destruct (Z.ggcd z 1) as (g & aa & bb). cbn [fst snd] in *.
  rewrite Z.gcd_1_r in G. subst g. destruct D as [D1 D2].
  assert (aa = z) as -> by lia. assert (bb = 1) as -> by lia.
  reflexivity.
Qed.

Lemma exact_whole q z :
  (q == inject_Z z)%Q -> Z.abs z <= two53 -> exact q = true.
Proof.
  intros H B. unfold exact.
  rewrite (Qred_complete _ _ H), Qred_whole. cbn [Qnum Qden inject_Z].
  apply Z.leb_le in B. rewrite B. reflexivity.
Qed.

Lemma add_exact x y :
  exact (x + y) = true -> add (Fin x) (Fin y) = Fin (x + y).
Proof. intros H. cbn [add]. unfold round. now rewrite H. Qed.

Lemma add_whole x y a b :
  (x == inject_Z a)%Q -> (y == inject_Z b)%Q -> Z.abs (a + b) <= two53 ->
  add (Fin x) (Fin y) = Fin (x + y) /\
  (x + y == inject_Z (a + b))%Q.
Proof.
  intros Hx Hy Bs.
  assert (x + y == inject_Z (a + b))%Q as Hs
      by (rewrite Hx, Hy, inject_Z_plus; reflexivity).
  split; [|exact Hs]. apply add_exact. now apply (exact_whole _ _ Hs).
Qed.

(** A number that passes [exact] is at most [2^53] in size. *)
Lemma exact_bound q :
  exact q = true -> (inject_Z (- two53) <= q <= inject_Z two53)%Q.
Proof.
  unfold exact. intros H.
  apply andb_prop in H as [H _]. apply andb_prop in H as [H _].
  apply Z.leb_le in H.
  rewrite <- (Qred_correct q). destruct (Qred q) as [n d].
  cbn [Qnum] in H. unfold Qle, inject_Z. cbn [Qnum Qden].
  rewrite !Z.mul_1_r. nia.
Qed.

Lemma exact_ceiling q : exact q = true -> - two53 <= Qceiling q <= two53.
Proof.
  intros H. apply exact_bound in H as [L U].
  apply Qceiling_resp_le in L, U. now rewrite Qceiling_Z in L, U.
Qed.

(** *** The loop test and the row looked up, at a whole [i] *)

Lemma lt_ceiling i z bound :
  (i == inject_Z z)%Q -> lt (Fin i) (Fin bound) = (z <? Qceiling bound).
Proof. intros H. apply (Qltb_ceiling i z bound H). Qed.

Lemma index_whole rows i z :
  (i == inject_Z z)%Q -> index rows (Fin i) = row_at rows z.
Proof.
  intros Hi. unfold index, row_at.
  assert (Qfloor i = z) as -> by (rewrite Hi; apply Qfloor_Z).
  assert (Qeq_bool (inject_Z z) i = true) as ->
      by (apply Qeq_bool_iff; now symmetry).
  reflexivity.
Qed.

Lemma index_fraction rows i :
  ~ (exists z, (i == inject_Z z)%Q) -> index rows (Fin i) = VUndef.
Proof.
  intros H. unfold index.
  destruct (Qeq_bool (inject_Z (Qfloor i)) i) eqn:E; [|reflexivity].
  apply Qeq_bool_iff in E. elim H. exists (Qfloor i). now symmetry.
Qed.

Lemma row_at_sliceable rows k :
  sliceable (row_at rows k) = true -> 0 <= k < len rows.
Proof.
  unfold row_at. destruct (get rows k) eqn:G; [|discriminate].
  intros _. now apply get_range in G.
Qed.

Lemma to_integer_whole n q z :
  (q == inject_Z z)%Q -> to_integer n (Fin q) = z.
Proof. intros H. cbn [to_integer]. now apply truncate_comp. Qed.

(** *** The row loop *)

(** The loop throws nothing but the wrapped error of line 338. *)
Lemma loop_throws fuel : forall rows i bound xm tw acc e,
  rows_loop fuel rows i bound xm tw acc = Some (Throw e) ->
  e = Err (SubImageExtractionError TypeError).
Proof.
  induction fuel as [|fuel IH]; intros rows i bound xm tw acc e;
    cbn [rows_loop]; destruct (lt i bound); try discriminate.
  destruct (sliceable (index rows i)); [apply IH|congruence].
Qed.

(** What it returns begins with what it was given. *)
Lemma loop_returns fuel : forall rows i bound xm tw acc out,
  rows_loop fuel rows i bound xm tw acc = Some (Ret out) ->
  exists rest, out = acc ++ rest.
Proof.
  induction fuel as [|fuel IH]; intros rows i bound xm tw acc out;
    cbn [rows_loop]; destruct (lt i bound); try discriminate;
    try (intros H; injection H as <-; exists []; now rewrite app_nil_r).
  destruct (sliceable (index rows i)); [|discriminate].
  intros H. apply IH in H as [rest ->]. rewrite <- app_assoc. eauto.
Qed.

(** A row that has [slice] lies in the array, at a whole index. *)
Lemma index_sliceable rows i :
  sliceable (index rows i) = true ->
  exists q z, i = Fin q /\ (q == inject_Z z)%Q /\ 0 <= z < len rows.
Proof.
  destruct i as [| |q]; try discriminate. unfold index.
  destruct (Qeq_bool (inject_Z (Qfloor q)) q) eqn:E; [|discriminate].
  apply Qeq_bool_iff in E.
  destruct (get rows (Qfloor q)) eqn:G; [|discriminate].
  intros _. exists q, (Qfloor q). apply get_range in G.
  split; [reflexivity|]. split; [now symmetry|assumption].
Qed.

(** With one pass more than the grid has rows, the fuel is never spent on
    a grid of at most [2^53] rows. *)
Lemma rows_loop_ends rows bound xm tw :
  len rows <= two53 ->
  forall fuel i acc,
    (forall q z, i = Fin q -> (q == inject_Z z)%Q -> 0 <= z < len rows ->
                 len rows - z < Z.of_nat fuel) ->
    (0 < fuel)%nat ->
    rows_loop fuel rows i bound xm tw acc <> None.
Proof.
  intros Hlen. induction fuel as [|fuel IH]; intros i acc Hfuel Hpos; [lia|].
  cbn [rows_loop]. destruct (lt i bound); [|discriminate].
  destruct (sliceable (index rows i)) eqn:Hs; [|discriminate].
  destruct (index_sliceable rows i Hs) as (q & z & -> & Hq & Hz).
  specialize (Hfuel q z eq_refl Hq Hz).
  destruct (add_whole q 1 z 1 Hq ltac:(reflexivity)) as [A E];
    [unfold two53 in *; lia|].
  unfold one. rewrite A. apply IH; [|lia].
  intros q' z' Eq Hq' Hz'. injection Eq as <-.
  assert (z' = z + 1); [|lia].
  rewrite E in Hq'. unfold Qeq in Hq'. cbn in Hq'. lia.
Qed.

Section Loop.
Variables (rows : list value) (bound : Q) (xm tw : num).
Hypothesis bound_ok : Qceiling bound <= two53.

Lemma loop_step fuel i z acc :
  (i == inject_Z z)%Q -> - two53 <= z < Qceiling bound ->
  sliceable (row_at rows z) = true ->
  rows_loop (S fuel) rows (Fin i) (Fin bound) xm tw acc
  = rows_loop fuel rows (Fin (i + 1)) (Fin bound) xm tw
              (acc ++ [slice_row (row_at rows z) (add xm one)
                                 (add (add xm one) tw)]).
Proof.
  intros Hi Hz Hs. cbn [rows_loop].
  rewrite (lt_ceiling i z bound Hi).
  assert ((z <? Qceiling bound) = true) as -> by (apply Z.ltb_lt; lia).
  rewrite (index_whole rows i z Hi), Hs.
  unfold one at 1.
  destruct (add_whole i 1 z 1 Hi ltac:(reflexivity)) as [-> _];
    [unfold two53 in *; lia|].
  reflexivity.
Qed.

(** Rows that have [slice] are sliced one after the other. *)
Lemma loop_in : forall fuel z i acc,
  (i == inject_Z z)%Q -> - two53 <= z <= Qceiling bound ->
  Qceiling bound - z <= Z.of_nat fuel ->
  (forall k, z <= k < Qceiling bound -> sliceable (row_at rows k) = true) ->
  exists out,
    rows_loop fuel rows (Fin i) (Fin bound) xm tw acc = Some (Ret (acc ++ out))
    /\ len out = Qceiling bound - z
    /\ forall k, 0 <= k < Qceiling bound - z ->
         get out k = Some (slice_row (row_at rows (z + k)) (add xm one)
                                     (add (add xm one) tw)).
Proof.
  induction fuel as [|fuel IH]; intros z i acc Hi Hz Hfuel Hrows.
  - exists []. cbn [rows_loop]. rewrite (lt_ceiling i z bound Hi).
    assert (z = Qceiling bound) as -> by lia.
    rewrite Z.ltb_irrefl, app_nil_r.
    split; [reflexivity|]. split; [change (@len value []) with 0; lia|]. lia.
  - destruct (Z.eq_dec z (Qceiling bound)) as [E|N].
    + exists []. cbn [rows_loop]. rewrite (lt_ceiling i z bound Hi), E.
      rewrite Z.ltb_irrefl, app_nil_r.
      split; [reflexivity|]. split; [change (@len value []) with 0; lia|]. lia.
    + rewrite (loop_step fuel i z acc Hi) by (try apply Hrows; lia).
      destruct (IH (z + 1) (i + 1)%Q
                   (acc ++ [slice_row (row_at rows z) (add xm one)
                                      (add (add xm one) tw)]))
        as (out & E & Hlen & Hout);
        [now apply succ_int|lia|lia|intros; apply Hrows; lia|].
      exists (slice_row (row_at rows z) (add xm one) (add (add xm one) tw)
              :: out).
      rewrite E, <- app_assoc. split; [reflexivity|].
      split; [unfold len in *; cbn [length]; lia|].
      intros k Hk. destruct (Z.eq_dec k 0) as [->|Nk].
      * now rewrite Z.add_0_r.
      * replace (z + k) with (z + 1 + (k - 1)) by lia.
        rewrite <- (Hout (k - 1)) by lia.
        replace k with (k - 1 + 1) at 1 by lia. now rewrite get_tail by lia.
Qed.

(** A row without [slice] within reach ends the loop with the wrapped
    error. *)
Lemma loop_missing : forall fuel z i acc,
  (i == inject_Z z)%Q -> - two53 <= z ->
  (exists k, z <= k < Qceiling bound /\ k - z < Z.of_nat fuel /\
             sliceable (row_at rows k) = false) ->
  rows_loop fuel rows (Fin i) (Fin bound) xm tw acc
  = Some (Throw (Err (SubImageExtractionError TypeError))).
Proof.
  induction fuel as [|fuel IH]; intros z i acc Hi Hz (k & Hk & Hf & Hbad);
    [lia|].
  destruct (sliceable (row_at rows z)) eqn:Hs.
  - rewrite (loop_step fuel i z acc Hi) by (auto; lia).
    apply (IH (z + 1)); [now apply succ_int|lia|].
    exists k. destruct (Z.eq_dec k z) as [->|]; [congruence|].
    split; [lia|]. split; [lia|assumption].
  - cbn [rows_loop]. rewrite (lt_ceiling i z bound Hi).
    assert ((z <? Qceiling bound) = true) as -> by (apply Z.ltb_lt; lia).
    now rewrite (index_whole rows i z Hi), Hs.
Qed.

(** A row without [slice] in the range asked for is met before the array
    ends. *)
Lemma bad_row_near z :
  (exists k, z <= k < Qceiling bound /\ sliceable (row_at rows k) = false) ->
  exists k, z <= k < Qceiling bound /\ k - z < Z.of_nat (S (length rows)) /\
            sliceable (row_at rows k) = false.
Proof.
  intros (k & Hk & Hbad).
  assert (forall j, ~ 0 <= j < len rows -> sliceable (row_at rows j) = false)
    as Hout.
  { intros j Hj. destruct (sliceable (row_at rows j)) eqn:E; [|reflexivity].
    apply row_at_sliceable in E. contradiction. }
  unfold len in *.
  destruct (Z_lt_le_dec z 0) as [Neg|Pos].
  - exists z. repeat split; try lia. apply Hout. lia.
  - destruct (Z_le_gt_dec k (Z.of_nat (length rows))) as [Near|Far].
    + exists k. repeat split; try lia. assumption.
    + destruct (Z_lt_le_dec z (Z.of_nat (length rows))) as [In|Out].
      * exists (Z.of_nat (length rows)). repeat split; try lia.
        apply Hout. lia.
      * exists z. repeat split; try lia. apply Hout. lia.
Qed.

End Loop.

(** *** The checks of lines 323 and 326 *)

Lemma is_number_num v : is_number v = true <-> exists n, v = VNum n.
Proof.
  destruct v; cbn; split; try discriminate; try (intros [? ?]; discriminate);
    eauto.
Qed.

Lemma tile_accepted ts tw th :
  accepted_tile ts tw th -> tile_rejected ts = Ret false.
Proof.
  intros (fields & -> & Hx & Hy & Lx & Ly).
  unfold tile_rejected. cbn [is_object typeof has prop bind negb].
  change (String.eqb "object"%string "object"%string) with true. cbn [negb].
  rewrite Hx, Hy. cbn [bind negb is_number typeof le0].
  change (String.eqb "number"%string "number"%string) with true. cbn [negb orb].
  now rewrite Lx, Ly.
Qed.

Lemma tile_not_accepted ts :
  ts <> VNull -> ~ (exists tw th, accepted_tile ts tw th) ->
  tile_rejected ts = Ret true.
Proof.
  intros Hn Hno. unfold tile_rejected.
  destruct ts as [| |b|n|u|l|l|fields]; try reflexivity; [congruence|].
  cbn [is_object typeof has prop bind negb].
  change (String.eqb "object"%string "object"%string) with true. cbn [negb].
  destruct (lookup fields "x"%string) as [vx|] eqn:Hx; [|reflexivity].
  destruct (lookup fields "y"%string) as [vy|] eqn:Hy; [|reflexivity].
  cbn [negb bind]. f_equal.
  destruct vx as [| |b|tw|u|l|l|f]; try reflexivity.
  destruct vy as [| |b|th|u|l|l|f]; try reflexivity.
  cbn [is_number typeof le0].
  change (String.eqb "number"%string "number"%string) with true. cbn [negb orb].
  destruct (le tw zero) eqn:Lx; [reflexivity|].
  destruct (le th zero) eqn:Ly; [reflexivity|].
  elim Hno. exists tw, th, fields. auto.
Qed.

Lemma tile_null : tile_rejected VNull = Throw (Fault TypeError).
Proof. reflexivity. Qed.

Lemma margins_accepted m xm ym :
  accepted_margins m xm ym -> margins_rejected m = Ret false.
Proof.
  intros (fields & -> & Hx & Hy).
  unfold margins_rejected. cbn [is_object typeof prop bind negb].
  change (String.eqb "object"%string "object"%string) with true. cbn [negb].
  rewrite Hx, Hy. reflexivity.
Qed.

Lemma margins_not_accepted m :
  m <> VNull -> ~ (exists xm ym, accepted_margins m xm ym) ->
  margins_rejected m = Ret true.
Proof.
  intros Hn Hno. unfold margins_rejected.
  destruct m as [| |b|n|u|l|l|fields]; try reflexivity; [congruence|].
  cbn [is_object typeof prop bind negb].
  change (String.eqb "object"%string "object"%string) with true. cbn [negb].
  destruct (lookup fields "xMargin"%string) as [vx|] eqn:Hx; [|reflexivity].
  destruct vx as [| |b|xm|u|l|l|f]; try reflexivity.
  destruct (lookup fields "yMargin"%string) as [vy|] eqn:Hy; [|reflexivity].
  destruct vy as [| |b|ym|u|l|l|f]; try reflexivity.
  elim Hno. exists xm, ym, fields. auto.
Qed.

Lemma margins_null : margins_rejected VNull = Throw (Fault TypeError).
Proof. reflexivity. Qed.

(** [subImage] once both checks are passed. *)
Lemma subImage_accepted rows ts m tw th xm ym :
  accepted_tile ts tw th -> accepted_margins (given_margins m) xm ym ->
  subImage (VArr rows) ts m
  = match rows_loop (S (length rows)) rows ym (add th ym) xm tw
                    [VNum zero] with
    | Some (Ret out) => Some (Ret (VArr out))
    | Some (Throw e) => Some (Throw e)
    | None => None
    end.
Proof.
  intros Ht Hm. unfold subImage. fold (given_margins m).
  rewrite (tile_accepted _ _ _ Ht), (margins_accepted _ _ _ Hm).
  destruct Ht as (ft & -> & Hx & Hy & _).
  destruct Hm as (fm & -> & Hxm & Hym).
  cbn [prop]. now rewrite Hx, Hy, Hxm, Hym.
Qed.

Lemma accepted_pair x y :
  le x zero = false -> le y zero = false ->
  accepted_tile (tile (VNum x) (VNum y)) x y.
Proof. intros Hx Hy. exists [("x"%string, VNum x); ("y"%string, VNum y)]. auto. Qed.

Lemma accepted_margin_pair m xm ym :
  m = margin_pair (VNum xm) (VNum ym) ->
  accepted_margins (given_margins m) xm ym.
Proof.
  intros ->. exists [("xMargin"%string, VNum xm); ("yMargin"%string, VNum ym)].
  auto.
Qed.

Lemma le_zero_whole z : le (Fin (inject_Z z)) zero = false <-> 0 < z.
Proof.
  cbn [le zero]. split.
  - intros E. destruct (Z_lt_le_dec 0 z) as [|L]; [assumption|].
    assert (Qle_bool (inject_Z z) 0 = true); [|congruence].
    apply Qle_bool_iff. change 0%Q with (inject_Z 0). now rewrite <- Zle_Qle.
  - apply positive_int.
Qed.

Lemma le_zero_positive q : (0 < q)%Q -> le (Fin q) zero = false.
Proof.
  intros H. cbn [le zero]. destruct (Qle_bool q 0) eqn:E; [|reflexivity].
  apply Qle_bool_iff in E. lra.
Qed.

End ExtractFacts.

(** ** SubImageExtractor: the properties of the specification, on
    JavaScript values *)

Module ExtractSpec.
Import Extract SubImageFacts SubImageMore ExtractFacts.
Import String.StringSyntax.
#[local] Delimit Scope string_scope with string.

(** The three ways the first check can go. *)
Lemma tile_cases ts :
  (ts = VNull /\ tile_rejected ts = Throw (Fault TypeError)) \/
  ((exists tw th, accepted_tile ts tw th) /\ tile_rejected ts = Ret false) \/
  (ts <> VNull /\ ~ (exists tw th, accepted_tile ts tw th) /\
   tile_rejected ts = Ret true).
Proof.
  assert (forall fields,
            (exists tw th, accepted_tile (VObj fields) tw th) \/
            ~ (exists tw th, accepted_tile (VObj fields) tw th)) as D.
  { intros fields.
    destruct (lookup fields "x"%string) as [[| |b|tw|u|l|l|f]|] eqn:Hx;
      try (right; intros (? & ? & ? & E & Hx' & _); injection E as <-;
           congruence).
    destruct (lookup fields "y"%string) as [[| |b|th|u|l|l|f]|] eqn:Hy;
      try (right; intros (? & ? & ? & E & _ & Hy' & _); injection E as <-;
           congruence).
    destruct (le tw zero) eqn:Lx;
      [right; intros (? & ? & ? & E & Hx' & _ & Lx' & _); injection E as <-;
       congruence|].
    destruct (le th zero) eqn:Ly;
      [right; intros (? & ? & ? & E & _ & Hy' & _ & Ly'); injection E as <-;
       congruence|].
    left. exists tw, th, fields. auto. }
  destruct ts as [| |b|n|u|l|l|fields];
    try (right; right; split; [discriminate|];
         split; [intros (? & ? & ? & E & _); discriminate|reflexivity]).
  - left. split; reflexivity.
  - destruct (D fields) as [(tw & th & A)|N].
    + right; left. split; [eauto|]. now apply (tile_accepted _ tw th).
    + right; right. split; [discriminate|]. split; [exact N|].
      apply tile_not_accepted; [discriminate|exact N].
Qed.

Lemma margins_cases m :
  (m = VNull /\ margins_rejected m = Throw (Fault TypeError)) \/
  ((exists xm ym, accepted_margins m xm ym) /\ margins_rejected m = Ret false)
  \/
  (m <> VNull /\ ~ (exists xm ym, accepted_margins m xm ym) /\
   margins_rejected m = Ret true).
Proof.
  assert (forall fields,
            (exists xm ym, accepted_margins (VObj fields) xm ym) \/
            ~ (exists xm ym, accepted_margins (VObj fields) xm ym)) as D.
  { intros fields.
    destruct (lookup fields "xMargin"%string) as [[| |b|xm|u|l|l|f]|] eqn:Hx;
      try (right; intros (? & ? & ? & E & Hx' & _); injection E as <-;
           congruence).
    destruct (lookup fields "yMargin"%string) as [[| |b|ym|u|l|l|f]|] eqn:Hy;
      try (right; intros (? & ? & ? & E & _ & Hy'); injection E as <-;
           congruence).
    left. exists xm, ym, fields. auto. }
  destruct m as [| |b|n|u|l|l|fields];
    try (right; right; split; [discriminate|];
         split; [intros (? & ? & ? & E & _); discriminate|reflexivity]).
  - left. split; reflexivity.
  - destruct (D fields) as [(xm & ym & A)|N].
    + right; left. split; [eauto|]. now apply (margins_accepted _ xm ym).
    + right; right. split; [discriminate|]. split; [exact N|].
      apply margins_not_accepted; [discriminate|exact N].
Qed.

(** Past both checks, only the loop can throw. *)
Lemma subImage_past_checks rows ts m tw th xm ym r :
  accepted_tile ts tw th -> accepted_margins (given_margins m) xm ym ->
  subImage (VArr rows) ts m = Some r ->
  (exists out, r = Ret (VArr (VNum zero :: out))) \/
  r = Throw (Err (SubImageExtractionError TypeError)).
Proof.
  intros Ht Hm. rewrite (subImage_accepted rows ts m tw th xm ym Ht Hm).
  destruct (rows_loop _ _ _ _ _ _ _) as [[out|e]|] eqn:E; [| |discriminate];
    intros H; injection H as <-.
  - left. apply loop_returns in E as [rest ->]. exists rest. reflexivity.
  - right. now rewrite (loop_throws _ _ _ _ _ _ _ _ E).
Qed.

Lemma ceiling_of_sum th yM :
  Qceiling (th + inject_Z yM) = Qceiling th + yM.
Proof. apply Qceiling_shift. Qed.

Lemma positive_of_le q : le (Fin q) zero = false -> (0 < q)%Q.
Proof.
  cbn [le zero]. intros E. apply Qnot_le_lt. intros L.
  apply Qle_bool_iff in L. congruence.
Qed.

(** The arguments of [slice] for whole numbers. *)
Lemma slice_args_whole xM tw :
  small xM -> small tw ->
  add (Fin (inject_Z xM)) one = Fin (inject_Z xM + 1) /\
  add (Fin (inject_Z xM + 1)) (Fin (inject_Z tw))
  = Fin (inject_Z xM + 1 + inject_Z tw) /\
  (inject_Z xM + 1 == inject_Z (xM + 1))%Q /\
  (inject_Z xM + 1 + inject_Z tw == inject_Z (xM + 1 + tw))%Q.
Proof.
  unfold small. intros Hx Hw.
  destruct (add_whole (inject_Z xM) 1 xM 1) as [A1 E1];
    try reflexivity; [unfold two53; lia|].
  destruct (add_whole (inject_Z xM + 1) (inject_Z tw) (xM + 1) tw) as [A2 E2];
    try reflexivity; try assumption; [unfold two53; lia|].
  unfold one. auto.
Qed.

(** The bound of the loop for whole numbers. *)
Lemma bound_whole th yM :
  small th -> small yM ->
  add (Fin (inject_Z th)) (Fin (inject_Z yM))
  = Fin (inject_Z th + inject_Z yM) /\
  Qceiling (inject_Z th + inject_Z yM) = th + yM.
Proof.
  unfold small. intros Hh Hy.
  destruct (add_whole (inject_Z th) (inject_Z yM) th yM) as [A E];
    try reflexivity; [unfold two53; lia|].
  split; [exact A|]. rewrite (Qceiling_comp _ _ E). apply Qceiling_Z.
Qed.

(** C7, as the code has it.  For a tile height that is a positive whole
    number and a whole [yMargin], neither beyond [2^51] in size (so that
    their sum is exact in doubles): rows that reach outside the grid
    ([yMargin] negative, or [tileSize.y + yMargin] beyond the row count)
    make [subImage] throw "Error trying to get subimage. ...", which wraps
    the TypeError of the missing row, whatever the columns asked for. *)
Theorem rows_out_of_range (rows : list value) (ts m : value)
    (tw xm : num) (th yM : Z) :
  accepted_tile ts tw (Fin (inject_Z th)) ->
  accepted_margins (given_margins m) xm (Fin (inject_Z yM)) ->
  small th -> small yM ->
  yM < 0 \/ len rows < th + yM ->
  subImage (VArr rows) ts m
  = Some (Throw (Err (SubImageExtractionError TypeError))).
Proof.
  intros Ht Hm Sh Sy Hout.
  assert (0 < th) as Hh
      by (destruct Ht as (_ & _ & _ & _ & _ & L); now apply le_zero_whole in L).
  rewrite (subImage_accepted rows ts m _ _ _ _ Ht Hm).
  destruct (bound_whole th yM Sh Sy) as [-> C].
  unfold small in *.
  rewrite (loop_missing rows (inject_Z th + inject_Z yM) xm tw
             ltac:(rewrite C; unfold two53; lia)
             (S (length rows)) yM (inject_Z yM) [VNum zero]);
    [reflexivity| | |].
  - reflexivity.
  - unfold two53. lia.
  - apply (bad_row_near rows (inject_Z th + inject_Z yM)).
    rewrite C.
    assert (forall j, ~ 0 <= j < len rows -> sliceable (row_at rows j) = false)
      as Hmiss.
    { intros j Hj. destruct (sliceable (row_at rows j)) eqn:E; [|reflexivity].
      apply row_at_sliceable in E. contradiction. }
    pose proof (len_nonneg rows).
    destruct (Z_lt_le_dec yM 0) as [Neg|Pos].
    + exists yM. split; [lia|]. apply Hmiss. lia.
    + exists (Z.max yM (len rows)). split; [lia|]. apply Hmiss. lia.
Qed.

(** A tile two rows high at row 1 of a grid of two rows. *)
Lemma rows_out_of_range_witness :
  subImage (VArr [VArr [whole 0; VArr [whole 1]]; VArr [whole 0; VArr [whole 2]]])
           (tile (whole 1) (whole 2)) (margin_pair (whole 0) (whole 1))
  = Some (Throw (Err (SubImageExtractionError TypeError))).
Proof.
  apply (rows_out_of_range _ _ _ (Fin (inject_Z 1)) (Fin (inject_Z 0)) 2 1);
    try (unfold small; lia).
  - now apply accepted_pair.
  - now apply accepted_margin_pair.
  - right. change (len [VArr [whole 0; VArr [whole 1]];
                         VArr [whole 0; VArr [whole 2]]]) with 2. lia.
Defined.

(** C7 as stated fails on columns: a tile three pixels wide taken from a row
    of two pixels is returned with two pixels, and nothing is thrown. *)
Lemma columns_truncated :
  subImage (VArr [VArr [whole 0; VArr [whole 1]; VArr [whole 2]]])
           (tile (whole 3) (whole 1)) (margin_pair (whole 0) (whole 0))
  = Some (Ret (VArr [whole 0; VArr [VArr [whole 1]; VArr [whole 2]]])).
Proof. vm_compute. reflexivity. Qed.

(** C8, as the code has it.  For an array grid, "Invalid tileSize" is
    thrown exactly when [tileSize] is not [null] and is not an object with
    numbers [x] and [y] of which neither is [<= 0]; a [tileSize] of [null]
    ends in a TypeError of the runtime instead.  "Invalid margins" is thrown
    exactly when the tile size is accepted and [margins] (the default when
    it is [undefined]) is not [null] and is not an object with numbers
    [xMargin] and [yMargin]; [margins] of [null] ends in a TypeError.
    Whether a number is whole is never looked at, and NaN is not [<= 0]. *)
Theorem tile_and_margin_checks (rows : list value) (ts m : value) :
  (subImage (VArr rows) ts m = Some (Throw (Err InvalidTileSize))
   <-> ts <> VNull /\ ~ (exists tw th, accepted_tile ts tw th))
  /\
  (ts = VNull -> subImage (VArr rows) ts m = Some (Throw (Fault TypeError)))
  /\
  (subImage (VArr rows) ts m = Some (Throw (Err InvalidMargins))
   <-> (exists tw th, accepted_tile ts tw th) /\
       given_margins m <> VNull /\
       ~ (exists xm ym, accepted_margins (given_margins m) xm ym))
  /\
  ((exists tw th, accepted_tile ts tw th) -> given_margins m = VNull ->
   subImage (VArr rows) ts m = Some (Throw (Fault TypeError))).
Proof.
  destruct (tile_cases ts) as [[Hn T]|[[(tw & th & Ht) T]|(Hn & Hno & T)]].
  - (* tileSize is null *)
    assert (subImage (VArr rows) ts m = Some (Throw (Fault TypeError))) as E
        by (unfold subImage; now rewrite T).
    rewrite E. subst ts.
    split; [split; [discriminate|intros [N _]; congruence]|].
    split; [reflexivity|].
    split; [split; [discriminate|]|].
    + intros ((? & ? & ? & X & _) & _). discriminate.
    + intros (? & ? & ? & X & _). discriminate.
  - (* tileSize is accepted *)
    assert (ts <> VNull) as Hn
        by (destruct Ht as (? & -> & _); discriminate).
    destruct (margins_cases (given_margins m))
      as [[Mn M]|[[(xm & ym & Hm) M]|(Mn & Mno & M)]].
    + assert (subImage (VArr rows) ts m = Some (Throw (Fault TypeError))) as E
          by (unfold subImage; fold (given_margins m); now rewrite T, M).
      rewrite E.
      split; [split; [discriminate|intros [_ N]; elim N; eauto]|].
      split; [congruence|].
      split; [split; [discriminate|intros (_ & N & _); congruence]|].
      reflexivity.
    + split; [split|split; [congruence|split; [split|]]].
      * intros E.
        destruct (subImage_past_checks rows ts m _ _ _ _ _ Ht Hm E)
          as [[? ?]|?]; discriminate.
      * intros [_ N]. elim N. eauto.
      * intros E.
        destruct (subImage_past_checks rows ts m _ _ _ _ _ Ht Hm E)
          as [[? ?]|?]; discriminate.
      * intros (_ & _ & N). elim N. eauto.
      * intros _ N. destruct Hm as (? & X & _). congruence.
    + assert (subImage (VArr rows) ts m = Some (Throw (Err InvalidMargins)))
        as E by (unfold subImage; fold (given_margins m); now rewrite T, M).
      rewrite E.
      split; [split; [discriminate|intros [_ N]; elim N; eauto]|].
      split; [congruence|].
      split; [split; [intros _; eauto|reflexivity]|].
      intros _ N. congruence.
  - (* tileSize is rejected *)
    assert (subImage (VArr rows) ts m = Some (Throw (Err InvalidTileSize)))
      as E by (unfold subImage; now rewrite T).
    rewrite E.
    split; [split; [auto|reflexivity]|].
    split; [congruence|].
    split; [split; [discriminate|intros [A _]; contradiction]|].
    intros A. contradiction.
Qed.

(** C8 as stated fails: a tile 2.5 pixels wide is no positive integer and a
    margin of 0.5 is no integer, yet neither is rejected by the checks. *)
Lemma fractions_accepted :
  ~ (exists z, (5 # 2 == inject_Z z)%Q) /\
  subImage (VArr [VArr [whole 0; VArr [whole 1]; VArr [whole 2]; VArr [whole 3]]])
           (tile (VNum (Fin (5 # 2))) (whole 1))
           (margin_pair (whole 0) (whole 0))
  = Some (Ret (VArr [whole 0; VArr [VArr [whole 1]; VArr [whole 2]]])) /\
  ~ (exists z, (1 # 2 == inject_Z z)%Q) /\
  subImage (VArr [VArr [whole 0; VArr [whole 1]; VArr [whole 2]; VArr [whole 3]]])
           (tile (whole 2) (whole 1))
           (margin_pair (VNum (Fin (1 # 2))) (whole 0))
  = Some (Ret (VArr [whole 0; VArr [VArr [whole 1]; VArr [whole 2]]])).
Proof.
  repeat split; try (vm_compute; reflexivity);
    intros [z H]; unfold Qeq in H; cbn in H; lia.
Qed.

(** C9.  For a tile size of positive whole numbers and whole margins, none
    beyond [2^51] in size, [xMargin <= -2] and rows that are all arrays
    inside the grid, [subImage] throws nothing: the slice starts at a
    negative index, so each row returned starts [-(xMargin + 1)] places
    before the end of its source row instead of at column [xMargin]. *)
Theorem negative_x_margin (rows : list value) (ts m : value)
    (tw th xM yM : Z) :
  accepted_tile ts (Fin (inject_Z tw)) (Fin (inject_Z th)) ->
  accepted_margins (given_margins m) (Fin (inject_Z xM)) (Fin (inject_Z yM)) ->
  small tw -> small th -> small xM -> small yM ->
  xM <= -2 ->
  (forall k, yM <= k < yM + th -> exists row, get rows k = Some (VArr row)) ->
  exists out,
    subImage (VArr rows) ts m = Some (Ret (VArr (VNum zero :: out))) /\
    len out = th /\
    forall k, 0 <= k < th ->
      exists row,
        get rows (yM + k) = Some (VArr row) /\
        let first := Z.max (len row + (xM + 1)) 0 in
        let final := if xM + 1 + tw <? 0
                     then Z.max (len row + (xM + 1 + tw)) 0
                     else Z.min (xM + 1 + tw) (len row) in
        get out k
        = Some (VArr (firstn (Z.to_nat (final - first))
                             (skipn (Z.to_nat first) row))).
Proof.
  intros Ht Hm Sw Sh Sx Sy Hx Hrows.
  assert (0 < th) as Hh
      by (destruct Ht as (_ & _ & _ & _ & _ & L); now apply le_zero_whole in L).
  rewrite (subImage_accepted rows ts m _ _ _ _ Ht Hm).
  destruct (bound_whole th yM Sh Sy) as [-> C].
  destruct (slice_args_whole xM tw Sx Sw) as (A1 & A2 & E1 & E2).
  destruct (Hrows yM ltac:(lia)) as [r0 G0]. apply get_range in G0.
  destruct (Hrows (yM + th - 1) ltac:(lia)) as [r1 G1]. apply get_range in G1.
  unfold small in *.
  destruct (loop_in rows (inject_Z th + inject_Z yM)
              (Fin (inject_Z xM)) (Fin (inject_Z tw))
              ltac:(rewrite C; unfold two53; lia)
              (S (length rows)) yM (inject_Z yM) [VNum zero])
    as (out & -> & Hlen & Hout).
  - reflexivity.
  - rewrite C. unfold two53. lia.
  - rewrite C. unfold len in *. lia.
  - rewrite C. intros k Hk. destruct (Hrows k ltac:(lia)) as [row G].
    unfold row_at. now rewrite G.
  - rewrite C in Hlen, Hout. exists out. split; [reflexivity|].
    split; [lia|]. intros k Hk.
    destruct (Hrows (yM + k) ltac:(lia)) as [row G]. exists row.
    split; [exact G|]. cbv zeta. rewrite (Hout k) by lia.
    unfold row_at. rewrite G, A1, A2. cbn [slice_row].
    rewrite (to_integer_whole _ _ _ E1), (to_integer_whole _ _ _ E2).
    unfold slice.
    assert ((xM + 1 <? 0) = true) as -> by (apply Z.ltb_lt; lia).
    reflexivity.
Qed.

(** With [xMargin = -4] and a row of three pixels, the tile of two pixels is
    cut from the first two columns. *)
Lemma negative_x_margin_witness :
  exists out,
    subImage (VArr [VArr [whole 0; VArr [whole 1]; VArr [whole 2];
                          VArr [whole 3]]])
             (tile (whole 2) (whole 1)) (margin_pair (whole (-4)) (whole 0))
    = Some (Ret (VArr (VNum zero :: out))) /\
    get out 0 = Some (VArr [VArr [whole 1]; VArr [whole 2]]).
Proof.
  destruct (negative_x_margin
              [VArr [whole 0; VArr [whole 1]; VArr [whole 2]; VArr [whole 3]]]
              (tile (whole 2) (whole 1)) (margin_pair (whole (-4)) (whole 0))
              2 1 (-4) 0) as (out & E & _ & H);
    try (unfold small; lia).
  - now apply accepted_pair.
  - now apply accepted_margin_pair.
  - intros k Hk. assert (k = 0) as -> by lia. eexists. reflexivity.
  - exists out. split; [exact E|].
    destruct (H 0 ltac:(lia)) as (row & G & G').
    cbv in G. injection G as <-. exact G'.
Defined.

(** Where doubles round, the model rounds with them.  [1 + 2^53] is
    [2^53]: a tile one row high at row [2^53] is no row at all, and nothing
    is thrown.  [1 + (1 - 2^-53)] is 2: a tile that wide has one column.
    [-(2^53 + 2) + 1] is [-2^53]: the slice runs from the start of the row
    to column 2. *)
Example sums_are_rounded :
  subImage (VArr [VArr [whole 0; VArr [whole 1]; VArr [whole 2]]])
           (tile (whole 1) (whole 1))
           (margin_pair (whole 0) (whole 9007199254740992))
  = Some (Ret (VArr [whole 0])) /\
  subImage (VArr [VArr [whole 0; VArr [whole 1]; VArr [whole 2]]])
           (tile (VNum (Fin (9007199254740991 # 9007199254740992))) (whole 1))
           (margin_pair (whole 0) (whole 0))
  = Some (Ret (VArr [whole 0; VArr [VArr [whole 1]]])) /\
  subImage (VArr [VArr [whole 0; VArr [whole 1]; VArr [whole 2]]])
           (tile (whole 9007199254740994) (whole 1))
           (margin_pair (whole (-9007199254740994)) (whole 0))
  = Some (Ret (VArr [whole 0; VArr [whole 0; VArr [whole 1]]])).
Proof. repeat split; vm_compute; reflexivity. Qed.

(** [null] and NaN: a TypeError of the runtime for a [tileSize] of [null];
    a width of NaN is let through and gives empty rows. *)
Example null_and_nan :
  subImage (VArr [VArr [whole 0; VArr [whole 1]]]) VNull VUndef
  = Some (Throw (Fault TypeError)) /\
  subImage (VArr [VArr [whole 0; VArr [whole 1]]])
           (tile (VNum NaN) (whole 1)) VUndef
  = Some (Ret (VArr [whole 0; VArr []])).
Proof. repeat split; vm_compute; reflexivity. Qed.

End ExtractSpec.

(** ** The two readings of [subImage] agree on whole numbers *)

Module ExtractAgrees.
Import SubImageFacts SubImageMore Extract ExtractFacts ExtractSpec.

Lemma slice_map {A B} (f : A -> B) (l : list A) s e :
  slice (map f l) s e = map f (slice l s e).
Proof. unfold slice. now rewrite len_map, skipn_map, firstn_map. Qed.

Lemma row_at_lift rows k :
  row_at (map lift rows) k
  = match get rows k with Some v => lift v | None => VUndef end.
Proof. unfold row_at. rewrite get_map. now destruct (get rows k). Qed.

(** Over a range of rows, all are arrays or one is not. *)
Lemma rows_all_or_one (rows : list SubImage.value) z n :
  (forall k, z <= k < z + Z.of_nat n ->
     exists row, get rows k = Some (SubImage.VArr row)) \/
  (exists k, z <= k < z + Z.of_nat n /\
     forall row, get rows k <> Some (SubImage.VArr row)).
Proof.
  induction n as [|n [All|(k & Hk & Hno)]].
  - left. intros k Hk. lia.
  - destruct (get rows (z + Z.of_nat n)) as [[| |row]|] eqn:G;
      try (right; exists (z + Z.of_nat n); split; [lia|];
           intros row; rewrite G; discriminate).
    left. intros k Hk. destruct (Z.eq_dec k (z + Z.of_nat n)) as [->|];
      [eauto|apply All; lia].
  - right. exists k. split; [lia|assumption].
Qed.

(** For a tile size of positive whole numbers and whole margins, none
    beyond [2^51] in size, the reading of [subImage] in exact arithmetic
    and the one on JavaScript values give the same outcome. *)
Lemma whole_reading (rows : list SubImage.value) (tw th xM yM : Z) :
  0 < tw -> 0 < th -> small tw -> small th -> small xM -> small yM ->
  subImage (VArr (map lift rows)) (tile (whole tw) (whole th))
           (margin_pair (whole xM) (whole yM))
  = match SubImage.subImage (SubImage.VArr rows)
            (SubImage.mkTileSize (SubImage.int tw) (SubImage.int th))
            (SubImage.mkMargins (SubImage.int xM) (SubImage.int yM)) with
    | Some (Ret v) => Some (Ret (lift v))
    | Some (Throw e) => Some (Throw e)
    | None => None
    end.
Proof.
  intros Hw Hh Sw Sh Sx Sy.
  rewrite subImage_int by assumption.
  rewrite (subImage_accepted (map lift rows) _ _
             (Fin (inject_Z tw)) (Fin (inject_Z th))
             (Fin (inject_Z xM)) (Fin (inject_Z yM)))
    by (first [apply accepted_pair; now apply le_zero_whole
              |now apply accepted_margin_pair]).
  destruct (bound_whole th yM Sh Sy) as [-> C].
  destruct (slice_args_whole xM tw Sx Sw) as (A1 & A2 & E1 & E2).
  assert (Qceiling (inject_Z th + inject_Z yM) <= two53) as Bok
      by (rewrite C; unfold small, two53 in *; lia).
  assert (inject_Z th + inject_Z yM == inject_Z (th + yM))%Q as Eb
      by (rewrite inject_Z_plus; reflexivity).
  unfold small in *.
  destruct (rows_all_or_one rows yM (Z.to_nat th)) as [All|(k & Hk & Hno)].
  - rewrite Z2Nat.id in All by lia.
    destruct (All yM ltac:(lia)) as [r0 G0]. apply get_range in G0.
    destruct (All (yM + th - 1) ltac:(lia)) as [r1 G1]. apply get_range in G1.
    destruct (rows_loop_in rows (th + yM) (inject_Z th + inject_Z yM)%Q
                (xM + 1) (xM + 1 + tw) Eb
                (Z.to_nat th) yM (inject_Z yM) [SubImage.VNum 0])
      as (out1 & -> & Hlen1 & Hout1);
      [reflexivity|lia|lia|intros; apply All; lia|].
    destruct (loop_in (map lift rows) (inject_Z th + inject_Z yM)
                (Fin (inject_Z xM)) (Fin (inject_Z tw))
                Bok (S (length (map lift rows))) yM (inject_Z yM)
                [VNum zero])
      as (out2 & -> & Hlen2 & Hout2).
    + reflexivity.
    + rewrite C. unfold two53. lia.
    + rewrite C, length_map. unfold len in *. lia.
    + rewrite C. intros j Hj. rewrite row_at_lift.
      destruct (All j ltac:(lia)) as [row ->]. reflexivity.
    + rewrite C in Hlen2, Hout2. cbn [lift]. rewrite map_app. cbn [map lift].
      assert (out2 = map lift out1) as ->; [|reflexivity].
      apply DefilterMore.get_ext. intros j Hj.
      rewrite get_map.
      destruct (Z_lt_le_dec j th) as [In|Out].
      * rewrite (Hout2 j) by lia.
        destruct (Hout1 j ltac:(lia)) as (row & G & ->).
        rewrite row_at_lift, G, A1, A2. cbn [option_map lift slice_row].
        rewrite (to_integer_whole _ _ _ E1), (to_integer_whole _ _ _ E2).
        now rewrite slice_map.
      * rewrite !get_none by lia. reflexivity.
  - rewrite Z2Nat.id in Hk by lia.
    rewrite (rows_loop_missing rows (th + yM) (inject_Z th + inject_Z yM)%Q
               (xM + 1) (xM + 1 + tw) Eb
               (Z.to_nat th) yM (inject_Z yM) [SubImage.VNum 0]);
      [|reflexivity|lia|exists k; split; [lia|assumption]].
    rewrite (loop_missing (map lift rows) (inject_Z th + inject_Z yM)
               (Fin (inject_Z xM)) (Fin (inject_Z tw))
               Bok (S (length (map lift rows))) yM (inject_Z yM)
               [VNum zero]);
      [reflexivity|reflexivity|unfold two53; lia|].
    apply (bad_row_near (map lift rows) (inject_Z th + inject_Z yM)).
    rewrite C. exists k. split; [lia|]. rewrite row_at_lift.
    destruct (get rows k) as [[| |row]|] eqn:G; try reflexivity.
    elim (Hno row). reflexivity.
Qed.

End ExtractAgrees.

(** ** SubImageExtractor: further properties read off the code *)

Module ExtractMore.
Import Extract SubImageFacts SubImageMore ExtractFacts ExtractSpec.
Import String.StringSyntax.
#[local] Delimit Scope string_scope with string.

(** The arguments of [slice] at a whole [xMargin >= -1] and a width that
    need not be whole. *)
Lemma slice_args_fraction xM tw :
  small xM -> -1 <= xM -> (0 < tw)%Q ->
  exact (inject_Z xM + 1 + tw) = true ->
  add (Fin (inject_Z xM)) one = Fin (inject_Z xM + 1) /\
  add (Fin (inject_Z xM + 1)) (Fin tw) = Fin (inject_Z xM + 1 + tw) /\
  (inject_Z xM + 1 == inject_Z (xM + 1))%Q /\
  SubImage.truncate (inject_Z xM + 1 + tw) = xM + 1 + Qfloor tw.
Proof.
  unfold small. intros Sx Hx Hw Es.
  destruct (add_whole (inject_Z xM) 1 xM 1) as [A1 E1];
    try reflexivity; [unfold two53; lia|].
  split; [exact A1|]. split; [now apply add_exact|].
  split; [exact E1|]. unfold SubImage.truncate.
  assert (inject_Z (-1) <= inject_Z xM)%Q as L by (rewrite <- Zle_Qle; lia).
  change (inject_Z (-1)) with (-1)%Q in L.
  assert (Qle_bool 0 (inject_Z xM + 1 + tw) = true) as ->
      by (apply Qle_bool_iff; lra).
  rewrite (Qfloor_comp _ (inject_Z (xM + 1) + tw))
    by (rewrite inject_Z_plus; reflexivity).
  apply Qfloor_shift.
Qed.

(** The bound of the loop at a whole [yMargin] and a height that need not
    be whole. *)
Lemma bound_fraction th yM :
  exact (th + inject_Z yM) = true ->
  add (Fin th) (Fin (inject_Z yM)) = Fin (th + inject_Z yM) /\
  Qceiling (th + inject_Z yM) = Qceiling th + yM /\
  Qceiling (th + inject_Z yM) <= two53.
Proof.
  intros Es. split; [now apply add_exact|]. split.
  - apply Qceiling_shift.
  - now apply exact_ceiling.
Qed.

(** X6.  For a whole [xMargin >= -1], a whole [yMargin] and an accepted tile
    size that need not be whole, as long as the sums [xMargin + 1 +
    tileSize.x] and [tileSize.y + yMargin] are exact in doubles: when the
    rows asked for are arrays long enough, [subImage] returns 0 followed by
    [tileSize.y] rounded up rows of [tileSize.x] rounded down entries,
    entry [c] of row [k] being [imageDataBuffer[yMargin + k][xMargin + 1 +
    c]].  At [xMargin = -1] the first entry of each row is therefore the
    filter byte of the source row. *)
Theorem tile_contents (rows : list value) (ts m : value) (tw th : Q)
    (xM yM : Z) :
  accepted_tile ts (Fin tw) (Fin th) ->
  accepted_margins (given_margins m) (Fin (inject_Z xM)) (Fin (inject_Z yM)) ->
  small xM -> small yM -> -1 <= xM ->
  exact (inject_Z xM + 1 + tw) = true ->
  exact (th + inject_Z yM) = true ->
  (forall k, yM <= k < yM + Qceiling th ->
     exists row, get rows k = Some (VArr row) /\
                 xM + 1 + Qfloor tw <= len row) ->
  exists out,
    subImage (VArr rows) ts m = Some (Ret (VArr (VNum zero :: out))) /\
    len out = Qceiling th /\
    forall k, 0 <= k < Qceiling th ->
      exists row piece,
        get rows (yM + k) = Some (VArr row) /\
        get out k = Some (VArr piece) /\
        len piece = Qfloor tw /\
        forall c, 0 <= c < Qfloor tw -> get piece c = get row (xM + 1 + c).
Proof.
  intros Ht Hm Sx Sy Hx Esw Esh Hrows.
  assert (0 < tw)%Q as Hw
      by (destruct Ht as (_ & _ & _ & _ & L & _); now apply positive_of_le).
  assert (0 < th)%Q as Hh
      by (destruct Ht as (_ & _ & _ & _ & _ & L); now apply positive_of_le).
  pose proof (Qceiling_pos th Hh) as Hc.
  assert (0 <= Qfloor tw) as Hf.
  { assert (Qfloor 0 <= Qfloor tw) as L by (apply Qfloor_resp_le; lra).
    exact L. }
  rewrite (subImage_accepted rows ts m _ _ _ _ Ht Hm).
  destruct (bound_fraction th yM Esh) as (-> & C & Bok).
  destruct (slice_args_fraction xM tw Sx Hx Hw Esw) as (A1 & A2 & E1 & E2).
  destruct (Hrows yM ltac:(lia)) as (r0 & G0 & _). apply get_range in G0.
  destruct (Hrows (yM + Qceiling th - 1) ltac:(lia)) as (r1 & G1 & _).
  apply get_range in G1.
  unfold small in *.
  destruct (loop_in rows (th + inject_Z yM) (Fin (inject_Z xM)) (Fin tw) Bok
              (S (length rows)) yM (inject_Z yM) [VNum zero])
    as (out & -> & Hlen & Hout).
  - reflexivity.
  - rewrite C. unfold two53. lia.
  - rewrite C. unfold len in *. lia.
  - rewrite C. intros k Hk. destruct (Hrows k ltac:(lia)) as (row & G & _).
    unfold row_at. now rewrite G.
  - rewrite C in Hlen, Hout. exists out. split; [reflexivity|].
    split; [lia|]. intros k Hk.
    destruct (Hrows (yM + k) ltac:(lia)) as (row & G & Hlong).
    exists row, (slice row (xM + 1) (xM + 1 + Qfloor tw)).
    split; [exact G|]. split.
    + rewrite (Hout k) by lia. unfold row_at. rewrite G, A1, A2.
      cbn [slice_row].
      rewrite (to_integer_whole _ _ _ E1). cbn [to_integer]. now rewrite E2.
    + split.
      * rewrite slice_len_from by lia. lia.
      * intros c Hcc. apply slice_get_from; lia.
Qed.

(** A tile 1.5 wide and 1.5 high at the margins (-1, 0) of a grid of two
    rows of two pixels: two rows of one entry, the filter bytes 3 and 4. *)
Lemma tile_contents_witness :
  exists out,
    subImage (VArr [VArr [whole 3; VArr [whole 1]; VArr [whole 2]];
                    VArr [whole 4; VArr [whole 5]; VArr [whole 6]]])
             (tile (VNum (Fin (3 # 2))) (VNum (Fin (3 # 2))))
             (margin_pair (whole (-1)) (whole 0))
    = Some (Ret (VArr (VNum zero :: out))) /\
    out = [VArr [whole 3]; VArr [whole 4]].
Proof.
  destruct (tile_contents
              [VArr [whole 3; VArr [whole 1]; VArr [whole 2]];
               VArr [whole 4; VArr [whole 5]; VArr [whole 6]]]
              (tile (VNum (Fin (3 # 2))) (VNum (Fin (3 # 2))))
              (margin_pair (whole (-1)) (whole 0))
              (3 # 2) (3 # 2) (-1) 0) as (out & E & _ & _);
    try (unfold small; lia); try reflexivity.
  - now apply accepted_pair.
  - now apply accepted_margin_pair.
  - change (Qceiling (3 # 2)) with 2. change (Qfloor (3 # 2)) with 1.
    intros k Hk. assert (k = 0 \/ k = 1) as [-> | ->] by lia;
      eexists; (split; [reflexivity|]); vm_compute; discriminate.
  - exists out. split; [exact E|].
    vm_compute in E. injection E as <-. reflexivity.
Defined.

(** X7.  For an accepted tile size and a whole [yMargin], as long as the
    sum [tileSize.y + yMargin] is exact in doubles: [subImage] returns a
    tile when every row from [yMargin] up to [yMargin + tileSize.y]
    (rounded up) has a [slice] method (an array, a string or a typed array),
    and throws "Error trying to get subimage. ..." when one of them is
    missing or has none.  No column request makes it fail, whatever numbers
    it is made of. *)
Theorem rows_decide_the_outcome (rows : list value) (ts m : value)
    (tw xm : num) (th : Q) (yM : Z) :
  accepted_tile ts tw (Fin th) ->
  accepted_margins (given_margins m) xm (Fin (inject_Z yM)) ->
  small yM -> exact (th + inject_Z yM) = true ->
  ((forall k, yM <= k < yM + Qceiling th -> sliceable (row_at rows k) = true) ->
   exists out,
     subImage (VArr rows) ts m = Some (Ret (VArr (VNum zero :: out))) /\
     len out = Qceiling th /\
     forall k, 0 <= k < Qceiling th ->
       get out k = Some (slice_row (row_at rows (yM + k)) (add xm one)
                                   (add (add xm one) tw)))
  /\
  ((exists k, yM <= k < yM + Qceiling th /\ sliceable (row_at rows k) = false) ->
   subImage (VArr rows) ts m
   = Some (Throw (Err (SubImageExtractionError TypeError)))).
Proof.
  intros Ht Hm Sy Esh.
  assert (0 < th)%Q as Hh
      by (destruct Ht as (_ & _ & _ & _ & _ & L); now apply positive_of_le).
  pose proof (Qceiling_pos th Hh) as Hc.
  rewrite (subImage_accepted rows ts m _ _ _ _ Ht Hm).
  destruct (bound_fraction th yM Esh) as (-> & C & Bok).
  unfold small in *. split.
  - intros Hrows.
    pose proof (row_at_sliceable rows yM (Hrows yM ltac:(lia))) as G0.
    pose proof (row_at_sliceable rows (yM + Qceiling th - 1)
                  (Hrows (yM + Qceiling th - 1) ltac:(lia))) as G1.
    destruct (loop_in rows (th + inject_Z yM) xm tw Bok
                (S (length rows)) yM (inject_Z yM) [VNum zero])
      as (out & -> & Hlen & Hout).
    + reflexivity.
    + rewrite C. unfold two53. lia.
    + rewrite C. unfold len in *. lia.
    + rewrite C. intros k Hk. apply Hrows. lia.
    + rewrite C in Hlen, Hout. exists out. split; [reflexivity|].
      split; [lia|]. intros k Hk. apply Hout. lia.
  - intros (k & Hk & Hbad).
    rewrite (loop_missing rows (th + inject_Z yM) xm tw Bok
               (S (length rows)) yM (inject_Z yM) [VNum zero]);
      [reflexivity|reflexivity|unfold two53; lia|].
    apply (bad_row_near rows (th + inject_Z yM)). rewrite C.
    exists k. split; [lia|assumption].
Qed.

(** A string, a typed array and a number as rows, the columns from NaN: two
    empty slices for the first two rows; with the third row, the error. *)
Lemma rows_decide_the_outcome_witness :
  (exists out,
     subImage (VArr [VStr [97; 98]; VTyped [1; 2]; whole 7])
              (tile (whole 2) (whole 2)) (margin_pair (VNum NaN) (whole 0))
     = Some (Ret (VArr (VNum zero :: out))) /\ len out = 2) /\
  subImage (VArr [VStr [97; 98]; VTyped [1; 2]; whole 7])
           (tile (whole 2) (whole 2)) (margin_pair (VNum NaN) (whole 1))
  = Some (Throw (Err (SubImageExtractionError TypeError))).
Proof.
  split.
  - destruct (proj1 (rows_decide_the_outcome
                       [VStr [97; 98]; VTyped [1; 2]; whole 7]
                       (tile (whole 2) (whole 2))
                       (margin_pair (VNum NaN) (whole 0))
                       (Fin (inject_Z 2)) NaN (inject_Z 2) 0
                       ltac:(now apply accepted_pair)
                       ltac:(now apply accepted_margin_pair)
                       ltac:(unfold small; lia) eq_refl))
      as (out & E & L & _).
    + change (Qceiling (inject_Z 2)) with 2. intros k Hk.
      assert (k = 0 \/ k = 1) as [-> | ->] by lia; reflexivity.
    + exists out. split; [exact E|exact L].
  - apply (proj2 (rows_decide_the_outcome
                    [VStr [97; 98]; VTyped [1; 2]; whole 7]
                    (tile (whole 2) (whole 2))
                    (margin_pair (VNum NaN) (whole 1))
                    (Fin (inject_Z 2)) NaN (inject_Z 2) 1
                    ltac:(now apply accepted_pair)
                    ltac:(now apply accepted_margin_pair)
                    ltac:(unfold small; lia) eq_refl)).
    exists 2. change (Qceiling (inject_Z 2)) with 2. split; [lia|reflexivity].
Defined.

(** X8.  A finite [yMargin] that is not a whole number passes the argument
    checks and never yields a row.  When the loop is entered, that is when
    [yMargin < tileSize.y + yMargin] holds for the sum in doubles, the
    first row looked up is [imageDataBuffer[yMargin]], which is
    [undefined], and [subImage] throws "Error trying to get subimage. ...";
    when it is not (a height too small to change the sum, or NaN), the
    bare [[0]] is returned.  The grid and the columns asked for make no
    difference. *)
Theorem fractional_y_margin (rows : list value) (ts m : value)
    (tw th xm : num) (ym : Q) :
  accepted_tile ts tw th ->
  accepted_margins (given_margins m) xm (Fin ym) ->
  ~ (exists z, (ym == inject_Z z)%Q) ->
  (lt (Fin ym) (add th (Fin ym)) = true ->
   subImage (VArr rows) ts m
   = Some (Throw (Err (SubImageExtractionError TypeError)))) /\
  (lt (Fin ym) (add th (Fin ym)) = false ->
   subImage (VArr rows) ts m = Some (Ret (VArr [VNum zero]))).
Proof.
  intros Ht Hm Hfrac.
  rewrite (subImage_accepted rows ts m _ _ _ _ Ht Hm). cbn [rows_loop].
  split; intros ->; [|reflexivity].
  now rewrite (index_fraction rows ym Hfrac).
Qed.

(** A row margin of one half on a grid of two rows: the error for a tile
    one row high; the bare [[0]] for a tile [2^-60] high, whose sum with
    one half is one half. *)
Lemma fractional_y_margin_witness :
  subImage (VArr [VArr [whole 0; VArr [whole 1]]; VArr [whole 0; VArr [whole 2]]])
           (tile (whole 1) (whole 1)) (margin_pair (whole 0) (VNum (Fin (1 # 2))))
  = Some (Throw (Err (SubImageExtractionError TypeError))) /\
  subImage (VArr [VArr [whole 0; VArr [whole 1]]; VArr [whole 0; VArr [whole 2]]])
           (tile (whole 1) (VNum (Fin (1 # 1152921504606846976))))
           (margin_pair (whole 0) (VNum (Fin (1 # 2))))
  = Some (Ret (VArr [VNum zero])).
Proof.
  assert (~ (exists z, (1 # 2 == inject_Z z)%Q)) as N
      by (intros [z H]; unfold Qeq in H; cbn in H; lia).
  split.
  - apply (proj1 (fractional_y_margin _ _ _
                    (Fin (inject_Z 1)) (Fin (inject_Z 1)) (Fin (inject_Z 0))
                    (1 # 2)
                    ltac:(now apply accepted_pair)
                    ltac:(now apply accepted_margin_pair) N)).
    vm_compute. reflexivity.
  - apply (proj2 (fractional_y_margin _ _ _
                    (Fin (inject_Z 1)) (Fin (1 # 1152921504606846976))
                    (Fin (inject_Z 0)) (1 # 2)
                    ltac:(now apply accepted_pair)
                    ltac:(now apply accepted_margin_pair) N)).
    vm_compute. reflexivity.
Defined.

(** X22.  For a grid of no more than [2^53] rows, [subImage] always comes to
    an end, in one of six ways: a tile that begins with the number 0,
    "Incorrect type for imageDataBuffer", "Invalid tileSize", "Invalid
    margins", "Error trying to get subimage. ..." around a TypeError, or a
    TypeError of the runtime itself; the last one only for a [tileSize] or
    [margins] of [null].  No error of the loop leaves the function
    unwrapped. *)
Theorem subImage_outcomes (g ts m : value) :
  (forall rows, g = VArr rows -> len rows <= two53) ->
  exists r,
    subImage g ts m = Some r /\
    ((exists out, r = Ret (VArr (VNum zero :: out))) \/
     r = Throw (Err InvalidGridType) \/
     r = Throw (Err InvalidTileSize) \/
     r = Throw (Err InvalidMargins) \/
     r = Throw (Err (SubImageExtractionError TypeError)) \/
     r = Throw (Fault TypeError)) /\
    (r = Throw (Fault TypeError) -> ts = VNull \/ given_margins m = VNull).
Proof.
  intros Hlen.
  destruct g as [| |b|n|u|rows|l|fields];
    try (eexists; split; [reflexivity|]; split; [auto 10|discriminate]).
  specialize (Hlen rows eq_refl).
  destruct (tile_cases ts) as [[Hn T]|[[(tw & th & Ht) T]|(Hn & Hno & T)]].
  - eexists. split; [unfold subImage; rewrite T; reflexivity|]. auto 10.
  - destruct (margins_cases (given_margins m))
      as [[Mn M]|[[(xm & ym & Hm) M]|(Mn & Mno & M)]].
    + eexists. split;
        [unfold subImage; fold (given_margins m); rewrite T, M; reflexivity|].
      auto 10.
    + destruct (subImage (VArr rows) ts m) as [r|] eqn:E.
      * exists r. split; [reflexivity|].
        destruct (subImage_past_checks rows ts m _ _ _ _ _ Ht Hm E)
          as [[out ->]| ->]; (split; [eauto 10|discriminate]).
      * exfalso. rewrite (subImage_accepted rows ts m _ _ _ _ Ht Hm) in E.
        destruct (rows_loop _ _ _ _ _ _ _) as [[out|e]|] eqn:L;
          try discriminate.
        revert L. apply rows_loop_ends; [assumption| |lia].
        intros q z _ _ Hz. unfold len in *. lia.
    + eexists. split;
        [unfold subImage; fold (given_margins m); rewrite T, M; reflexivity|].
      split; [auto 10|discriminate].
  - eexists. split; [unfold subImage; rewrite T; reflexivity|].
    split; [auto 10|discriminate].
Qed.

(** On margins of [null]: the TypeError of the runtime. *)
Lemma subImage_outcomes_witness :
  exists r,
    subImage (VArr []) (tile (whole 1) (whole 1)) VNull = Some r /\
    (r = Throw (Fault TypeError) ->
     tile (whole 1) (whole 1) = VNull \/ given_margins VNull = VNull).
Proof.
  destruct (subImage_outcomes (VArr []) (tile (whole 1) (whole 1)) VNull)
    as (r & E & _ & H).
  - intros rows R. injection R as <-. unfold two53. cbn. lia.
  - exists r. split; [exact E|exact H].
Defined.

End ExtractMore.

(** ** ScanlineDefilterer, then SubImageExtractor *)

Module DecodedTile.
Import Defilter GridView DefilterInv SubImage SubImageFacts SubImageMore.

(** X9. A tile that lies inside an image of [h] whole scanlines is cut out
    of the grid of [reverseFiltering] without error: [subImage] returns 0
    followed by [tileSize.y] rows of [tileSize.x] pixels, pixel [c] of row
    [k] being pixel [xMargin + c] of row [yMargin + k] of the grid. *)
Theorem tile_of_decoded_image (array : list Z) (w h tw th xM yM : Z) :
  0 < w -> 0 < h ->
  len array = h * (w * 4 + 1) ->
  (forall r fb, 0 <= r -> get array (r * (w * 4 + 1)) = Some fb -> 0 <= fb <= 4) ->
  0 < tw -> 0 < th -> 0 <= xM -> xM + tw <= w -> 0 <= yM -> yM + th <= h ->
  exists g out,
    reverseFiltering array w = Some (Ret g) /\
    subImage (of_grid g) (mkTileSize (int tw) (int th))
             (mkMargins (int xM) (int yM))
    = Some (Ret (VArr (VNum 0 :: out))) /\
    len out = th /\
    forall k c, 0 <= k < th -> 0 <= c < tw ->
      exists p tile,
        pixel g (yM + k) (xM + c) = Some p /\
        get out k = Some (VArr tile) /\
        len tile = tw /\
        get tile c = Some (VArr (map int p)).
Proof.
  intros Hw Hh Hlen Hvalid Htw Hth HxM Hxw HyM Hyh.
  destruct (reverseFiltering_run array w Hw)
    as [(ag & E & Hex)|[_ (r & fb & Hr & Hfb & Hbad)]];
    [|elim Hbad; exact (Hvalid r fb Hr Hfb)].
  destruct (exit_framed array w Hw ag h Hex Hh Hlen) as [Hrows Hfull].
  assert (forall k, 0 <= k < h ->
            exists a, get ag k = Some a /\ len (snd a) = w) as Hrow.
  { intros k Hk. destruct (get_defined ag k) as [a Ha]; [lia|].
    exists a. split; [exact Ha|].
    apply (proj1 (Forall_forall _ _) Hfull), (get_In _ _ _ Ha). }
  exists (map conc ag). unfold of_grid.
  set (rows := map (fun l => VArr (map of_cell l)) (map conc ag)).
  assert (forall k a, get ag k = Some a ->
            get rows k = Some (VArr (map of_cell (conc a)))) as Hget.
  { intros k a Ha. unfold rows. now rewrite !get_map, Ha. }
  rewrite subImage_int by assumption.
  destruct (rows_loop_in rows (th + yM) (inject_Z th + inject_Z yM)%Q
              (xM + 1) (xM + 1 + tw)
              ltac:(rewrite inject_Z_plus; reflexivity)
              (Z.to_nat th) yM (inject_Z yM) [VNum 0])
    as (out & -> & Hout_len & Hout);
    [reflexivity|lia|lia| |].
  { intros k Hk. destruct (Hrow k ltac:(lia)) as (a & Ha & _).
    eexists. apply (Hget _ _ Ha). }
  exists out. split; [exact E|]. split; [reflexivity|]. split; [lia|].
  intros k c Hk Hc.
  destruct (Hout k ltac:(lia)) as (row & G & G').
  destruct (Hrow (yM + k) ltac:(lia)) as (a & Ha & Hfa).
  rewrite (Hget _ _ Ha) in G. injection G as <-.
  destruct (get_defined (snd a) (xM + c)) as [p Hp]; [lia|].
  exists p, (slice (map of_cell (conc a)) (xM + 1) (xM + 1 + tw)).
  split; [|split; [exact G'|split]].
  - rewrite pixel_conc by lia. unfold apx. now rewrite Ha.
  - rewrite slice_len_from by lia. rewrite len_map.
    unfold conc, len in *. cbn [length]. rewrite length_map. lia.
  - rewrite slice_get_from by lia. rewrite get_map.
    replace (xM + 1 + c) with (xM + c + 1) by lia.
    rewrite conc_get by lia. now rewrite Hp.
Qed.

(** The right-hand pixel of the second of two scanlines of two pixels. *)
Lemma tile_of_decoded_image_witness :
  exists g out,
    reverseFiltering [0; 1; 2; 3; 4; 5; 6; 7; 8;
                      2; 1; 1; 1; 1; 2; 2; 2; 2] 2 = Some (Ret g) /\
    subImage (of_grid g) (mkTileSize (int 1) (int 1))
             (mkMargins (int 1) (int 1))
    = Some (Ret (VArr (VNum 0 :: out))) /\
    out = [VArr [VArr [int 7; int 8; int 9; int 10]]].
Proof.
  destruct (tile_of_decoded_image
              [0; 1; 2; 3; 4; 5; 6; 7; 8; 2; 1; 1; 1; 1; 2; 2; 2; 2]
              2 2 1 1 1 1) as (g & out & E & E' & _); try lia.
  - reflexivity.
  - intros r fb Hr G. pose proof (get_range _ _ _ G) as R.
    change (len [0; 1; 2; 3; 4; 5; 6; 7; 8; 2; 1; 1; 1; 1; 2; 2; 2; 2])
      with 18 in R.
    assert (r = 0 \/ r = 1) as [-> | ->] by lia;
      cbv in G; injection G as <-; lia.
  - exists g, out. split; [exact E|]. split; [exact E'|].
    vm_compute in E. injection E as <-.
    vm_compute in E'. injection E' as <-. reflexivity.
Defined.

End DecodedTile.

(** ** ChunkParser: further properties read off the code *)

Module ParserMore.
Import Parser ParserFacts ChunkLayout.

(** *** What the loop has done when it stops *)

Lemma parse_loop_reaches bytes fuel : forall n pos st st',
  reaches bytes n pos st ->
  parse_loop fuel bytes pos st = Some (Ret st') ->
  exists n' pos', reaches bytes n' pos' st' /\ len bytes <= pos'.
Proof.
  induction fuel as [|fuel IH]; intros n pos st st' R; cbn [parse_loop];
    destruct (Z.ltb_spec pos (len bytes)) as [L|L]; try discriminate.
  - intros H. injection H as <-. eauto.
  - destruct (iteration bytes pos st) as [[pos1 st1]|e] eqn:E; [|discriminate].
    apply (IH (S n)). eapply reaches_next; eauto.
  - intros H. injection H as <-. eauto.
Qed.

Lemma parse_loop_throws bytes fuel : forall pos st e,
  parse_loop fuel bytes pos st = Some (Throw e) ->
  exists pos' st', iteration bytes pos' st' = Throw e.
Proof.
  induction fuel as [|fuel IH]; intros pos st e; cbn [parse_loop];
    destruct (pos <? len bytes); try discriminate.
  destruct (iteration bytes pos st) as [[pos1 st1]|e'] eqn:E.
  - apply IH.
  - intros H. injection H as <-. eauto.
Qed.

(** The chunk an iteration appends. *)
Lemma iteration_chunk bytes pos st pos' st' :
  Forall byte bytes -> iteration bytes pos st = Ret (pos', st') ->
  exists c,
    chunks st' = chunks st ++ [c] /\ offset c = pos + 8 /\
    pos' = offset c + size c + 4 /\ framed bytes c /\
    forall info, chunkInfo c = Some info -> read_header bytes = Ret info.
Proof.
  intros B. unfold iteration.
  destruct (getUint32 bytes pos) as [sz|] eqn:E; cbn [bind]; [|discriminate].
  destruct (getUint32 bytes (pos + 8 + sz)) as [c|] eqn:E'; cbn [bind];
    [|discriminate].
  pose proof (getUint32_ret _ _ _ B E) as (P0 & P1 & P2).
  pose proof (getUint32_ret _ _ _ B E') as (Q0 & Q1 & Q2).
  assert (forall io,
            framed bytes (mkChunk (slice bytes (pos + 4) (pos + 8)) sz
                            (slice bytes (pos + 8) (pos + 8 + sz))
                            (pos + 8) c io)) as F.
  { intros io. unfold framed. cbn [offset size fourCC data crc].
    replace (pos + 8 - 8) with pos by lia.
    replace (pos + 8 - 4) with (pos + 4) by lia.
    refine (conj E (conj eq_refl (conj eq_refl (conj E' (conj P2 _))))). lia. }
  destruct (tag_eqb _ IHDR).
  - destruct (read_header bytes) as [info|] eqn:H; cbn [bind]; [|discriminate].
    intros K. injection K as <- <-. eexists.
    refine (conj eq_refl (conj eq_refl (conj eq_refl (conj (F _) _)))).
    cbn [chunkInfo]. congruence.
  - destruct (tag_eqb _ PLTE).
    + destruct (negb (Z.rem sz 3 =? 0)); [discriminate|].
      destruct (first_colourType (chunks st)) as [ct|]; cbn [bind];
        [|discriminate].
      destruct ((ct =? 3) && (sz =? 0)); [discriminate|].
      intros K. injection K as <- <-. eexists.
      split; [destruct (((ct =? 0) || (ct =? 4)) && negb (sz =? 0));
              reflexivity|].
      refine (conj eq_refl (conj eq_refl (conj (F _) _))).
      cbn [chunkInfo]. discriminate.
    + destruct (tag_eqb _ tRNS); intros K; injection K as <- <-; eexists;
        refine (conj eq_refl (conj eq_refl (conj eq_refl (conj (F _) _))));
        cbn [chunkInfo]; discriminate.
Qed.

Lemma laid_out_snoc cs c : forall pos,
  laid_out pos cs (offset c - 8) ->
  laid_out pos (cs ++ [c]) (offset c + size c + 4).
Proof.
  induction cs as [|c' cs IH]; intros pos; cbn [laid_out app].
  - intros H. split; [lia|reflexivity].
  - intros [H1 H2]. split; [assumption|]. now apply IH.
Qed.

Lemma reaches_layout bytes n pos st :
  Forall byte bytes -> reaches bytes n pos st ->
  laid_out 8 (chunks st) pos /\
  Forall (framed bytes) (chunks st) /\
  (forall c info, In c (chunks st) -> chunkInfo c = Some info ->
                  read_header bytes = Ret info) /\
  (pos = 8 \/ pos <= len bytes).
Proof.
  intros B R. induction R as [|n pos st pos' st' R IH L E].
  - cbn. repeat split; auto. intros c info [].
  - destruct IH as (IH1 & IH2 & IH3 & _).
    destruct (iteration_chunk _ _ _ _ _ B E) as (c & -> & Ho & -> & F & Hi).
    split; [|split; [|split]].
    + apply laid_out_snoc. now replace (offset c - 8) with pos by lia.
    + apply Forall_app. split; [assumption|]. now constructor.
    + intros c' info Hc. apply in_app_or in Hc as [Hc|[<-|[]]]; eauto.
    + right. destruct F as (_ & _ & _ & _ & _ & F). exact F.
Qed.

Lemma parseChunks_reaches bytes st :
  parseChunks bytes = Some (Ret st) ->
  exists n pos, reaches bytes n pos st /\ len bytes <= pos.
Proof. apply (parse_loop_reaches bytes _ 0 8 start). constructor. Qed.



Ltac byte_list :=
  match goal with
  | |- Forall byte ?l =>
      let l' := eval vm_compute in l in
      change (Forall byte l'); repeat constructor; unfold byte; lia
  end.




(** *** The signature; short buffers; the ways to fail *)

Section Prefix.
Variables s s' rest : list Z.
Hypothesis same_length : len s = len s'.

Lemma get_prefix p : len s <= p -> get (s ++ rest) p = get (s' ++ rest) p.
Proof.
  intros H. pose proof (len_nonneg s).
  replace p with (len s + (p - len s)) at 1 by lia.
  replace p with (len s' + (p - len s)) at 2 by lia.
  now rewrite !get_app_r by lia.
Qed.

Lemma len_prefix : len (s ++ rest) = len (s' ++ rest).
Proof. rewrite !len_app. lia. Qed.

Lemma slice_prefix a b :
  len s <= a -> slice (s ++ rest) a b = slice (s' ++ rest) a b.
Proof.
  intros H. pose proof (len_nonneg s). pose proof (len_nonneg rest).
  unfold slice. rewrite len_prefix.
  destruct (a <? 0) eqn:E; [apply Z.ltb_lt in E; lia|].
  set (k := Z.min a (len (s' ++ rest))).
  assert (len s <= k) by (unfold k; rewrite len_app; lia).
  f_equal. rewrite !skipn_app.
  assert (length s = length s') as L by (unfold len in same_length; lia).
  rewrite (skipn_all2 s), (skipn_all2 s') by (unfold len in *; lia).
  now rewrite L.
Qed.

Lemma getUint8_prefix p :
  len s <= p -> getUint8 (s ++ rest) p = getUint8 (s' ++ rest) p.
Proof. intros H. unfold getUint8. now rewrite get_prefix. Qed.

Lemma getInt8_prefix p :
  len s <= p -> getInt8 (s ++ rest) p = getInt8 (s' ++ rest) p.
Proof. intros H. unfold getInt8. now rewrite getUint8_prefix. Qed.

Lemma getUint32_prefix p :
  len s <= p -> getUint32 (s ++ rest) p = getUint32 (s' ++ rest) p.
Proof.
  intros H. unfold getUint32.
  now rewrite len_prefix, !getUint8_prefix by lia.
Qed.

Lemma read_header_prefix :
  len s <= 16 -> read_header (s ++ rest) = read_header (s' ++ rest).
Proof.
  intros H. unfold read_header.
  now rewrite !getUint32_prefix, !getUint8_prefix, getInt8_prefix by lia.
Qed.

Lemma iteration_prefix pos st :
  Forall byte (s' ++ rest) -> len s <= 16 -> len s <= pos ->
  iteration (s ++ rest) pos st = iteration (s' ++ rest) pos st.
Proof.
  intros B H16 H. unfold iteration.
  rewrite getUint32_prefix by assumption.
  destruct (getUint32 (s' ++ rest) pos) as [sz|] eqn:E; cbn [bind];
    [|reflexivity].
  apply (getUint32_ret _ _ _ B) in E as (_ & _ & Hsz).
  rewrite getUint32_prefix by lia.
  now rewrite !slice_prefix, read_header_prefix by lia.
Qed.

Lemma parse_loop_prefix fuel : forall pos st,
  Forall byte (s' ++ rest) -> len s <= 16 -> len s <= pos ->
  parse_loop fuel (s ++ rest) pos st = parse_loop fuel (s' ++ rest) pos st.
Proof.
  induction fuel as [|fuel IH]; intros pos st B H16 H; cbn [parse_loop];
    rewrite len_prefix; [reflexivity|].
  destruct (pos <? len (s' ++ rest)); [|reflexivity].
  rewrite iteration_prefix by assumption.
  destruct (iteration (s' ++ rest) pos st) as [[pos1 st1]|] eqn:E;
    [|reflexivity].
  apply (iteration_advance _ _ _ _ _ B) in E. apply IH; auto; lia.
Qed.

End Prefix.

(** X12. [parseChunks] never looks at the first 8 bytes: two byte streams
    that differ only there are parsed alike, so a stream that does not
    start with the PNG signature is not refused. *)
Theorem signature_not_examined (s s' rest : list Z) :
  len s = 8 -> len s' = 8 -> Forall byte s' -> Forall byte rest ->
  parseChunks (s ++ rest) = parseChunks (s' ++ rest).
Proof.
  intros H H' B B'. unfold parseChunks.
  replace (length (s ++ rest)) with (length (s' ++ rest))
    by (rewrite !length_app; unfold len in *; lia).
  apply parse_loop_prefix; try lia.
  apply Forall_app. now split.
Qed.

(** Eight zeros in the place of the signature. *)
Lemma signature_not_examined_witness :
  parseChunks ([0; 0; 0; 0; 0; 0; 0; 0] ++ chunk_bytes IHDR (ihdr_body 2))
  = parseChunks (signature ++ chunk_bytes IHDR (ihdr_body 2)).
Proof.
  apply signature_not_examined; try reflexivity; byte_list.
Defined.

(** X13. A buffer of at most 8 bytes, the empty one included, is parsed
    into no chunks and no error. *)
Theorem short_buffer_no_chunks (bytes : list Z) :
  len bytes <= 8 -> parseChunks bytes = Some (Ret start).
Proof.
  intros H. unfold parseChunks.
  destruct (length bytes) as [|n]; cbn [parse_loop];
    destruct (Z.ltb_spec 8 (len bytes)); (lia || reflexivity).
Qed.

(** Three bytes. *)
Lemma short_buffer_no_chunks_witness :
  parseChunks [137; 80; 78] = Some (Ret start).
Proof.
  apply short_buffer_no_chunks. change (len [137; 80; 78]) with 3. lia.
Defined.

Lemma getInt8_throw bytes p e :
  getInt8 bytes p = Throw e -> e = Fault RangeError.
Proof.
  unfold getInt8. destruct (getUint8 bytes p) eqn:E; cbn [bind];
    [discriminate|].
  intros H. injection H as <-. eapply getUint8_throw; eauto.
Qed.

Lemma read_header_throws bytes e :
  read_header bytes = Throw e -> e = Fault RangeError.
Proof.
  unfold read_header.
  repeat match goal with
  | |- bind ?m _ = Throw _ -> _ =>
      let E := fresh "E" in
      destruct m eqn:E; cbn [bind];
      [|intros H; injection H as <-;
        first [eapply getUint32_throw; eassumption
              |eapply getUint8_throw; eassumption
              |eapply getInt8_throw; eassumption]]
  end.
  discriminate.
Qed.

(** X14. [parseChunks] fails in four ways only: the RangeError of a read
    outside the buffer, the TypeError of a palette met while the first
    chunk carries no header, "PLTE chunk length must be divisible by 3."
    and "Images of colourtype 3 must include a PLTE chunk.".  It has no
    error for a wrong signature, an unknown tag, a wrong CRC or a missing
    header or end chunk. *)
Theorem parse_failures (bytes : list Z) (e : exn) :
  parseChunks bytes = Some (Throw e) ->
  e = Fault RangeError \/ e = Fault TypeError \/
  e = Err InvalidPalette \/ e = Err MissingPalette.
Proof.
  intros H. apply parse_loop_throws in H as (pos & st & H). revert H.
  unfold iteration.
  destruct (getUint32 bytes pos) as [sz|] eqn:E; cbn [bind];
    [|intros H; injection H as <-; left; eapply getUint32_throw; eauto].
  destruct (getUint32 bytes (pos + 8 + sz)) as [c|] eqn:E'; cbn [bind];
    [|intros H; injection H as <-; left; eapply getUint32_throw; eauto].
  destruct (tag_eqb _ IHDR).
  - destruct (read_header bytes) as [info|] eqn:H; cbn [bind]; [discriminate|].
    intros K. injection K as <-. left. eapply read_header_throws; eauto.
  - destruct (tag_eqb _ PLTE).
    + destruct (negb (Z.rem sz 3 =? 0)); [intros K; injection K as <-; auto|].
      unfold first_colourType.
      destruct (get (chunks st) 0) as [c0|]; cbn [bind];
        [|intros K; injection K as <-; auto].
      destruct (chunkInfo c0) as [info|]; cbn [bind];
        [|intros K; injection K as <-; auto].
      destruct ((colourType info =? 3) && (sz =? 0));
        [intros K; injection K as <-; auto|discriminate].
    + destruct (tag_eqb _ tRNS); discriminate.
Qed.

(** On a palette of 4 bytes behind a header. *)
Lemma parse_failures_witness :
  Err InvalidPalette = Fault RangeError \/
  Err InvalidPalette = Fault TypeError \/
  Err InvalidPalette = Err InvalidPalette \/
  Err InvalidPalette = Err MissingPalette.
Proof.
  apply (parse_failures (signature ++ chunk_bytes IHDR (ihdr_body 2)
                         ++ chunk_bytes PLTE [1; 2; 3; 4])).
  reflexivity.
Defined.

(** *** Streams written chunk by chunk *)

Lemma be32_u32 n : 0 <= n < 4294967296 -> be32 (u32 n) = n.
Proof.
  intros H. unfold u32, be32.
  pose proof (Z.div_mod n 256 ltac:(lia)).
  pose proof (Z.div_mod (n / 256) 256 ltac:(lia)).
  pose proof (Z.div_mod (n / 256 / 256) 256 ltac:(lia)).
  pose proof (Z.mod_pos_bound n 256 ltac:(lia)).
  pose proof (Z.mod_pos_bound (n / 256) 256 ltac:(lia)).
  pose proof (Z.mod_pos_bound (n / 256 / 256) 256 ltac:(lia)).
  replace (n / 65536) with (n / 256 / 256)
    by (rewrite Z.div_div by lia; reflexivity).
  replace (n / 16777216) with (n / 256 / 256 / 256)
    by (rewrite !Z.div_div by lia; reflexivity).
  assert (n / 256 / 256 / 256 < 256).
  { apply Z.div_lt_upper_bound; [lia|].
    apply Z.div_lt_upper_bound; [lia|].
    apply Z.div_lt_upper_bound; lia. }
  assert (0 <= n / 256 / 256 / 256) by (repeat apply Z.div_pos; lia).
  rewrite (Z.mod_small (n / 256 / 256 / 256)) by lia.
  pose proof (Z.div_mod (n / 256 / 256) 256 ltac:(lia)).
  lia.
Qed.

Lemma getUint32_middle front q back :
  len q = 4 -> getUint32 (front ++ q ++ back) (len front) = Ret (be32 q).
Proof.
  intros H. destruct q as [|b0 [|b1 [|b2 [|b3 [|]]]]];
    try (unfold len in H; cbn [length] in H; lia).
  pose proof (len_nonneg front). pose proof (len_nonneg back).
  unfold getUint32.
  assert ((len front + 4 <=? len (front ++ [b0; b1; b2; b3] ++ back)) = true)
    as -> by (apply Z.leb_le; rewrite !len_app;
              change (len [b0; b1; b2; b3]) with 4; lia).
  unfold getUint8.
  replace (len front) with (len front + 0) at 1 by lia.
  rewrite !get_app_r by lia. reflexivity.
Qed.

Lemma slice_middle {A} (front mid back : list A) :
  slice (front ++ mid ++ back) (len front) (len front + len mid) = mid.
Proof.
  pose proof (len_nonneg front). pose proof (len_nonneg mid).
  pose proof (len_nonneg back).
  unfold slice. rewrite !len_app.
  destruct (len front <? 0) eqn:E; [apply Z.ltb_lt in E; lia|].
  destruct (len front + len mid <? 0) eqn:E'; [apply Z.ltb_lt in E'; lia|].
  replace (Z.min (len front) (len front + (len mid + len back)))
    with (len front) by lia.
  replace (Z.min (len front + len mid) (len front + (len mid + len back)))
    with (len front + len mid) by lia.
  unfold len. rewrite Nat2Z.id, skipn_app, skipn_all, Nat.sub_diag.
  cbn [app skipn].
  replace (Z.to_nat (Z.of_nat (length front) + Z.of_nat (length mid)
                     - Z.of_nat (length front))) with (length mid) by lia.
  rewrite firstn_app, firstn_all, Nat.sub_diag. cbn [firstn].
  apply app_nil_r.
Qed.

Lemma len_u32 n : len (u32 n) = 4.
Proof. reflexivity. Qed.

(** One iteration on a chunk that was written whole. *)
Lemma iteration_written front tag body crc back st :
  plain_chunk (tag, body, crc) ->
  iteration (front ++ chunk_stream (tag, body, crc) ++ back) (len front) st
  = Ret (len front + 12 + len body,
         push_chunk st (mkChunk tag (len body) body (len front + 8)
                                (be32 crc) None)).
Proof.
  intros (Ht & N1 & N2 & Hc & Hb & _).
  pose proof (len_nonneg body).
  cbn [chunk_stream].
  set (bytes := front ++ (u32 (len body) ++ tag ++ body ++ crc) ++ back).
  assert (getUint32 bytes (len front) = Ret (len body)) as E1.
  { unfold bytes. rewrite <- !app_assoc.
    rewrite getUint32_middle by reflexivity. now rewrite be32_u32 by lia. }
  assert (slice bytes (len front + 4) (len front + 8) = tag) as E2.
  { replace bytes with ((front ++ u32 (len body)) ++ tag ++ body ++ crc ++ back)
      by (unfold bytes; now rewrite <- !app_assoc).
    replace (len front + 4) with (len (front ++ u32 (len body)))
      by (rewrite len_app, len_u32; lia).
    replace (len front + 8) with (len (front ++ u32 (len body)) + len tag)
      by (rewrite len_app, len_u32; lia).
    apply slice_middle. }
  assert (slice bytes (len front + 8) (len front + 8 + len body) = body) as E3.
  { replace bytes
      with ((front ++ u32 (len body) ++ tag) ++ body ++ crc ++ back)
      by (unfold bytes; now rewrite <- !app_assoc).
    replace (len front + 8) with (len (front ++ u32 (len body) ++ tag))
      by (rewrite !len_app, len_u32; lia).
    apply slice_middle. }
  assert (getUint32 bytes (len front + 8 + len body) = Ret (be32 crc)) as E4.
  { replace bytes
      with ((front ++ u32 (len body) ++ tag ++ body) ++ crc ++ back)
      by (unfold bytes; now rewrite <- !app_assoc).
    replace (len front + 8 + len body)
      with (len (front ++ u32 (len body) ++ tag ++ body))
      by (rewrite !len_app, len_u32; lia).
    now apply getUint32_middle. }
  unfold iteration. rewrite E1. cbn [bind]. rewrite E4. cbn [bind].
  rewrite E2, E3.
  assert (tag_eqb tag IHDR = false) as ->
      by (destruct (tag_eqb tag IHDR) eqn:T; [apply tag_eqb_eq in T|];
          congruence).
  assert (tag_eqb tag PLTE = false) as ->
      by (destruct (tag_eqb tag PLTE) eqn:T; [apply tag_eqb_eq in T|];
          congruence).
  replace (len front + 8 + len body + 4) with (len front + 12 + len body)
    by lia.
  now destruct (tag_eqb tag tRNS).
Qed.

Lemma len_chunk_stream tag body crc :
  plain_chunk (tag, body, crc) ->
  len (chunk_stream (tag, body, crc)) = 12 + len body.
Proof.
  intros (Ht & _ & _ & Hc & _). cbn [chunk_stream].
  rewrite !len_app, len_u32. lia.
Qed.

Lemma parse_loop_written cs : forall fuel front st,
  Forall plain_chunk cs -> (length cs <= fuel)%nat ->
  parse_loop fuel (front ++ flat_map chunk_stream cs) (len front) st
  = Some (Ret (mkPstate (chunks st ++ chunks_at (len front) cs)
                        (warnings st))).
Proof.
  induction cs as [|[[tag body] crc] cs IH]; intros fuel front st P F.
  - cbn [flat_map chunks_at]. rewrite !app_nil_r.
    destruct fuel; cbn [parse_loop]; rewrite Z.ltb_irrefl; now destruct st.
  - destruct fuel as [|fuel]; [cbn [length] in F; lia|].
    apply Forall_cons_iff in P as [P0 P].
    pose proof (len_chunk_stream _ _ _ P0) as L.
    pose proof (len_nonneg body).
    pose proof (len_nonneg (flat_map chunk_stream cs)).
    cbn [flat_map parse_loop].
    assert ((len front
             <? len (front ++ chunk_stream (tag, body, crc)
                           ++ flat_map chunk_stream cs)) = true) as ->
        by (apply Z.ltb_lt; rewrite !len_app; lia).
    rewrite iteration_written by assumption.
    replace (len front + 12 + len body)
      with (len (front ++ chunk_stream (tag, body, crc)))
      by (rewrite len_app; lia).
    rewrite app_assoc, IH by (cbn [length] in F; auto; lia).
    cbn [chunks_at push_chunk chunks warnings].
    rewrite len_app, L, <- app_assoc. cbn [app].
    now replace (len front + (12 + len body)) with (len front + 12 + len body)
      by lia.
Qed.

(** X15. A stream written as the signature followed by chunks that are
    neither headers nor palettes (length field, a tag of four ASCII bytes,
    data, any four CRC bytes) is parsed back into exactly these chunks, with
    their tags, data and offsets: the CRC is stored as read and never
    checked, and neither a header chunk nor an end chunk is asked for. *)
Theorem parse_written (cs : list (list Z * list Z * list Z)) :
  Forall plain_chunk cs ->
  parseChunks (signature ++ flat_map chunk_stream cs)
  = Some (Ret (mkPstate (chunks_at 8 cs) [])).
Proof.
  intros P. unfold parseChunks.
  change 8 with (len signature) at 1.
  rewrite parse_loop_written; [reflexivity|assumption|].
  rewrite length_app.
  assert (length cs <= length (flat_map chunk_stream cs))%nat; [|lia].
  clear P. induction cs as [|[[tag body] crc] cs IH]; [reflexivity|].
  cbn [flat_map chunk_stream length]. rewrite !length_app.
  cbn [u32 length]. lia.
Qed.

(** A text chunk and an end chunk with made-up CRC bytes. *)
Lemma parse_written_witness :
  parseChunks (signature ++ [0; 0; 0; 1] ++ tEXt ++ [65] ++ [1; 2; 3; 4]
                         ++ [0; 0; 0; 0] ++ IEND ++ [] ++ [9; 9; 9; 9])
  = Some (Ret (mkPstate [mkChunk tEXt 1 [65] 16 16909060 None;
                         mkChunk IEND 0 [] 29 151587081 None] [])).
Proof.
  apply (parse_written [(tEXt, [65], [1; 2; 3; 4]); (IEND, [], [9; 9; 9; 9])]).
  repeat constructor; try discriminate; try reflexivity; unfold byte; lia.
Defined.

(** *** Termination *)

Lemma reaches_count bytes n pos st :
  reaches bytes n pos st -> len (chunks st) = Z.of_nat n.
Proof.
  intros R. induction R as [|n pos st pos' st' R IH L E]; [reflexivity|].
  apply iteration_info in E as (c & -> & _).
  rewrite len_app, IH. change (len [c]) with 1. lia.
Qed.

(** X21. On every byte stream [parseChunks] comes to an end, with chunks or
    with an error: each pass of the loop moves on by at least 12 bytes, so
    a stream of [n] bytes gives at most [(n - 8) / 12] chunks. *)
Theorem parse_terminates (bytes : list Z) :
  Forall byte bytes ->
  exists r,
    parseChunks bytes = Some r /\
    forall st, r = Ret st -> 12 * len (chunks st) <= Z.max 0 (len bytes - 8).
Proof.
  intros B. destruct (parseChunks bytes) as [r|] eqn:E;
    [|elim (parseChunks_total bytes B E)].
  exists r. split; [reflexivity|]. intros st ->.
  destruct (parseChunks_reaches _ _ E) as (n & pos & R & L).
  destruct (reaches_layout _ _ _ _ B R) as (_ & _ & _ & H).
  pose proof (reaches_pos _ _ _ _ B R) as P.
  rewrite (reaches_count _ _ _ _ R).
  destruct H as [->|H]; lia.
Qed.

(** On the stream of a header, a palette and the end chunk. *)
Lemma parse_terminates_witness :
  exists r, parseChunks grey_with_palette = Some r.
Proof.
  destruct (parse_terminates grey_with_palette ltac:(byte_list)) as (r & E & _).
  exists r. exact E.
Defined.

End ParserMore.

(** ** The compressed payload and the width of the scanlines *)

Module IdatMore.
Import Parser ParserFacts ChunkLayout ParserMore Idat.

Lemma Forall_firstn {A} (P : A -> Prop) n : forall l,
  Forall P l -> Forall P (firstn n l).
Proof.
  induction n as [|n IH]; intros [|x l] H; cbn [firstn]; auto.
  apply Forall_cons_iff in H as [H1 H2]. constructor; auto.
Qed.

Lemma Forall_skipn {A} (P : A -> Prop) n : forall l,
  Forall P l -> Forall P (skipn n l).
Proof.
  induction n as [|n IH]; intros [|x l] H; cbn [skipn]; auto.
  apply Forall_cons_iff in H as [H1 H2]. auto.
Qed.

Lemma Forall_slice {A} (P : A -> Prop) l s e :
  Forall P l -> Forall P (slice l s e).
Proof. intros H. unfold slice. now apply Forall_firstn, Forall_skipn. Qed.

Lemma Uint8Array_from_bytes l : Forall byte l -> Uint8Array_from l = l.
Proof.
  unfold Uint8Array_from. induction 1 as [|x l Hx H IH]; [reflexivity|].
  cbn [map]. rewrite IH, Z.mod_small; [reflexivity|unfold byte in Hx; lia].
Qed.

Lemma fold_idat cs : forall acc,
  fold_left (fun idatData chunk =>
               if tag_eqb (fourCC chunk) IDAT
               then idatData ++ data chunk
               else idatData) cs acc
  = acc ++ flat_map data (filter (fun c => tag_eqb (fourCC c) IDAT) cs).
Proof.
  induction cs as [|c cs IH]; intros acc; cbn [fold_left filter flat_map].
  - now rewrite app_nil_r.
  - rewrite IH. destruct (tag_eqb (fourCC c) IDAT); [|reflexivity].
    cbn [flat_map]. now rewrite app_assoc.
Qed.

(** X16. On the chunks [parseChunks] returns for a byte stream,
    [#concatIDATChunks] gives the data of the chunks tagged IDAT, byte for
    byte and in the order of the stream; chunks with other tags that lie
    between them are passed over, and with no IDAT chunk the result is
    empty. *)
Theorem idat_in_stream_order (bytes : list Z) (st : pstate) :
  Forall byte bytes ->
  parseChunks bytes = Some (Ret st) ->
  concatIDATChunks (chunks st)
  = flat_map data (filter (fun c => tag_eqb (fourCC c) IDAT) (chunks st)) /\
  Forall byte (concatIDATChunks (chunks st)).
Proof.
  intros B E. destruct (parseChunks_reaches _ _ E) as (n & pos & R & L).
  destruct (reaches_layout _ _ _ _ B R) as (_ & F & _).
  assert (Forall byte
            (flat_map data
               (filter (fun c => tag_eqb (fourCC c) IDAT) (chunks st)))) as Hb.
  { induction F as [|c cs (_ & _ & Hd & _) F IH]; cbn [filter]; [constructor|].
    destruct (tag_eqb (fourCC c) IDAT); [|assumption].
    cbn [flat_map]. apply Forall_app. split; [|assumption].
    rewrite Hd. now apply Forall_slice. }
  unfold concatIDATChunks. rewrite fold_idat. cbn [app].
  rewrite Uint8Array_from_bytes by assumption. now split.
Qed.

(** Two IDAT chunks with a text chunk between them. *)
Lemma idat_in_stream_order_witness :
  exists st,
    parseChunks (signature ++ chunk_bytes IDAT [1; 2] ++ chunk_bytes tEXt [65]
                           ++ chunk_bytes IDAT [3]) = Some (Ret st) /\
    concatIDATChunks (chunks st) = [1; 2; 3].
Proof.
  set (S := signature ++ chunk_bytes IDAT [1; 2] ++ chunk_bytes tEXt [65]
                      ++ chunk_bytes IDAT [3]).
  destruct (parseChunks S) as [[st|e]|] eqn:E;
    [|vm_compute in E; discriminate..].
  exists st. split; [reflexivity|].
  rewrite (proj1 (idat_in_stream_order S st ltac:(subst S; byte_list) E)).
  vm_compute in E. injection E as <-. reflexivity.
Defined.

Lemma zeros_app a b : 0 <= a -> 0 <= b -> zeros (a + b) = zeros a ++ zeros b.
Proof.
  intros Ha Hb. unfold zeros. rewrite Z2Nat.inj_add by assumption.
  apply repeat_app.
Qed.

Lemma len_zeros n : 0 <= n -> len (zeros n) = n.
Proof. intros H. unfold len, zeros. rewrite repeat_length. lia. Qed.

Lemma total_from chunks : forall a,
  fold_left (fun acc (val : list Z) => acc + len val) chunks a
  = a + fold_left (fun acc (val : list Z) => acc + len val) chunks 0.
Proof.
  induction chunks as [|c chunks IH]; intros a; cbn [fold_left]; [lia|].
  rewrite IH, (IH (0 + len c)). lia.
Qed.

Lemma total_nonneg chunks :
  0 <= fold_left (fun acc (val : list Z) => acc + len val) chunks 0.
Proof.
  induction chunks as [|c chunks IH]; cbn [fold_left]; [lia|].
  rewrite total_from. pose proof (len_nonneg c). lia.
Qed.

Lemma set_at_end done chunk n :
  0 <= n ->
  set (done ++ zeros (len chunk + n)) chunk (len done)
  = Ret ((done ++ chunk) ++ zeros n).
Proof.
  intros Hn. pose proof (len_nonneg done). pose proof (len_nonneg chunk).
  unfold set. rewrite len_app, len_zeros by lia.
  destruct (Z.ltb_spec (len done) 0); [lia|].
  destruct (Z.ltb_spec (len done + (len chunk + n)) (len done + len chunk));
    [lia|].
  cbn [orb]. f_equal.
  rewrite zeros_app by lia.
  unfold len at 1. rewrite Nat2Z.id, firstn_app, firstn_all, Nat.sub_diag.
  cbn [firstn]. rewrite app_nil_r, <- app_assoc. f_equal. f_equal.
  rewrite skipn_app.
  rewrite skipn_all2 by (unfold len; lia). cbn [app].
  replace (Z.to_nat (len done + len chunk) - length done)%nat
    with (length (zeros (len chunk)))
    by (unfold zeros; rewrite repeat_length; unfold len; lia).
  rewrite skipn_app, skipn_all, Nat.sub_diag. reflexivity.
Qed.

Lemma set_all_at_end chunks : forall done,
  set_all chunks
    (done ++ zeros (fold_left (fun acc val => acc + len val) chunks 0))
    (len done)
  = Ret (done ++ concat chunks).
Proof.
  induction chunks as [|c chunks IH]; intros done.
  - cbn. reflexivity.
  - cbn [set_all fold_left concat]. rewrite total_from.
    replace (0 + len c) with (len c) by lia.
    rewrite set_at_end by apply total_nonneg. cbn [bind].
    replace (len done + len c) with (len (done ++ c)) by apply len_app.
    rewrite IH. now rewrite <- app_assoc.
Qed.

(** X17. The loop that joins the pieces read from the compression stream
    never writes outside its buffer, and the buffer it fills is the pieces
    one after the other: nothing of them is lost, reordered or left as a
    zero. *)
Theorem join_is_concat (chunks : list (list Z)) :
  join chunks = Ret (concat chunks).
Proof. unfold join. apply (set_all_at_end chunks []). Qed.

(** X18. As a method, [reverseFiltering] takes the width from the first
    chunk of the parsed stream.  If the stream does not begin with a chunk
    tagged IHDR (none at all, or another chunk first), it throws a TypeError
    whatever the payload; if it does, the width is the number at offsets 16
    to 19 of the stream. *)
Theorem width_from_first_chunk (bytes : list Z) (st : pstate)
    (arrayBuffer : list Z) :
  Forall byte bytes ->
  parseChunks bytes = Some (Ret st) ->
  (slice bytes 12 16 <> IHDR ->
   reverseFiltering_of (chunks st) arrayBuffer
   = Some (Throw (Fault TypeError))) /\
  (slice bytes 12 16 = IHDR -> 8 < len bytes ->
   exists w, getUint32 bytes 16 = Ret w /\
     reverseFiltering_of (chunks st) arrayBuffer
     = Defilter.reverseFiltering arrayBuffer w).
Proof.
  intros B E. destruct (parseChunks_reaches _ _ E) as (n & pos & R & L).
  destruct (reaches_layout _ _ _ _ B R) as (Hl & F & Hi & _).
  pose proof (reaches_info _ _ _ _ R) as Hinfo.
  unfold reverseFiltering_of.
  destruct (chunks st) as [|c cs] eqn:Ecs.
  - split; [reflexivity|]. intros _ Hlen. cbn [laid_out] in Hl. lia.
  - change (get (c :: cs) 0) with (Some c). cbn [laid_out] in Hl.
    destruct Hl as [Ho _].
    apply Forall_cons_iff in F as [(_ & Ht & _) _].
    rewrite Ho in Ht. change (8 + 8 - 4) with 12 in Ht.
    change (8 + 8) with 16 in Ht.
    specialize (Hinfo c (or_introl eq_refl)).
    specialize (Hi c).
    split.
    + intros N. destruct (chunkInfo c) as [info|]; [|reflexivity].
      elim N. rewrite <- Ht. apply Hinfo. discriminate.
    + intros Y _. destruct (chunkInfo c) as [info|] eqn:I.
      * specialize (Hi info (or_introl eq_refl) eq_refl).
        unfold read_header in Hi.
        destruct (getUint32 bytes 16) as [w|]; cbn [bind] in Hi;
          [|discriminate].
        exists w. split; [reflexivity|].
        repeat match type of Hi with
        | bind ?m _ = Ret _ => destruct m; cbn [bind] in Hi; [|discriminate]
        end.
        injection Hi as <-. reflexivity.
      * exfalso. apply (proj1 Hinfo); congruence.
Qed.

(** A header of width 2 first, and a text chunk first. *)
Lemma width_from_first_chunk_witness :
  (exists st,
     parseChunks (signature ++ chunk_bytes IHDR (ihdr_body 2)) = Some (Ret st) /\
     reverseFiltering_of (chunks st) [0; 1; 2; 3; 4; 5; 6; 7; 8]
     = Defilter.reverseFiltering [0; 1; 2; 3; 4; 5; 6; 7; 8] 2) /\
  (exists st,
     parseChunks (signature ++ chunk_bytes tEXt [65]) = Some (Ret st) /\
     reverseFiltering_of (chunks st) [0; 1; 2; 3; 4; 5; 6; 7; 8]
     = Some (Throw (Fault TypeError))).
Proof.
  split.
  - destruct (parseChunks (signature ++ chunk_bytes IHDR (ihdr_body 2)))
      as [[st|e]|] eqn:E; [|vm_compute in E; discriminate..].
    exists st. split; [reflexivity|].
    destruct (proj2 (width_from_first_chunk
                       (signature ++ chunk_bytes IHDR (ihdr_body 2)) st
                       [0; 1; 2; 3; 4; 5; 6; 7; 8]
                       ltac:(byte_list) E) eq_refl eq_refl)
      as (w & Hw & ->).
    vm_compute in Hw. injection Hw as <-. reflexivity.
  - destruct (parseChunks (signature ++ chunk_bytes tEXt [65]))
      as [[st|e]|] eqn:E; [|vm_compute in E; discriminate..].
    exists st. split; [reflexivity|].
    apply (proj1 (width_from_first_chunk
                    (signature ++ chunk_bytes tEXt [65]) st
                    [0; 1; 2; 3; 4; 5; 6; 7; 8]
                    ltac:(byte_list) E)).
    discriminate.
Defined.

End IdatMore.

(** ** The constructor: what its checks let through *)

Module ConstructSpec.
Import String Construct.
#[local] Open Scope string_scope.

Lemma prop_raise v key t : prop v key = Raise t -> t = Native TypeError.
Proof.
  destruct v as [| | | |[|c s]|fields]; cbn [prop]; try discriminate;
    try congruence.
  destruct (key =? "0"); discriminate.
Qed.

Lemma is_string_eq v literal : is_string v literal = true <-> v = Str literal.
Proof.
  destruct v; cbn [is_string]; try (split; discriminate).
  rewrite String.eqb_eq. split; congruence.
Qed.

(** X19. The first check of the constructor throws "Invalid target." for
    one argument only, the string "null": its test of [typeof event] is
    always false, so [null], [undefined], numbers and other non-objects get
    past it. *)
Theorem invalid_target_only_for_the_text_null (event : jsval) :
  checks event = Raise (Error "Invalid target.") <-> event = Str "null".
Proof.
  unfold checks.
  assert (is_string (Bool (negb (truthy (Str (typeof event))))) "object"
          = false) as -> by reflexivity.
  cbn [orb]. destruct (is_string event "null") eqn:E.
  - apply is_string_eq in E. split; auto.
  - split; [|intros ->; discriminate]. intros H. exfalso. revert H.
    repeat match goal with
    | |- and_then ?m _ = _ -> False =>
        let P := fresh "P" in
        destruct m eqn:P; cbn [and_then];
        [|apply prop_raise in P; subst; discriminate]
    end.
    destruct (negb _); discriminate.
Qed.

(** X20. When the constructor gets as far as reading a file, that file is
    [event.target.files[0]], an object whose [type] is "image/png": the
    branch of [#readBlob] that takes the argument itself as the file is
    never taken, and an argument without a [target] ends in a TypeError. *)
Theorem file_comes_from_target (event file : jsval) :
  constructor event = Ok file ->
  exists target files,
    prop event "target" = Ok target /\ truthy target = true /\
    prop target "files" = Ok files /\ prop files "0" = Ok file /\
    prop file "type" = Ok (Str "image/png").
Proof.
  unfold constructor, checks, file_to_read.
  destruct (_ || _); cbn [and_then]; [discriminate|].
  destruct (prop event "target") as [target|] eqn:P1; cbn [and_then];
    [|discriminate].
  destruct (prop target "files") as [files|] eqn:P2; cbn [and_then];
    [|discriminate].
  destruct (prop files "0") as [file0|] eqn:P3; cbn [and_then];
    [|discriminate].
  destruct (prop file0 "type") as [type|] eqn:P4; cbn [and_then];
    [|discriminate].
  destruct (is_string type "image/png") eqn:T; cbn [negb and_then];
    [|discriminate].
  apply is_string_eq in T. subst type.
  assert (truthy target = true) as Tr.
  { destruct target as [| |b|z|[|c s]|fields]; try discriminate P2;
      try reflexivity; cbn in P2;
      try (injection P2 as <-; discriminate P3). }
  rewrite Tr. intros H. injection H as <-.
  exists target, files. auto.
Qed.

(** The event of a file input that holds one PNG file. *)
Lemma file_comes_from_target_witness :
  exists target files,
    prop (Obj [("target",
                Obj [("files",
                      Obj [("0", Obj [("type", Str "image/png")])])])])
         "target" = Ok target /\ truthy target = true /\
    prop target "files" = Ok files /\
    prop files "0" = Ok (Obj [("type", Str "image/png")]) /\
    prop (Obj [("type", Str "image/png")]) "type" = Ok (Str "image/png").
Proof.
  apply file_comes_from_target. reflexivity.
Defined.

End ConstructSpec.
